(** * KoGPT2-chatbot: the data pipeline and the chat loop of [train_torch.py]

  A shallow embedding of the parts of [train_torch.py] that are plain
  Python (list slicing, the padding loops, the truncation of a dialogue
  turn, the greedy decoding loop, the chat state) and the properties of
  them that the description of the repository relies on.

  The tokenizer, the language model and the sentiment classifier are
  third-party components: they appear as section variables, and every
  statement holds for all of them. *)

From Stdlib Require Import ZArith List Lia Bool Reals Lra SpecFloat.
From Stdlib Require Import Permutation.
From Equations Require Import Equations.
Import ListNotations.

Local Open Scope Z_scope.

(** ** Python values and exceptions *)

(** A Python [str] is a sequence of Unicode code points. *)
Definition pystr := list N.

Inductive exn : Type :=
| AssertionError
| IndexError
| EOFError
| ValueError
| OverflowError.

Inductive result (A : Type) : Type :=
| Ok (a : A)
| Raise (e : exn).
Arguments Ok {A} a.
Arguments Raise {A} e.

Definition bind {A B} (r : result A) (k : A -> result B) : result B :=
  match r with
  | Ok a => k a
  | Raise e => Raise e
  end.

Notation "x <- r ;; k" := (bind r (fun x => k))
  (at level 61, r at next level, right associativity).
Notation "' p <- r ;; k" := (bind r (fun p => k))
  (at level 61, p pattern, r at next level, right associativity).

(** ** The list operations of Python that the script uses *)

Module Py.

(** [len(l)] *)
Definition len {A} (l : list A) : Z := Z.of_nat (length l).

(** The bound of a slice, as Python normalises it: a negative bound
    counts from the end, and the outcome is clamped to [0, len]. *)
Definition clamp (n i : Z) : Z :=
  if i <? 0 then Z.max (i + n) 0 else Z.min i n.

(** [l[start:]] *)
Definition slice_from {A} (l : list A) (start : Z) : list A :=
  skipn (Z.to_nat (clamp (len l) start)) l.

(** [l[:stop]] *)
Definition slice_to {A} (l : list A) (stop : Z) : list A :=
  firstn (Z.to_nat (clamp (len l) stop)) l.

(** [[x] * n]: empty when [n <= 0]. *)
Definition rep {A} (x : A) (n : Z) : list A := repeat x (Z.to_nat n).

(** [int(n / 2)] on an [int]: the true quotient, truncated towards zero
    (exact as long as [n] fits the 53 bits of a double, which a length
    bound always does). *)
Definition int_half (n : Z) : Z := Z.quot n 2.

End Py.

(** ** CharDataset *)

Section CharDataset.

(** [TOKENIZER.tokenize], [TOKENIZER.convert_tokens_to_ids] on one token,
    and [TOKENIZER.pad_token_id]. *)
Variable tokenize : pystr -> list pystr.
Variable convert_token_to_id : pystr -> Z.
Variable pad_token_id : Z.

(** The special tokens, as the code points of their text. *)
Definition U_TKN : pystr := [60; 117; 115; 114; 62]%N.
Definition S_TKN : pystr := [60; 115; 121; 115; 62]%N.
Definition BOS : pystr := [60; 47; 115; 62]%N.
Definition EOS : pystr := [60; 47; 115; 62]%N.
Definition MASK : pystr := [60; 117; 110; 117; 115; 101; 100; 48; 62]%N.
Definition SENT : pystr := [60; 117; 110; 117; 115; 101; 100; 49; 62]%N.
Definition PAD : pystr := [60; 112; 97; 100; 62]%N.

(** One row of the data frame: the columns Q and A, and the text of the
    label column ([str(turn['label'])]). *)
Record turn : Type := { Q : pystr; A : pystr; label : pystr }.

Definition convert_tokens_to_ids (tokens : list pystr) : list Z :=
  map convert_token_to_id tokens.

(** [while len(ids) < max_len: ids += [pad_token_id]] *)
Equations? pad_loop (max_len : Z) (ids : list Z) : list Z
  by wf (Z.to_nat (max_len - Py.len ids)) lt :=
  pad_loop max_len ids with Z_lt_dec (Py.len ids) max_len => {
    | left _ := pad_loop max_len (ids ++ [pad_token_id]);
    | right _ := ids }.
Proof.
  unfold Py.len in *. rewrite length_app. simpl. lia.
Qed.

(** The local variables of [__getitem__] after the truncation block. *)
Record fitted : Type :=
  { q_toked : list pystr; q_len : Z; a_toked : list pystr; a_len : Z }.

(** Lines 93-105: the lengths, and the truncation when the turn does not
    fit [max_len]. *)
Definition fit (max_len : Z) (q_toked0 a_toked0 : list pystr)
  : result fitted :=
  let q_len0 := Py.len q_toked0 in
  let a_len0 := Py.len a_toked0 in
  if q_len0 + a_len0 >? max_len then
    let a_len1 := max_len - q_len0 in
    '(q_toked1, q_len1, a_len2) <-
      (if a_len1 <=? 0 then
         let q_toked1 := Py.slice_from q_toked0 (- Py.int_half max_len) in
         let q_len1 := Py.len q_toked1 in
         let a_len2 := max_len - q_len1 in
         if a_len2 >? 0 then Ok (q_toked1, q_len1, a_len2)
         else Raise AssertionError
       else Ok (q_toked0, q_len0, a_len1)) ;;
    let a_toked1 := Py.slice_to a_toked0 a_len2 in
    let a_len3 := Py.len a_toked1 in
    if a_len3 =? Py.len a_toked1 then
      Ok {| q_toked := q_toked1; q_len := q_len1;
            a_toked := a_toked1; a_len := a_len3 |}
    else Raise AssertionError
  else
    Ok {| q_toked := q_toked0; q_len := q_len0;
          a_toked := a_toked0; a_len := a_len0 |}.

(** Lines 107-126: labels, mask and token ids of a fitted turn.  The
    logging under [self.first] only writes to the log. *)
Definition assemble (max_len : Z) (f : fitted)
  : list Z * list Z * list Z :=
  let labels := Py.rep MASK (q_len f) ++ Py.slice_from (a_toked f) 1 in
  let mask := Py.rep 0 (q_len f) ++ Py.rep 1 (a_len f)
              ++ Py.rep 0 (max_len - q_len f - a_len f) in
  let labels_ids := pad_loop max_len (convert_tokens_to_ids labels) in
  let token_ids :=
    pad_loop max_len (convert_tokens_to_ids (q_toked f ++ a_toked f)) in
  (token_ids, mask, labels_ids).

Definition getitem_toked (max_len : Z) (q_toked0 a_toked0 : list pystr)
  : result (list Z * list Z * list Z) :=
  f <- fit max_len q_toked0 a_toked0 ;;
  Ok (assemble max_len f).

(** [CharDataset.__getitem__] on the row [t]. *)
Definition getitem (max_len : Z) (t : turn)
  : result (list Z * list Z * list Z) :=
  let q_toked0 := tokenize (U_TKN ++ Q t ++ SENT ++ label t) in
  let a_toked0 := tokenize (S_TKN ++ A t ++ EOS) in
  getitem_toked max_len q_toked0 a_toked0.

End CharDataset.

(** ** What the description says of a training example *)

Section CharDatasetSpec.

Variable convert_token_to_id : pystr -> Z.
Variable pad_token_id : Z.

(** The last [k] tokens of [l] (all of [l] when it has fewer). *)
Definition last_tokens {T} (k : nat) (l : list T) : list T :=
  skipn (length l - k) l.

(** The question tokens of an example, as the description has them: all of
    the tokenized question when the turn fits [max_len] or leaves room for
    some of the answer, else its last [int(max_len/2)] tokens. *)
Definition kept_question (max_len : Z) (q0 a0 : list pystr) : list pystr :=
  if Py.len q0 + Py.len a0 <=? max_len then q0
  else if 0 <? max_len - Py.len q0 then q0
  else last_tokens (Z.to_nat (Py.int_half max_len)) q0.

(** The answer tokens of an example: all of the tokenized answer when the
    turn fits [max_len], else as many of its first tokens as the question
    kept leaves room for. *)
Definition kept_answer (max_len : Z) (q0 a0 : list pystr) : list pystr :=
  if Py.len q0 + Py.len a0 <=? max_len then a0
  else firstn (Z.to_nat (max_len - Py.len (kept_question max_len q0 a0))) a0.

(** Labels as described: one mask id per question token, the answer without
    its first token, pad ids up to [max_len]. *)
Definition labels_spec (max_len : Z) (q a : list pystr) : list Z :=
  repeat (convert_token_to_id MASK) (length q)
  ++ map convert_token_to_id (tl a)
  ++ repeat pad_token_id (Z.to_nat max_len - length q - length (tl a)).

(** Mask as described: zeros over the question, ones over the answer, zeros
    up to [max_len]. *)
Definition mask_spec (max_len : Z) (q a : list pystr) : list Z :=
  repeat 0 (length q) ++ repeat 1 (length a)
  ++ repeat 0 (Z.to_nat max_len - length q - length a).

End CharDatasetSpec.

(** What holds of the local variables whenever the block completes. *)
Record fit_post (max_len : Z) (q0 a0 : list pystr) (f : fitted) : Prop :=
  { fit_q_len : q_len f = Py.len (q_toked f);
    fit_a_len : a_len f = Py.len (a_toked f);
    fit_room : Py.len (q_toked f) + Py.len (a_toked f) <= max_len;
    fit_q_suffix : exists dropped, q0 = dropped ++ q_toked f;
    fit_a_prefix : exists cut, a0 = a_toked f ++ cut;
    fit_untouched :
      Py.len q0 + Py.len a0 <= max_len ->
      q_toked f = q0 /\ a_toked f = a0 }.

(** ** A toy tokenizer, to run the definitions on *)

(** One token per code point. *)
Definition char_tokenize (s : pystr) : list pystr := map (fun c => [c]) s.

(** The id of a token: its first code point. *)
Definition first_code_point (tok : pystr) : Z := Z.of_N (hd 0%N tok).

Definition sample_turn : turn :=
  {| Q := [104; 105]%N; A := [111; 107]%N; label := [48]%N |}.


(** ** Strings and indexing, as the chat loop uses them *)

Module PyStr.

(** [s == t] on two strings *)
Fixpoint eqb (s t : pystr) : bool :=
  match s, t with
  | [], [] => true
  | c :: s', d :: t' => N.eqb c d && eqb s' t'
  | _, _ => false
  end.

(** [c.isspace()]: the code points that [str.strip()] removes. *)
Definition isspace (c : N) : bool :=
  ((9 <=? c) && (c <=? 13) || (28 <=? c) && (c <=? 32)
   || (c =? 133) || (c =? 160) || (c =? 5760)
   || (8192 <=? c) && (c <=? 8202)
   || (c =? 8232) || (c =? 8233) || (c =? 8239) || (c =? 8287)
   || (c =? 12288))%N.

Fixpoint lstrip (s : pystr) : pystr :=
  match s with
  | [] => []
  | c :: s' => if isspace c then lstrip s' else s
  end.

Definition rstrip (s : pystr) : pystr := rev (lstrip (rev s)).

(** [s.strip()] *)
Definition strip (s : pystr) : pystr := rstrip (lstrip s).

(** [s.replace(old, new)] for one-character [old] and [new] *)
Definition replace (old new : N) (s : pystr) : pystr :=
  map (fun c => if N.eqb c old then new else c) s.

End PyStr.

(** [l[i]]: a negative index counts from the end; out of range raises. *)
Definition py_getitem {T} (l : list T) (i : Z) : result T :=
  let j := if i <? 0 then i + Py.len l else i in
  if j <? 0 then Raise IndexError
  else match nth_error l (Z.to_nat j) with
       | Some x => Ok x
       | None => Raise IndexError
       end.

(** [for x in l: ...] with a body that may raise *)
Fixpoint for_each {T U} (body : T -> result U) (l : list T)
  : result (list U) :=
  match l with
  | [] => Ok []
  | x :: l' => y <- body x ;; ys <- for_each body l' ;; Ok (y :: ys)
  end.

(** [enumerate(l)], from [i] *)
Fixpoint enumerate_from {T} (i : Z) (l : list T) : list (Z * T) :=
  match l with
  | [] => []
  | x :: l' => (i, x) :: enumerate_from (i + 1) l'
  end.

(** ** torch.argmax *)

Section Argmax.

(** The entries of a tensor of logits, and [<] on them. *)
Variable logit : Type.
Variable logit_ltb : logit -> logit -> bool.

(** The scan: [best] at index [best_i] is the largest entry seen before
    index [i]; a later entry replaces it only when strictly larger, so the
    first maximal entry wins. *)
Fixpoint argmax_from (best_i : nat) (best : logit) (i : nat)
  (l : list logit) : nat :=
  match l with
  | [] => best_i
  | x :: l' =>
      if logit_ltb best x then argmax_from i x (S i) l'
      else argmax_from best_i best (S i) l'
  end.

(** [t.argmax(-1)] on one row; an empty row raises [IndexError] (the
    dimension reduced has size zero). *)
Definition argmax (l : list logit) : result Z :=
  match l with
  | [] => Raise IndexError
  | x :: l' => Ok (Z.of_nat (argmax_from 0 x 1 l'))
  end.

End Argmax.
Arguments argmax_from {logit}.
Arguments argmax {logit}.

(** ** ShowEmotionGraph *)

Definition emo_label : list pystr :=
  [ [49836; 54548]; [51473; 47549]; [54665; 48373]; [54800; 50724];
    [48516; 45432]; [44277; 54252]; [45440; 46988] ]%N.

(** What [sentence_predict] returns first: one of the seven strings, or,
    when no branch of the chain matches, the class index it started with. *)
Inductive emotion : Type :=
| EmoStr (s : pystr)
| EmoIndex (i : Z).

(** The figure of [emotion_predict_result]: the line through the points
    (time, emotion), one text per point, and the number in the file name. *)
Record trajectory : Type :=
  { line_x : list pystr;
    line_y : list Z;
    texts : list (Z * Z * pystr);
    fig_num : Z }.

Section ShowEmotionGraph.

Variable logit : Type.
Variable logit_ltb : logit -> logit -> bool.

(** The tokenizer and the model of [ShowEmotionGraph] on one sentence:
    [outputs[0][0]], the logits of the one sentence of the batch. *)
Variable classify : pystr -> list logit.

(** [sentence_predict]: [prob] has the shape of [logits], the bar chart
    reads [prob[0][0]] .. [prob[0][6]], and the result is the argmax of the
    logits, with its name when it is one of 0 .. 6. *)
Definition sentence_predict (sent : pystr) (num : Z)
  : result (emotion * Z) :=
  let logits := classify sent in
  _ <- for_each (py_getitem logits) [0; 1; 2; 3; 4; 5; 6] ;;
  result <- argmax logit_ltb logits ;;
  let named :=
    if result =? 0 then EmoStr [49836; 54548]%N
    else if result =? 1 then EmoStr [51473; 47549]%N
    else if result =? 2 then EmoStr [54665; 48373]%N
    else if result =? 3 then EmoStr [54800; 50724]%N
    else if result =? 4 then EmoStr [48516; 45432]%N
    else if result =? 5 then EmoStr [44277; 54252]%N
    else if result =? 6 then EmoStr [45440; 46988]%N
    else EmoIndex result in
  Ok (named, result).

(** [emotion_predict_result]: [ax.plot] wants as many times as emotions;
    each point is annotated with [emo_label[emo_list[i]]]. *)
Definition emotion_predict_result (x : list pystr) (y : list Z) (num : Z)
  : result trajectory :=
  let time_list := x in
  let emo_list := y in
  if Py.len time_list =? Py.len emo_list then
    texts <- for_each
               (fun '(i, e) => s <- py_getitem emo_label e ;; Ok (i, e, s))
               (enumerate_from 0 emo_list) ;;
    Ok {| line_x := time_list; line_y := emo_list;
          texts := texts; fig_num := num |}
  else Raise ValueError.

End ShowEmotionGraph.

(** ** KoGPT2Chat.chat *)

(** What [.squeeze().numpy().tolist()] gives for the argmax ids of a batch
    of one sequence: a list, or a bare number when there is one position. *)
Inductive ids_value : Type :=
| IdScalar (i : Z)
| IdList (l : list Z).

(** What [convert_ids_to_tokens] gives back: a token for a number, a list
    of tokens for a list. *)
Inductive tokens_value : Type :=
| TokStr (s : pystr)
| TokList (l : list pystr).

(** One pass through the generation loop. *)
Inductive step : Type :=
| Break
| Continue (a : pystr).

Inductive event : Type :=
| ShownProbabilities (sent : pystr) (num : Z)
| Printed (e : emotion)
| PrintedReply (a : pystr)
| SavedTrajectory (t : trajectory).

Record chat_state : Type :=
  { num : Z; time_list : list pystr; emo_list : list Z }.

(** How a chat session ends: after [quit], with an exception, or never
    (the generation loop used up its fuel). *)
Inductive outcome : Type :=
| Finished (st : chat_state) (trace : list event)
| Raised (e : exn) (st : chat_state) (trace : list event)
| Diverged (st : chat_state) (trace : list event).

Definition quit : pystr := [113; 117; 105; 116]%N.

Section Chat.

Variable logit : Type.
Variable logit_ltb : logit -> logit -> bool.

(** [tok.encode], [tok.convert_ids_to_tokens] on one id, the logits of
    [self.kogpt2] for a batch of one sequence (one row per position), and
    the classifier of [ShowEmotionGraph]. *)
Variable encode : pystr -> list Z.
Variable id_to_token : Z -> pystr.
Variable kogpt2 : list Z -> list (list logit).
Variable classify : pystr -> list logit.

Definition squeeze_tolist (ids : list Z) : ids_value :=
  match ids with
  | [i] => IdScalar i
  | _ => IdList ids
  end.

Definition convert_ids_to_tokens (ids : ids_value) : tokens_value :=
  match ids with
  | IdScalar i => TokStr (id_to_token i)
  | IdList l => TokList (map id_to_token l)
  end.

(** [v[-1]]: the last token of a list, the last character of a string. *)
Definition last_item (v : tokens_value) : result pystr :=
  match v with
  | TokStr s => c <- py_getitem s (-1) ;; Ok [c]
  | TokList l => py_getitem l (-1)
  end.

(** The text the model continues. *)
Definition context (q sent a : pystr) : pystr :=
  U_TKN ++ q ++ SENT ++ sent ++ S_TKN ++ a.

(** Lines 236-241: [gen]. *)
Definition gen_token (q sent a : pystr) : result pystr :=
  let input_ids := encode (context q sent a) in
  let pred := kogpt2 input_ids in
  ids <- for_each (argmax logit_ltb) pred ;;
  last_item (convert_ids_to_tokens (squeeze_tolist ids)).

(** Lines 236-244: the body of the generation loop. *)
Definition gen_step (q sent a : pystr) : result step :=
  gen <- gen_token q sent a ;;
  if PyStr.eqb gen EOS then Ok Break
  else Ok (Continue (a ++ PyStr.replace 9601 32 gen)).

(** The generation loop, for at most [fuel] passes: [None] when they do
    not suffice. *)
Fixpoint generate (fuel : nat) (q sent a : pystr) : option (result pystr) :=
  match fuel with
  | O => None
  | S fuel' =>
      match gen_step q sent a with
      | Raise e => Some (Raise e)
      | Ok Break => Some (Ok a)
      | Ok (Continue a') => generate fuel' q sent a'
      end
  end.

(** Lines 219-245: the chat loop over what the user types, each line with
    the reading [str(time_record.time())] of the clock at that turn.
    Reading past the last line is the end of the input. *)
Fixpoint chat_loop (fuel : nat) (sent : pystr)
  (inputs : list (pystr * pystr)) (st : chat_state) (trace : list event)
  : outcome :=
  match inputs with
  | [] => Raised EOFError st trace
  | (q_temp, now) :: rest =>
      let q := PyStr.strip q_temp in
      if PyStr.eqb q quit then
        match emotion_predict_result (time_list st) (emo_list st) (num st)
        with
        | Ok t => Finished st (trace ++ [SavedTrajectory t])
        | Raise e => Raised e st trace
        end
      else
        let _time := Py.slice_to now 8 in
        match sentence_predict logit logit_ltb classify q_temp (num st) with
        | Raise e => Raised e st trace
        | Ok (emo_str, emo_int) =>
            let trace1 :=
              trace ++ [ShownProbabilities q_temp (num st); Printed emo_str]
            in
            let st1 := {| num := num st + 1;
                          time_list := time_list st ++ [_time];
                          emo_list := emo_list st ++ [emo_int] |} in
            match generate fuel q sent [] with
            | None => Diverged st1 trace1
            | Some (Raise e) => Raised e st1 trace1
            | Some (Ok a) =>
                chat_loop fuel sent rest st1
                  (trace1 ++ [PrintedReply (PyStr.strip a)])
            end
        end
  end.

(** [chat(sent)] *)
Definition chat (fuel : nat) (sent : pystr) (inputs : list (pystr * pystr))
  : outcome :=
  chat_loop fuel sent inputs {| num := 0; time_list := []; emo_list := [] |}
    [].

(** The chat branch of the script: [model.chat()], whatever [--sentiment]
    was given on the command line. *)
Definition main_chat (fuel : nat) (args_sentiment : pystr)
  (inputs : list (pystr * pystr)) : outcome :=
  chat fuel [48]%N inputs.

(** *** Greedy decoding, as described *)

(** The token whose id is the argmax of the logits at the last position of
    the context. *)
Definition greedy_token (q sent a : pystr) : option pystr :=
  match rev (kogpt2 (encode (context q sent a))) with
  | [] => None
  | row :: _ =>
      match argmax logit_ltb row with
      | Ok i => Some (id_to_token i)
      | Raise _ => None
      end
  end.

(** [greedy_run q sent a toks a']: starting from the reply [a], the greedy
    tokens are [toks], none of them the end of sentence, and appending them
    (with the word mark turned into a space) gives [a']. *)
Inductive greedy_run (q sent : pystr) : pystr -> list pystr -> pystr -> Prop :=
| greedy_done a : greedy_run q sent a [] a
| greedy_more a tok toks a' :
    greedy_token q sent a = Some tok ->
    tok <> EOS ->
    greedy_run q sent (a ++ PyStr.replace 9601 32 tok) toks a' ->
    greedy_run q sent a (tok :: toks) a'.

(** The logits have two positions or more, and no row is empty. *)
Definition well_shaped (pred : list (list logit)) : Prop :=
  (2 <= length pred)%nat /\ Forall (fun row => row <> []) pred.

End Chat.

Definition trace_of (o : outcome) : list event :=
  match o with
  | Finished _ t | Raised _ _ t | Diverged _ t => t
  end.

(** The replies that a trace shows, in order. *)
Definition trace_replies (trace : list event) : list pystr :=
  flat_map (fun ev => match ev with PrintedReply a => [a] | _ => [] end)
           trace.

Definition replies (o : outcome) : list pystr := trace_replies (trace_of o).

Definition final_state (o : outcome) : chat_state :=
  match o with
  | Finished st _ | Raised _ st _ | Diverged st _ => st
  end.

(** ** A toy model, to run the chat loop on *)

Module Toy.

(** One id per code point. *)
Definition encode (s : pystr) : list Z := map Z.of_N s.

(** Id 0 is the end of sentence; id [i] is a word mark and a letter. *)
Definition id_to_token (i : Z) : pystr :=
  if i =? 0 then EOS else [9601; Z.to_N (96 + i)]%N.

(** The same logits at every position: the letter of id 1 while the
    context is shorter than 24 ids, the end of sentence from then on. *)
Definition kogpt2 (ids : list Z) : list (list Z) :=
  map (fun _ => if Py.len ids <? 24 then [0; 1; 0] else [5; 1; 0]) ids.

(** Two classifiers that disagree on every sentence. *)
Definition classify_happy (s : pystr) : list Z := [0; 0; 5; 0; 0; 0; 1].
Definition classify_sad (s : pystr) : list Z := [9; 0; 5; 0; 0; 0; 1].

(** "hi", "0", " hi ", "quit " and a reading of the clock *)
Definition hi : pystr := [104; 105]%N.
Definition zero : pystr := [48]%N.
Definition hi_spaced : pystr := [32; 104; 105; 32]%N.
Definition quit_spaced : pystr := [113; 117; 105; 116; 32]%N.
Definition noon : pystr :=
  [49; 50; 58; 48; 48; 58; 48; 48; 46; 50; 53; 48; 48; 48; 48]%N.

End Toy.

(** ** Softmax over the real numbers *)

(** The softmax of mathematics, on real numbers and without rounding.
    The program computes on [float32] tensors; its softmax is
    [F32.softmax] below. *)
Module Exact.

(** [<] on reals, as a test. *)
Definition ltb (x y : R) : bool := if Rlt_dec x y then true else false.

(** The sum of [exp] over the logits. *)
Definition total (logits : list R) : R :=
  fold_right Rplus 0%R (map exp logits).

(** [exp x_i / sum_j exp x_j] *)
Definition softmax (logits : list R) : list R :=
  map (fun x => (exp x / total logits)%R) logits.

End Exact.

(** ** float32 tensors *)

Module F32.

(** A [float32] is an IEEE 754 binary32 number. *)
Definition prec : Z := 24.
Definition emax : Z := 128.

Definition zero : spec_float := S754_zero false.
Definition one : spec_float := S754_finite false 8388608 (-23).

Definition is_nan (x : spec_float) : bool :=
  match x with S754_nan => true | _ => false end.

(** [<] as [argmax] and [max] see it: a NaN counts as the greatest. *)
Definition ltb (x y : spec_float) : bool :=
  SFltb x y || (is_nan y && negb (is_nan x)).

(** A finite number of the format. *)
Definition finite (x : spec_float) : bool :=
  match x with
  | S754_zero _ => true
  | S754_finite _ m e => bounded prec emax m e
  | _ => false
  end.

(** A finite number in units of [2^-149], the least positive number of
    the format. *)
Definition ulps (x : spec_float) : Z :=
  match x with
  | S754_finite s m e => cond_Zopp s (Zpos m * 2 ^ (e + 149))
  | _ => 0
  end.

(** Zero or a positive number of the format. *)
Definition nonneg (x : spec_float) : bool :=
  match x with
  | S754_zero false => true
  | S754_finite false m e => bounded prec emax m e
  | _ => false
  end.

(** Zero, a negative number of the format, or minus infinity. *)
Definition nonpos (x : spec_float) : bool :=
  match x with
  | S754_zero _ => true
  | S754_infinity true => true
  | S754_finite true m e => bounded prec emax m e
  | _ => false
  end.

(** The arithmetic of the format: each operation gives the exact result
    rounded to the nearest number, ties to even. *)
Definition sub := SFsub prec emax.
Definition add := SFadd prec emax.
Definition mul := SFmul prec emax.
Definition div := SFdiv prec emax.

(** [row.max()] *)
Definition max_of (x : spec_float) (l : list spec_float) : spec_float :=
  fold_left (fun a y => if ltb a y then y else a) l x.

Section Softmax.

(** The exponential of the tensor library on [float32]. *)
Variable exp32 : spec_float -> spec_float.

(** [row.softmax()] as the tensor library computes it on one row: the
    exponentials of the entries less the maximum of the row, each times
    the reciprocal of their sum, the sum added from left to right. *)
Definition softmax (logits : list spec_float) : list spec_float :=
  match logits with
  | [] => []
  | x :: rest =>
      let max_input := max_of x rest in
      let es := map (fun y => exp32 (sub y max_input)) logits in
      let tmp_sum := fold_left add es zero in
      let inv := div one tmp_sum in
      map (fun e => mul e inv) es
  end.

End Softmax.

(** [(1 + x / 2^40)^(2^40)] for [x = u * 2^-149], in units of [2^-192]:
    forty squarings, each rounded down. *)
Definition exp_fix (u : Z) : Z :=
  Nat.iter 40 (fun y => y * y / 2 ^ 192) (Z.max 0 (2 ^ 192 + u * 2 ^ 3)).

(** A number in units of [2^-192], rounded to the format. *)
Definition round_fix (V : Z) : spec_float :=
  binary_normalize prec emax V (-192) false.

(** A [float32] exponential to run the softmax with:
    [(1 + x / 2^40)^(2^40)], which tends to [e^x], rounded to the nearest
    number of the format; from 128 on it overflows.  The exponential of
    the tensor library is not part of the script; the statements about
    [softmax] hold for every exponential that does not decrease. *)
Definition exp (x : spec_float) : spec_float :=
  match x with
  | S754_nan => S754_nan
  | S754_infinity true => S754_zero false
  | S754_infinity false => S754_infinity false
  | S754_zero _ | S754_finite _ _ _ =>
      if 2 ^ 156 <=? ulps x then S754_infinity false
      else round_fix (exp_fix (ulps x))
  end.

End F32.

Module Sample32.

(** The [float32] nearest to [1e-8]. *)
Definition small : spec_float := S754_finite false 11258999 (-50).

(** Seven logits, the second a little above the others. *)
Definition logits : list spec_float :=
  [F32.zero; small; F32.zero; F32.zero; F32.zero; F32.zero; F32.zero].

(** The [float32] nearest to one seventh. *)
Definition seventh : spec_float := S754_finite false 9586981 (-26).

End Sample32.

(** ** Rounding to a format *)

(** The float that [binary_round_aux] makes of a rounded mantissa [n] at
    the exponent [c]: a carry into the next binade halves the mantissa, an
    exponent out of range overflows. *)
Definition pack (prec emax n c : Z) : spec_float :=
  if n =? 0 then S754_zero false
  else
    let n' := if n =? 2 ^ prec then 2 ^ (prec - 1) else n in
    let c' := if n =? 2 ^ prec then c + 1 else c in
    if c' <=? emax - prec then S754_finite false (Z.to_pos n') c'
    else S754_infinity false.

(** [n] is [M * 2^E / 2^c] rounded to the nearest integer, ties to even;
    [F] is any exponent below both, to speak of integers only. *)
Definition nearest (F M E c n : Z) : Prop :=
  let V := M * 2 ^ (E - F) in
  let P := 2 ^ (c - F) in
  P * (2 * n - 1) <= 2 * V <= P * (2 * n + 1) /\
  (2 * V = P * (2 * n - 1) \/ 2 * V = P * (2 * n + 1) -> Z.even n = true).

(** [M1 * 2^E1 <= M2 * 2^E2], on integers. *)
Definition dle (M1 E1 M2 E2 : Z) : Prop :=
  M1 * 2 ^ (E1 - Z.min E1 E2) <= M2 * 2 ^ (E2 - Z.min E1 E2).

(** The place of a float in the order: its class, then exponent and
    mantissa. *)
Definition fkey (x : spec_float) : Z * Z * Z :=
  match x with
  | S754_nan => (3, 0, 0)
  | S754_infinity false => (2, 0, 0)
  | S754_infinity true => (-2, 0, 0)
  | S754_zero _ => (0, 0, 0)
  | S754_finite false m e => (1, e, Zpos m)
  | S754_finite true m e => (-1, - e, - Zpos m)
  end.

Definition lex_lt (a b : Z * Z * Z) : Prop :=
  let '(a1, a2, a3) := a in
  let '(b1, b2, b3) := b in
  a1 < b1 \/ (a1 = b1 /\ (a2 < b2 \/ (a2 = b2 /\ a3 < b3))).

(** Zero, a positive number or plus infinity. *)
Definition positive_or_zero (x : spec_float) : Prop :=
  match x with
  | S754_zero s | S754_infinity s | S754_finite s _ _ => s = false
  | S754_nan => False
  end.

(** ** Python floats and the warmup steps *)

Module PyFloat.

(** A Python [float] is an IEEE 754 binary64 number. *)
Definition prec : Z := 53.
Definition emax : Z := 1024.

(** [float(n)] for an [int]: the nearest double, ties to even; an [int]
    beyond the range of doubles raises. *)
Definition of_int (n : Z) : result spec_float :=
  match binary_normalize prec emax n 0 false with
  | S754_infinity _ => Raise OverflowError
  | x => Ok x
  end.

(** [n * x] for an [int] and a [float]: the [int] is converted first. *)
Definition int_mul (n : Z) (x : spec_float) : result spec_float :=
  y <- of_int n ;;
  Ok (SFmul prec emax y x).

(** [int(x)]: the integer part, towards zero. *)
Definition to_int (x : spec_float) : result Z :=
  match x with
  | S754_zero _ => Ok 0
  | S754_finite s m e => Ok (cond_Zopp s (Z.shiftl (Zpos m) e))
  | S754_infinity _ => Raise OverflowError
  | S754_nan => Raise ValueError
  end.

(** The floor of the number that a double stands for. *)
Definition floor (x : spec_float) : option Z :=
  match x with
  | S754_zero _ => Some 0
  | S754_finite s m e => Some (Z.shiftl (cond_Zopp s (Zpos m)) e)
  | _ => None
  end.

Definition zero : spec_float := S754_zero false.
Definition one : spec_float := S754_finite false 4503599627370496 (-52).
Definition minus_half : spec_float :=
  S754_finite true 4503599627370496 (-53).

(** The doubles that Python prints as 0.1 and 0.7. *)
Definition tenth : spec_float := S754_finite false 7205759403792794 (-56).
Definition seven_tenths : spec_float :=
  S754_finite false 6305039478318694 (-53).

(** [0 <= x <= 1] on doubles *)
Definition in_unit_interval (x : spec_float) : bool :=
  valid_binary prec emax x && SFleb zero x && SFleb x one.

End PyFloat.

(** Lines 186-187 of [configure_optimizers]: [num_warmup_steps] and
    [num_train_steps], from the number of batches of the data loader. *)
Definition warmup_steps (num_batches max_epochs : Z)
  (warmup_ratio : spec_float) : result (Z * Z) :=
  let num_train_steps := num_batches * max_epochs in
  x <- PyFloat.int_mul num_train_steps warmup_ratio ;;
  num_warmup_steps <- PyFloat.to_int x ;;
  Ok (num_warmup_steps, num_train_steps).

(** A float that is zero, or positive and at most [n]. *)
Definition nonneg_le (n : Z) (x : spec_float) : Prop :=
  x = S754_zero false \/ x = S754_zero true \/
  exists m e, x = S754_finite false m e /\ e <= 0 /\ Zpos m <= n * 2 ^ (- e).

(** ** Batches *)

Section Batches.

Variable tokenize : pystr -> list pystr.
Variable convert_token_to_id : pystr -> Z.
Variable pad_token_id : Z.

(** [CharDataset.__getitem__(idx)], from [turn = self._data.iloc[idx]] on:
    the row at [idx] (counted from the end when negative), then the
    example made of it. *)
Definition dataset_getitem (data : list turn) (max_len : Z) (idx : Z)
  : result (list Z * list Z * list Z) :=
  t <- py_getitem data idx ;;
  getitem tokenize convert_token_to_id pad_token_id max_len t.

(** [torch.LongTensor(rows)] on a list of lists of ints: the rows of a
    tensor have one length. *)
Definition long_tensor (rows : list (list Z)) : result (list (list Z)) :=
  match rows with
  | [] => Ok []
  | r :: rest =>
      if forallb (fun r' => Py.len r' =? Py.len r) rest then Ok rows
      else Raise ValueError
  end.

(** [KoGPT2Chat._collate_fn] *)
Definition collate_fn (batch : list (list Z * list Z * list Z))
  : result (list (list Z) * list (list Z) * list (list Z)) :=
  let data := map (fun item => fst (fst item)) batch in
  let mask := map (fun item => snd (fst item)) batch in
  let label := map (fun item => snd item) batch in
  d <- long_tensor data ;;
  m <- long_tensor mask ;;
  l <- long_tensor label ;;
  Ok (d, m, l).

(** One batch of the data loader: the examples at [indices], collated. *)
Definition fetch_batch (data : list turn) (max_len : Z) (indices : list Z)
  : result (list (list Z) * list (list Z) * list (list Z)) :=
  batch <- for_each (dataset_getitem data max_len) indices ;;
  collate_fn batch.

End Batches.

(** [mask.sum()] on one row *)
Definition sum_list (l : list Z) : Z := fold_right Z.add 0 l.

(** ** The parameter groups of the optimizer *)

(** [s.startswith(p)] *)
Fixpoint py_startswith (p s : pystr) : bool :=
  match p, s with
  | [], _ => true
  | c :: p', d :: s' => N.eqb c d && py_startswith p' s'
  | _ :: _, [] => false
  end.

(** [sub in s] on strings *)
Fixpoint py_in (sub s : pystr) : bool :=
  py_startswith sub s ||
  match s with
  | [] => false
  | _ :: s' => py_in sub s'
  end.

(** ['bias'], ['LayerNorm.bias'], ['LayerNorm.weight'] *)
Definition no_decay : list pystr :=
  [ [98; 105; 97; 115];
    [76; 97; 121; 101; 114; 78; 111; 114; 109; 46; 98; 105; 97; 115];
    [76; 97; 121; 101; 114; 78; 111; 114; 109; 46;
     119; 101; 105; 103; 104; 116] ]%N.

(** [any(nd in n for nd in no_decay)] *)
Definition any_no_decay (n : pystr) : bool :=
  existsb (fun nd => py_in nd n) no_decay.

Record param_group (P : Type) : Type :=
  { params : list P; weight_decay : spec_float }.
Arguments params {P} p.
Arguments weight_decay {P} p.

(** The double that Python prints as 0.01. *)
Definition hundredth : spec_float :=
  S754_finite false 5764607523034235 (-59).

(** [optimizer_grouped_parameters] of [configure_optimizers], from
    [param_optimizer = list(self.named_parameters())]. *)
Definition optimizer_grouped_parameters {P : Type}
  (param_optimizer : list (pystr * P)) : list (param_group P) :=
  [ {| params :=
         map snd (filter (fun np => negb (any_no_decay (fst np)))
                         param_optimizer);
       weight_decay := hundredth |};
    {| params :=
         map snd (filter (fun np => any_no_decay (fst np)) param_optimizer);
       weight_decay := S754_zero false |} ].

(** A string of white space only. *)
Definition all_space (s : pystr) : Prop :=
  Forall (fun c => PyStr.isspace c = true) s.

(** The word mark of the tokenizer, U+2581. *)
Definition word_mark : N := 9601%N.

(** The trajectories that a trace shows as saved. *)
Definition saved_trajectories (trace : list event) : list trajectory :=
  flat_map (fun ev => match ev with SavedTrajectory t => [t] | _ => [] end)
           trace.

(** ** Sample values, to run the definitions on *)

Module Sample.

(** The example made of [sample_turn] at [max_len = 8] by the toy
    tokenizer. *)
Definition token_ids : list Z := [100; 49; 62; 48; 60; 115; 121; 115].
Definition mask : list Z := [0; 0; 0; 0; 1; 1; 1; 1].
Definition labels_ids : list Z := [60; 60; 60; 60; 115; 121; 115; 3].

(** A question of three tokens and an answer of four. *)
Definition q_toked : list pystr := [U_TKN; [104]%N; SENT].
Definition a_toked : list pystr := [S_TKN; [111]%N; [107]%N; EOS].

End Sample.
(** * Properties *)

(** ** Lengths of slices and repetitions *)

Lemma len_nonneg {T} (l : list T) : 0 <= Py.len l.
Proof. unfold Py.len. lia. Qed.

Lemma len_app {T} (l1 l2 : list T) :
  Py.len (l1 ++ l2) = Py.len l1 + Py.len l2.
Proof. unfold Py.len. rewrite length_app. lia. Qed.

Lemma len_rep {T} (x : T) (n : Z) : Py.len (Py.rep x n) = Z.max 0 n.
Proof. unfold Py.len, Py.rep. rewrite repeat_length. lia. Qed.

Lemma len_map {T U} (f : T -> U) (l : list T) : Py.len (map f l) = Py.len l.
Proof. unfold Py.len. now rewrite length_map. Qed.

Lemma clamp_range (n i : Z) : 0 <= n -> 0 <= Py.clamp n i <= n.
Proof. unfold Py.clamp. destruct (Z.ltb_spec i 0); lia. Qed.

Lemma len_slice_from {T} (l : list T) (start : Z) :
  Py.len (Py.slice_from l start) = Py.len l - Py.clamp (Py.len l) start.
Proof.
  unfold Py.slice_from.
  pose proof (clamp_range (Py.len l) start (len_nonneg l)).
  unfold Py.len in *. rewrite length_skipn. lia.
Qed.

Lemma len_slice_to {T} (l : list T) (stop : Z) :
  Py.len (Py.slice_to l stop) = Py.clamp (Py.len l) stop.
Proof.
  unfold Py.slice_to.
  pose proof (clamp_range (Py.len l) stop (len_nonneg l)).
  unfold Py.len in *. rewrite length_firstn. lia.
Qed.

Lemma slice_from_1_tl {T} (l : list T) : Py.slice_from l 1 = tl l.
Proof.
  unfold Py.slice_from, Py.clamp, Py.len. destruct l as [|x l]; [reflexivity|].
  change (1 <? 0) with false. cbv iota.
  replace (Z.to_nat (Z.min 1 (Z.of_nat (length (x :: l))))) with 1%nat
    by (simpl length; lia).
  reflexivity.
Qed.

Lemma slice_from_split {T} (l : list T) (start : Z) :
  exists dropped, l = dropped ++ Py.slice_from l start.
Proof.
  exists (firstn (Z.to_nat (Py.clamp (Py.len l) start)) l).
  unfold Py.slice_from. now rewrite firstn_skipn.
Qed.

Lemma slice_to_split {T} (l : list T) (stop : Z) :
  exists cut, l = Py.slice_to l stop ++ cut.
Proof.
  exists (skipn (Z.to_nat (Py.clamp (Py.len l) stop)) l).
  unfold Py.slice_to. now rewrite firstn_skipn.
Qed.

(** A question that fills [max_len] is cut to exactly [int(max_len/2)]
    tokens, as soon as that number is not zero. *)
Lemma slice_from_neg_half {T} (max_len : Z) (l : list T) :
  2 <= max_len -> max_len <= Py.len l ->
  Py.slice_from l (- Py.int_half max_len)
  = last_tokens (Z.to_nat (Py.int_half max_len)) l.
Proof.
  intros Hm Hl. unfold Py.slice_from, last_tokens, Py.clamp, Py.int_half.
  assert (Hq : 1 <= Z.quot max_len 2 <= max_len).
  { rewrite Z.quot_div_nonneg by lia. split.
    - apply Z.div_le_lower_bound; lia.
    - apply Z.div_le_upper_bound; lia. }
  destruct (Z.ltb_spec (- (max_len ÷ 2)) 0); [|lia].
  f_equal. unfold Py.len in *. lia.
Qed.

(** ** The padding loop *)

Lemma pad_loop_spec (pad max_len : Z) (ids : list Z) :
  pad_loop pad max_len ids
  = ids ++ repeat pad (Z.to_nat (max_len - Py.len ids)).
Proof.
  funelim (pad_loop pad max_len ids).
  - match goal with IH : pad_loop _ _ _ = _ ++ _ |- _ => rewrite IH end.
    rewrite len_app, <- app_assoc. f_equal.
    change (Py.len [pad]) with 1.
    replace (Z.to_nat (max_len - Py.len ids))
      with (S (Z.to_nat (max_len - (Py.len ids + 1)))) by lia.
    reflexivity.
  - replace (Z.to_nat (max_len - Py.len ids)) with 0%nat by lia.
    now rewrite app_nil_r.
Qed.

Lemma len_pad_loop (pad max_len : Z) (ids : list Z) :
  Py.len (pad_loop pad max_len ids) = Z.max max_len (Py.len ids).
Proof.
  rewrite pad_loop_spec, len_app. pose proof (len_nonneg ids).
  unfold Py.len at 2. rewrite repeat_length. lia.
Qed.

(** ** The truncation block *)

Lemma half_bounds (max_len : Z) :
  2 <= max_len -> 1 <= Py.int_half max_len < max_len.
Proof.
  intros H. unfold Py.int_half. rewrite Z.quot_div_nonneg by lia.
  split.
  - apply Z.div_le_lower_bound; lia.
  - apply Z.div_lt_upper_bound; lia.
Qed.

Lemma len_cut_question {T} (max_len : Z) (q : list T) :
  2 <= max_len ->
  Py.len (Py.slice_from q (- Py.int_half max_len)) <= Py.int_half max_len.
Proof.
  intros H. pose proof (half_bounds max_len H). pose proof (len_nonneg q).
  rewrite len_slice_from. unfold Py.clamp.
  destruct (Z.ltb_spec (- Py.int_half max_len) 0); lia.
Qed.

Lemma fit_ok (max_len : Z) (q0 a0 : list pystr) (f : fitted) :
  fit max_len q0 a0 = Ok f -> fit_post max_len q0 a0 f.
Proof.
  unfold fit. pose proof (len_nonneg q0). pose proof (len_nonneg a0).
  destruct (Z.gtb_spec (Py.len q0 + Py.len a0) max_len) as [Hover|Hfits].
  - destruct (Z.leb_spec (max_len - Py.len q0) 0) as [Hfull|Hroom]; cbn.
    + destruct (Z.gtb_spec
                  (max_len - Py.len (Py.slice_from q0 (- Py.int_half max_len)))
                  0) as [Hpos|Hneg]; cbn; [|discriminate].
      rewrite Z.eqb_refl. intros [= <-]. cbn.
      constructor; cbn; try reflexivity.
      * rewrite len_slice_to. unfold Py.clamp.
        destruct (Z.ltb_spec
          (max_len - Py.len (Py.slice_from q0 (- Py.int_half max_len))) 0);
          lia.
      * apply slice_from_split.
      * apply slice_to_split.
      * lia.
    + rewrite Z.eqb_refl. intros [= <-]. cbn.
      constructor; cbn; try reflexivity.
      * rewrite len_slice_to. unfold Py.clamp.
        destruct (Z.ltb_spec (max_len - Py.len q0) 0); lia.
      * now exists [].
      * apply slice_to_split.
      * lia.
  - intros [= <-]. constructor; cbn; try reflexivity.
    + lia.
    + now exists [].
    + exists []. now rewrite app_nil_r.
    + auto.
Qed.

Lemma fit_raise (max_len : Z) (q0 a0 : list pystr) (e : exn) :
  fit max_len q0 a0 = Raise e -> e = AssertionError /\ max_len < 2.
Proof.
  unfold fit.
  destruct (Z.gtb_spec (Py.len q0 + Py.len a0) max_len) as [Hover|Hfits];
    [|discriminate].
  destruct (Z.leb_spec (max_len - Py.len q0) 0) as [Hfull|Hroom]; cbn.
  - destruct (Z.gtb_spec
                (max_len - Py.len (Py.slice_from q0 (- Py.int_half max_len)))
                0) as [Hpos|Hneg]; cbn.
    + rewrite Z.eqb_refl. discriminate.
    + intros [= <-]. split; [reflexivity|].
      destruct (Z_lt_ge_dec max_len 2) as [|Hge]; [assumption|exfalso].
      assert (Hm : 2 <= max_len) by lia.
      pose proof (len_cut_question max_len q0 Hm).
      pose proof (half_bounds max_len Hm). lia.
  - rewrite Z.eqb_refl. discriminate.
Qed.

Lemma fit_total (max_len : Z) (q0 a0 : list pystr) :
  2 <= max_len -> exists f, fit max_len q0 a0 = Ok f.
Proof.
  intros Hm. destruct (fit max_len q0 a0) as [f|e] eqn:E.
  - now exists f.
  - apply fit_raise in E. lia.
Qed.

(** [l[:n]] for [n >= 0] is the first [n] items. *)
Lemma slice_to_firstn {T} (l : list T) (n : Z) :
  0 <= n -> Py.slice_to l n = firstn (Z.to_nat n) l.
Proof.
  intros Hn. unfold Py.slice_to, Py.clamp.
  destruct (Z.ltb_spec n 0); [lia|].
  destruct (Z.min_spec n (Py.len l)) as [[_ ->]|[Hle ->]]; [reflexivity|].
  unfold Py.len in *. rewrite !firstn_all2 by lia. reflexivity.
Qed.

(** What the block keeps, whenever it completes: the tokens that
    [kept_question] and [kept_answer] name. *)
Lemma fit_kept (max_len : Z) (q0 a0 : list pystr) (f : fitted) :
  fit max_len q0 a0 = Ok f ->
  q_toked f = kept_question max_len q0 a0 /\
  a_toked f = kept_answer max_len q0 a0.
Proof.
  unfold fit, kept_answer, kept_question.
  pose proof (len_nonneg q0). pose proof (len_nonneg a0).
  destruct (Z.gtb_spec (Py.len q0 + Py.len a0) max_len) as [Hover|Hfits].
  - destruct (Z.leb_spec (Py.len q0 + Py.len a0) max_len); [lia|].
    destruct (Z.leb_spec (max_len - Py.len q0) 0) as [Hfull|Hroom]; cbn.
    + destruct (Z.ltb_spec 0 (max_len - Py.len q0)); [lia|].
      destruct (Z.gtb_spec
                  (max_len - Py.len (Py.slice_from q0 (- Py.int_half max_len)))
                  0) as [Hpos|Hneg]; cbn; [|discriminate].
      rewrite Z.eqb_refl. intros [= <-]. cbn.
      assert (Hm : 2 <= max_len).
      { destruct (Z_lt_ge_dec max_len 2) as [Hlt|]; [exfalso|lia].
        rewrite len_slice_from in Hpos. unfold Py.clamp, Py.int_half in Hpos.
        destruct (Z_lt_ge_dec max_len 0) as [Hn|Hn].
        - destruct (Z.ltb_spec (- (max_len ÷ 2)) 0); lia.
        - rewrite Z.quot_small in Hpos by lia. simpl in Hpos. lia. }
      rewrite slice_from_neg_half by lia.
      split; [reflexivity|]. apply slice_to_firstn.
      rewrite slice_from_neg_half in Hpos by lia. lia.
    + destruct (Z.ltb_spec 0 (max_len - Py.len q0)); [|lia].
      rewrite Z.eqb_refl. intros [= <-]. cbn.
      split; [reflexivity|]. apply slice_to_firstn. lia.
  - destruct (Z.leb_spec (Py.len q0 + Py.len a0) max_len); [|lia].
    intros [= <-]. now split.
Qed.

(** ** Training examples *)

Section CharDatasetFacts.

Variable tokenize : pystr -> list pystr.
Variable convert_token_to_id : pystr -> Z.
Variable pad_token_id : Z.

Local Abbreviation getitem :=
  (getitem tokenize convert_token_to_id pad_token_id).
Local Abbreviation assemble := (assemble convert_token_to_id pad_token_id).
Local Abbreviation labels_spec :=
  (labels_spec convert_token_to_id pad_token_id).

Lemma rep_len {T} (x : T) (l : list pystr) :
  Py.rep x (Py.len l) = repeat x (length l).
Proof. unfold Py.rep, Py.len. now rewrite Nat2Z.id. Qed.

Lemma assemble_spec (max_len : Z) (q0 a0 : list pystr) (f : fitted) :
  fit_post max_len q0 a0 f ->
  assemble max_len f
  = (map convert_token_to_id (q_toked f ++ a_toked f)
       ++ repeat pad_token_id
            (Z.to_nat max_len - length (q_toked f) - length (a_toked f)),
     mask_spec max_len (q_toked f) (a_toked f),
     labels_spec max_len (q_toked f) (a_toked f)).
Proof.
  intros [Hq Ha Hroom _ _ _]. unfold assemble.
  rewrite Hq, Ha, !rep_len, slice_from_1_tl, !pad_loop_spec.
  unfold convert_tokens_to_ids, labels_spec, mask_spec.
  rewrite !len_map, !len_app, !map_app, map_repeat.
  repeat rewrite <- app_assoc.
  assert (Htl : (length (tl (a_toked f)) <= length (a_toked f))%nat)
    by (destruct (a_toked f); simpl; lia).
  unfold Py.rep. unfold Py.len in *. rewrite repeat_length.
  repeat f_equal; lia.
Qed.

Lemma length_labels_spec (max_len : Z) (q a : list pystr) :
  Py.len q + Py.len a <= max_len ->
  length (labels_spec max_len q a) = Z.to_nat max_len.
Proof.
  intros H. unfold labels_spec.
  assert (Htl : (length (tl a) <= length a)%nat) by (destruct a; simpl; lia).
  rewrite !length_app, !repeat_length, length_map.
  unfold Py.len in H. lia.
Qed.

Lemma length_mask_spec (max_len : Z) (q a : list pystr) :
  Py.len q + Py.len a <= max_len ->
  length (mask_spec max_len q a) = Z.to_nat max_len.
Proof.
  intros H. unfold mask_spec. rewrite !length_app, !repeat_length.
  unfold Py.len in H. lia.
Qed.

(** C2. Whenever [__getitem__] returns, the labels are one mask id per
    token of the question, then the ids of the answer without its first
    token, then pad ids up to [max_len]; the mask is [q_len] zeros, [a_len]
    ones, then zeros up to [max_len].  Question and answer are the tokens
    kept of the tokenized ones: all of them when they fit [max_len]; else
    the whole question, or its last [int(max_len/2)] tokens when it leaves
    no room, and the first [max_len - q_len] tokens of the answer.  The
    only way not to return is the failed assertion, which needs
    [max_len < 2]. *)
Theorem getitem_labels_and_mask (max_len : Z) (t : turn) :
  let q0 := tokenize (U_TKN ++ Q t ++ SENT ++ label t) in
  let a0 := tokenize (S_TKN ++ A t ++ EOS) in
  let q :=
    if Py.len q0 + Py.len a0 <=? max_len then q0
    else if 0 <? max_len - Py.len q0 then q0
    else last_tokens (Z.to_nat (Py.int_half max_len)) q0 in
  let a :=
    if Py.len q0 + Py.len a0 <=? max_len then a0
    else firstn (Z.to_nat (max_len - Py.len q)) a0 in
  match getitem max_len t with
  | Ok (_, mask, labels_ids) =>
      (exists dropped cut,
         q0 = dropped ++ q /\ a0 = a ++ cut /\
         (Py.len q0 + Py.len a0 <= max_len ->
          dropped = [] /\ cut = [])) /\
      labels_ids = labels_spec max_len q a /\
      mask = mask_spec max_len q a /\
      length labels_ids = Z.to_nat max_len /\
      length mask = Z.to_nat max_len
  | Raise e => e = AssertionError /\ max_len < 2
  end.
Proof.
  intros q0 a0. cbv zeta.
  fold (kept_question max_len q0 a0). fold (kept_answer max_len q0 a0).
  unfold getitem, getitem_toked.
  fold q0 a0. destruct (fit max_len q0 a0) as [f|e] eqn:E; unfold bind.
  - pose proof (fit_ok _ _ _ _ E) as P.
    rewrite (assemble_spec _ _ _ _ P).
    destruct (fit_kept _ _ _ _ E) as [Kq Ka]. rewrite <- Kq, <- Ka.
    destruct P as [_ _ Hroom [dropped Hd] [cut Hc] Hsame].
    split; [|repeat split].
    + exists dropped, cut.
      split; [assumption|]. split; [assumption|].
      intros Hfit. destruct (Hsame Hfit) as [Eq Ea].
      rewrite Eq in Hd. rewrite Ea in Hc.
      apply (f_equal (@length _)) in Hd, Hc. rewrite length_app in Hd, Hc.
      destruct dropped, cut; simpl in Hd, Hc; try lia. now split.
    + now apply length_labels_spec.
    + now apply length_mask_spec.
  - now apply fit_raise in E.
Qed.

(** C8. For [max_len >= 2], [__getitem__] returns, and each of
    [token_ids], [mask] and [labels_ids] has exactly [max_len] entries. *)
Theorem getitem_lengths (max_len : Z) (t : turn) :
  2 <= max_len ->
  exists token_ids mask labels_ids,
    getitem max_len t = Ok (token_ids, mask, labels_ids) /\
    Py.len token_ids = max_len /\
    Py.len mask = max_len /\
    Py.len labels_ids = max_len.
Proof.
  intros Hm. unfold getitem, getitem_toked.
  set (q0 := tokenize _). set (a0 := tokenize _).
  destruct (fit_total max_len q0 a0 Hm) as [f E]. rewrite E. unfold bind.
  pose proof (fit_ok _ _ _ _ E) as P.
  rewrite (assemble_spec _ _ _ _ P).
  destruct P as [_ _ Hroom _ _ _].
  do 3 eexists. split; [reflexivity|].
  unfold Py.len at 1 2 3.
  rewrite length_labels_spec, length_mask_spec by assumption.
  rewrite !length_app, length_map, length_app, repeat_length.
  unfold Py.len in Hroom. lia.
Qed.

(** C9. For [max_len >= 2] the assertion [a_len > 0] holds whenever it is
    reached: the question cut to its last [int(max_len/2)] tokens leaves
    [max_len - q_len > 0], and [__getitem__] raises nothing. *)
Theorem getitem_assertion_holds (max_len : Z) (t : turn) :
  2 <= max_len ->
  let q0 := tokenize (U_TKN ++ Q t ++ SENT ++ label t) in
  let q1 := Py.slice_from q0 (- Py.int_half max_len) in
  (max_len - Py.len q0 <= 0 ->
   q1 = last_tokens (Z.to_nat (Py.int_half max_len)) q0) /\
  max_len - Py.len q1 > 0 /\
  forall e, getitem max_len t <> Raise e.
Proof.
  intros Hm q0 q1. split; [|split].
  - intros Hfull. apply slice_from_neg_half; lia.
  - pose proof (len_cut_question max_len q0 Hm).
    pose proof (half_bounds max_len Hm). fold q1 in H. lia.
  - intros e. unfold getitem, getitem_toked.
    set (a0 := tokenize (S_TKN ++ _)). fold q0.
    destruct (fit_total max_len q0 a0 Hm) as [f E]. rewrite E. discriminate.
Qed.

(** C3, as amended.  A turn with [q_len + a_len > max_len] keeps the
    question and the first [max_len - q_len] tokens of the answer when
    [max_len - q_len > 0]; otherwise, for [max_len >= 2], it keeps the last
    [int(max_len/2)] tokens of the question and the first
    [max_len - q_len] tokens of the answer, [q_len] being the new length.
    In both cases the lengths kept add up to at most [max_len]. *)
Theorem fit_truncates (max_len : Z) (q0 a0 : list pystr) :
  Py.len q0 + Py.len a0 > max_len ->
  max_len - Py.len q0 > 0 \/ 2 <= max_len ->
  exists q a,
    fit max_len q0 a0
    = Ok {| q_toked := q; q_len := Py.len q;
            a_toked := a; a_len := Py.len a |} /\
    q = (if max_len - Py.len q0 >? 0 then q0
         else last_tokens (Z.to_nat (Py.int_half max_len)) q0) /\
    a = firstn (Z.to_nat (max_len - Py.len q)) a0 /\
    Py.len q + Py.len a <= max_len.
Proof.
  intros Hover Hdom. pose proof (len_nonneg q0). pose proof (len_nonneg a0).
  assert (Hcut : forall n, 0 <= n ->
            Py.slice_to a0 n = firstn (Z.to_nat n) a0).
  { intros n Hn. unfold Py.slice_to, Py.clamp.
    destruct (Z.ltb_spec n 0); [lia|].
    destruct (Z.min_spec n (Py.len a0)) as [[_ ->]|[Hle ->]];
      [reflexivity|].
    unfold Py.len in *. rewrite !firstn_all2 by lia. reflexivity. }
  unfold fit.
  destruct (Z.gtb_spec (Py.len q0 + Py.len a0) max_len); [|lia].
  destruct (Z.leb_spec (max_len - Py.len q0) 0) as [Hfull|Hroom]; cbn.
  - assert (Hm : 2 <= max_len) by lia.
    pose proof (len_cut_question max_len q0 Hm) as Hq.
    pose proof (half_bounds max_len Hm) as Hh.
    rewrite slice_from_neg_half in * by lia.
    set (q := last_tokens _ q0) in *.
    destruct (Z.gtb_spec (max_len - Py.len q) 0); [|lia]. cbn.
    rewrite Z.eqb_refl, Hcut by lia.
    exists q, (firstn (Z.to_nat (max_len - Py.len q)) a0).
    repeat split.
    + destruct (Z.gtb_spec (max_len - Py.len q0) 0); [lia|reflexivity].
    + unfold Py.len at 2. rewrite length_firstn. lia.
  - rewrite Z.eqb_refl, Hcut by lia.
    exists q0, (firstn (Z.to_nat (max_len - Py.len q0)) a0).
    repeat split.
    + destruct (Z.gtb_spec (max_len - Py.len q0) 0); [reflexivity|lia].
    + unfold Py.len at 2. rewrite length_firstn. lia.
Qed.

End CharDatasetFacts.

(** *** The dataset on a toy tokenizer *)

Lemma getitem_labels_and_mask_witness :
  let q0 :=
    char_tokenize (U_TKN ++ Q sample_turn ++ SENT ++ label sample_turn) in
  let a0 := char_tokenize (S_TKN ++ A sample_turn ++ EOS) in
  Py.len q0 = 17 /\ Py.len a0 = 11 /\
  last_tokens (Z.to_nat (Py.int_half 8)) q0
  = [[100]; [49]; [62]; [48]]%N /\
  firstn 4 a0 = [[60]; [115]; [121]; [115]]%N /\
  exists token_ids,
    getitem char_tokenize first_code_point 3 8 sample_turn
    = Ok (token_ids,
          [0; 0; 0; 0; 1; 1; 1; 1],
          [60; 60; 60; 60; 115; 121; 115; 3]).
Proof.
  cbv zeta. do 4 (split; [reflexivity|]).
  pose proof (getitem_labels_and_mask
                char_tokenize first_code_point 3 8 sample_turn) as H.
  cbv zeta in H.
  destruct (getitem char_tokenize first_code_point 3 8 sample_turn)
    as [[[token_ids mask] labels_ids]|e].
  - destruct H as (_ & -> & -> & _). exists token_ids. reflexivity.
  - destruct H as [_ H]. lia.
Defined.

Lemma getitem_lengths_witness :
  2 <= 8 /\
  exists token_ids mask labels_ids,
    getitem char_tokenize first_code_point 3 8 sample_turn
    = Ok (token_ids, mask, labels_ids) /\
    Py.len token_ids = 8 /\ Py.len mask = 8 /\ Py.len labels_ids = 8.
Proof.
  split; [lia|].
  apply (getitem_lengths char_tokenize first_code_point 3 8 sample_turn).
  lia.
Defined.

Lemma getitem_assertion_holds_witness :
  2 <= 8 /\
  forall e, getitem char_tokenize first_code_point 3 8 sample_turn <> Raise e.
Proof.
  split; [lia|].
  apply (getitem_assertion_holds
           char_tokenize first_code_point 3 8 sample_turn).
  lia.
Defined.

Lemma fit_truncates_witness :
  let q0 := [U_TKN; [104]%N; [105]%N; SENT; [48]%N] in
  let a0 := [S_TKN; [111]%N; [107]%N; EOS] in
  Py.len q0 + Py.len a0 > 4 /\
  (4 - Py.len q0 > 0 \/ 2 <= 4) /\
  exists q a,
    fit 4 q0 a0
    = Ok {| q_toked := q; q_len := Py.len q;
            a_toked := a; a_len := Py.len a |} /\
    q = [SENT; [48]%N] /\ a = [S_TKN; [111]%N] /\
    Py.len q + Py.len a <= 4.
Proof.
  intros q0 a0. split; [reflexivity|]. split; [right; lia|].
  destruct (fit_truncates 4 q0 a0) as (q & a & E & Eq & Ea & Hlen).
  - reflexivity.
  - right. lia.
  - exists q, a. subst q. subst a. repeat split; assumption.
Defined.

(** C3, as stated, at [max_len = 1]: the turn does not fit and
    [max_len - q_len] is not positive, but [q_toked[-0:]] is the whole
    question, not its last [int(1/2) = 0] tokens, and the assertion
    [a_len > 0] stops [__getitem__]: there is no truncated turn at all. *)
Lemma fit_truncates_counterexample :
  let q0 := [U_TKN; SENT] in
  let a0 := [S_TKN; EOS] in
  Py.len q0 + Py.len a0 > 1 /\
  1 - Py.len q0 <= 0 /\
  Py.slice_from q0 (- Py.int_half 1) = q0 /\
  last_tokens (Z.to_nat (Py.int_half 1)) q0 = [] /\
  fit 1 q0 a0 = Raise AssertionError /\
  ~ (exists q a,
       fit 1 q0 a0
       = Ok {| q_toked := q; q_len := Py.len q;
               a_toked := a; a_len := Py.len a |} /\
       q = last_tokens (Z.to_nat (Py.int_half 1)) q0 /\
       Py.len q + Py.len a <= 1).
Proof.
  cbv zeta. repeat split; try reflexivity; try (cbv; discriminate).
  intros (q & a & E & _). cbv in E. discriminate.
Qed.

(** Slices as Python takes them. *)
Example slice_examples :
  Py.slice_from [1; 2; 3] (- 0) = [1; 2; 3] /\
  Py.slice_from [1; 2; 3] (- 1) = [3] /\
  Py.slice_to [1; 2; 3] 5 = [1; 2; 3] /\
  Py.slice_to [1; 2; 3] (- 1) = [1; 2] /\
  Py.rep 0 (- 2) = [].
Proof. repeat split. Qed.

(** A turn of 17 + 11 tokens at [max_len = 8]: the last four of the
    question and the first four of the answer are kept. *)
Example getitem_sample :
  getitem char_tokenize first_code_point 3 8 sample_turn
  = Ok ([100; 49; 62; 48; 60; 115; 121; 115],
        [0; 0; 0; 0; 1; 1; 1; 1],
        [60; 60; 60; 60; 115; 121; 115; 3]).
Proof. reflexivity. Qed.

(** ** Strings, indexing and loops *)

Lemma eqb_eq (s t : pystr) : PyStr.eqb s t = true <-> s = t.
Proof.
  revert t. induction s as [|c s IH]; intros [|d t]; simpl;
    try (split; [discriminate|discriminate]); [tauto|].
  rewrite andb_true_iff, N.eqb_eq, IH. split.
  - now intros [-> ->].
  - now intros [= -> ->].
Qed.

Lemma eqb_neq (s t : pystr) : PyStr.eqb s t = false <-> s <> t.
Proof.
  rewrite <- eqb_eq. destruct (PyStr.eqb s t); split; congruence.
Qed.

Lemma py_getitem_last {T} (l : list T) (x : T) :
  py_getitem (l ++ [x]) (-1) = Ok x.
Proof.
  unfold py_getitem. change (-1 <? 0) with true. cbv iota.
  rewrite len_app. change (Py.len [x]) with 1.
  pose proof (len_nonneg l).
  destruct (Z.ltb_spec (-1 + (Py.len l + 1)) 0); [lia|].
  replace (Z.to_nat (-1 + (Py.len l + 1))) with (length l)
    by (unfold Py.len; lia).
  now rewrite nth_error_app2, Nat.sub_diag by lia.
Qed.

Lemma py_getitem_in_range {T} (l : list T) (i : Z) :
  0 <= i < Py.len l -> exists x, py_getitem l i = Ok x.
Proof.
  intros Hi. unfold py_getitem.
  destruct (Z.ltb_spec i 0); [lia|].
  destruct (Z.ltb_spec i 0); [lia|].
  destruct (nth_error l (Z.to_nat i)) as [x|] eqn:E; [now exists x|].
  apply nth_error_None in E. unfold Py.len in Hi. lia.
Qed.

Lemma for_each_ok {T U} (body : T -> result U) (l : list T) :
  Forall (fun x => exists y, body x = Ok y) l ->
  exists ys, for_each body l = Ok ys /\
             Forall2 (fun x y => body x = Ok y) l ys.
Proof.
  induction 1 as [|x l [y Hy] _ [ys [E F]]]; simpl.
  - exists []. split; [reflexivity|constructor].
  - rewrite Hy, E. exists (y :: ys). split; [reflexivity|].
    now constructor.
Qed.

Lemma for_each_inv {T U} (body : T -> result U) (l : list T) (ys : list U) :
  for_each body l = Ok ys -> Forall2 (fun x y => body x = Ok y) l ys.
Proof.
  revert ys. induction l as [|x l IH]; simpl; intros ys.
  - intros [= <-]. constructor.
  - destruct (body x) as [y|] eqn:Hy; [|discriminate]. simpl.
    destruct (for_each body l) as [ys'|]; [|discriminate]. simpl.
    intros [= <-]. constructor; auto.
Qed.

(** ** torch.argmax *)

Section ArgmaxFacts.

Variable logit : Type.
Variable logit_ltb : logit -> logit -> bool.

Lemma argmax_from_bound (l : list logit) :
  forall best_i best i,
    (best_i < i)%nat ->
    (argmax_from logit_ltb best_i best i l < i + length l)%nat.
Proof.
  induction l as [|x l IH]; intros best_i best i Hlt; simpl.
  - lia.
  - destruct (logit_ltb best x).
    + specialize (IH i x (S i)). lia.
    + specialize (IH best_i best (S i)). lia.
Qed.

Lemma argmax_range (l : list logit) :
  l <> [] -> exists k, argmax logit_ltb l = Ok k /\ 0 <= k < Py.len l.
Proof.
  destruct l as [|x l]; [congruence|]. intros _. simpl.
  eexists. split; [reflexivity|].
  pose proof (argmax_from_bound l 0 x 1). unfold Py.len. simpl length. lia.
Qed.

End ArgmaxFacts.

(** ** The sentiment classifier *)

Section ShowEmotionGraphFacts.

Variable logit : Type.
Variable logit_ltb : logit -> logit -> bool.
Variable classify : pystr -> list logit.

Local Abbreviation sentence_predict :=
  (sentence_predict logit logit_ltb classify).

Lemma bars_ok (logits : list logit) :
  (7 <= length logits)%nat ->
  exists y, for_each (py_getitem logits) [0; 1; 2; 3; 4; 5; 6] = Ok y.
Proof.
  intros H.
  destruct (for_each_ok (py_getitem logits) [0; 1; 2; 3; 4; 5; 6])
    as [y [E _]]; [|now exists y].
  repeat constructor; apply py_getitem_in_range; unfold Py.len; lia.
Qed.

(** With seven logits or more the classifier call returns, with the index
    of one of them. *)
Lemma sentence_predict_returns (s : pystr) (n : Z) :
  (7 <= length (classify s))%nat ->
  exists e k, sentence_predict s n = Ok (e, k) /\
              0 <= k < Py.len (classify s).
Proof.
  intros H. unfold sentence_predict.
  destruct (bars_ok _ H) as [y ->]. unfold bind at 1.
  destruct (argmax_range logit logit_ltb (classify s)) as [k [-> Hk]].
  { destruct (classify s); simpl in H; [lia|congruence]. }
  unfold bind. eexists _, k. split; [reflexivity|assumption].
Qed.

Lemma emo_label_in_range (k : Z) :
  0 <= k <= 6 -> exists s, py_getitem emo_label k = Ok s.
Proof. intros H. apply py_getitem_in_range. unfold Py.len. simpl. lia. Qed.

Lemma annotate_ok (y : list Z) :
  Forall (fun k => 0 <= k <= 6) y ->
  forall i, exists ts,
    for_each (fun '(i, e) => s <- py_getitem emo_label e ;; Ok (i, e, s))
             (enumerate_from i y) = Ok ts /\
    length ts = length y.
Proof.
  induction 1 as [|k y Hk _ IH]; intros i; simpl.
  - now exists [].
  - destruct (emo_label_in_range k Hk) as [s ->].
    destruct (IH (i + 1)) as [ts [-> Hlen]]. simpl.
    eexists. split; [reflexivity|]. simpl. now rewrite Hlen.
Qed.

(** Seven logits: the index is one of 0 .. 6 and comes with its label. *)
Lemma sentence_predict_seven (s : pystr) (n : Z) :
  length (classify s) = 7%nat ->
  exists k name,
    sentence_predict s n = Ok (EmoStr name, k) /\
    0 <= k <= 6 /\
    py_getitem emo_label k = Ok name.
Proof.
  intros H7. unfold sentence_predict.
  destruct (bars_ok (classify s)) as [y ->]; [rewrite H7; lia|].
  unfold bind at 1.
  destruct (argmax_range logit logit_ltb (classify s)) as [k [-> Hk]].
  { intros E. rewrite E in H7. discriminate. }
  unfold bind, Py.len in *. rewrite H7 in Hk.
  assert (Hcases : k = 0 \/ k = 1 \/ k = 2 \/ k = 3 \/ k = 4 \/ k = 5
                   \/ k = 6) by lia.
  exists k.
  repeat (destruct Hcases as [->|Hcases]; [eexists; repeat split; lia|]).
  subst k. eexists. repeat split; lia.
Qed.

(** C10. When the classifier gives seven logits, [sentence_predict] returns
    an index in 0 .. 6 with the label at that index of the seven; and
    [emotion_predict_result], given as many times as such indices, finds
    every [emo_label[emo_list[i]]] and raises nothing. *)
Theorem sentence_predict_in_range :
  (forall s, length (classify s) = 7%nat) ->
  (forall s n, exists k name,
      sentence_predict s n = Ok (EmoStr name, k) /\
      0 <= k <= 6 /\
      py_getitem emo_label k = Ok name) /\
  (forall x y n,
      length x = length y ->
      Forall (fun k => exists s m e, sentence_predict s m = Ok (e, k)) y ->
      Forall (fun k => 0 <= k < Py.len emo_label) y /\
      exists t, emotion_predict_result x y n = Ok t /\
                line_x t = x /\ line_y t = y /\
                length (texts t) = length y /\ fig_num t = n).
Proof.
  intros H7. split; [intros s n; apply sentence_predict_seven, H7|].
  intros x y n Hlen Hy.
  assert (Hrange : Forall (fun k => 0 <= k <= 6) y).
  { eapply Forall_impl; [|exact Hy]. cbn. intros k (s & m & e & E).
    destruct (sentence_predict_seven s m (H7 s)) as (k' & name & E' & Hk & _).
    rewrite E in E'. injection E' as _ ->. assumption. }
  split.
  - eapply Forall_impl; [|exact Hrange]. cbn. unfold Py.len. simpl. lia.
  - unfold emotion_predict_result, Py.len. rewrite Hlen, Z.eqb_refl.
    destruct (annotate_ok y Hrange 0) as [ts [-> Hts]]. unfold bind.
    eexists. repeat split. assumption.
Qed.

End ShowEmotionGraphFacts.

(** ** The generation loop *)

Section ChatFacts.

Variable logit : Type.
Variable logit_ltb : logit -> logit -> bool.
Variable encode : pystr -> list Z.
Variable id_to_token : Z -> pystr.
Variable kogpt2 : list Z -> list (list logit).

Local Abbreviation gen_token :=
  (gen_token logit logit_ltb encode id_to_token kogpt2).
Local Abbreviation gen_step :=
  (gen_step logit logit_ltb encode id_to_token kogpt2).
Local Abbreviation generate :=
  (generate logit logit_ltb encode id_to_token kogpt2).
Local Abbreviation greedy_token :=
  (greedy_token logit logit_ltb encode id_to_token kogpt2).
Local Abbreviation greedy_run :=
  (greedy_run logit logit_ltb encode id_to_token kogpt2).

(** The argmax of every row, then the last token: the token of the argmax
    of the last row. *)
Lemma last_of_argmax_rows (pred : list (list logit)) :
  well_shaped logit pred ->
  exists rows row k,
    pred = rows ++ [row] /\
    argmax logit_ltb row = Ok k /\
    (ids <- for_each (argmax logit_ltb) pred ;;
     last_item (convert_ids_to_tokens id_to_token (squeeze_tolist ids)))
    = Ok (id_to_token k).
Proof.
  intros [Hlen Hrows].
  destruct (exists_last (l := pred)) as (rows & row & ->).
  { intros ->. simpl in Hlen. lia. }
  destruct (for_each_ok (argmax logit_ltb) (rows ++ [row])) as (ids & E & F).
  { eapply Forall_impl; [|exact Hrows]. cbn. intros r Hr.
    destruct (argmax_range logit logit_ltb r Hr) as (k & Ek & _). eauto. }
  apply Forall2_app_inv_l in F as (ids1 & ids2 & F1 & F2 & ->).
  inversion F2 as [|? k ? ? Ek F3]; subst. inversion F3; subst.
  exists rows, row, k. split; [reflexivity|]. split; [exact Ek|].
  rewrite E. unfold bind.
  assert (Hsq : squeeze_tolist (ids1 ++ [k]) = IdList (ids1 ++ [k])).
  { apply Forall2_length in F1. rewrite length_app in Hlen. simpl in Hlen.
    destruct ids1 as [|i [|j ids1]]; simpl in *; try reflexivity. lia. }
  rewrite Hsq. cbn [convert_ids_to_tokens last_item].
  rewrite map_app. change (map id_to_token [k]) with [id_to_token k].
  apply py_getitem_last.
Qed.

Lemma gen_token_greedy (q sent a : pystr) :
  well_shaped logit (kogpt2 (encode (context q sent a))) ->
  exists tok, greedy_token q sent a = Some tok /\ gen_token q sent a = Ok tok.
Proof.
  intros H. destruct (last_of_argmax_rows _ H) as (rows & row & k & E & Ek & G).
  exists (id_to_token k). unfold greedy_token.
  unfold gen_token.
  split; [|exact G]. rewrite E, rev_app_distr. cbn [rev app].
  now rewrite Ek.
Qed.

Lemma gen_step_greedy (q sent a : pystr) :
  well_shaped logit (kogpt2 (encode (context q sent a))) ->
  exists tok,
    greedy_token q sent a = Some tok /\
    gen_step q sent a
    = Ok (if PyStr.eqb tok EOS then Break
          else Continue (a ++ PyStr.replace 9601 32 tok)).
Proof.
  intros H. destruct (gen_token_greedy q sent a H) as (tok & G & E).
  exists tok. split; [exact G|].
  unfold gen_step. fold gen_token. rewrite E.
  unfold bind. now destruct (PyStr.eqb tok EOS).
Qed.

Lemma generate_sound (q sent : pystr) :
  (forall a, well_shaped logit (kogpt2 (encode (context q sent a)))) ->
  forall fuel a reply,
    generate fuel q sent a = Some (Ok reply) ->
    exists toks,
      (length toks < fuel)%nat /\
      greedy_run q sent a toks reply /\
      greedy_token q sent reply = Some EOS.
Proof.
  intros Hshape. induction fuel as [|fuel IH]; intros a reply; simpl.
  - discriminate.
  - destruct (gen_step_greedy q sent a (Hshape a)) as (tok & G & ->).
    destruct (PyStr.eqb tok EOS) eqn:E.
    + intros [= <-]. apply eqb_eq in E. subst tok.
      exists []. split; [simpl; lia|]. split; [constructor|exact G].
    + intros Hgen. apply eqb_neq in E.
      destruct (IH _ _ Hgen) as (toks & Hlen & Hrun & Hend).
      exists (tok :: toks). split; [simpl; lia|].
      split; [|exact Hend]. now constructor.
Qed.

Lemma generate_complete (q sent : pystr) :
  (forall a, well_shaped logit (kogpt2 (encode (context q sent a)))) ->
  forall a toks reply,
    greedy_run q sent a toks reply ->
    greedy_token q sent reply = Some EOS ->
    forall fuel, (length toks < fuel)%nat ->
    generate fuel q sent a = Some (Ok reply).
Proof.
  intros Hshape a toks reply Hrun Hend.
  induction Hrun as [a|a tok toks a' G Hneq Hrun IH];
    intros [|fuel] Hlen; simpl in *; try lia.
  - destruct (gen_step_greedy q sent a (Hshape a)) as (tok & G & ->).
    rewrite Hend in G. injection G as <-.
    now rewrite (proj2 (eqb_eq EOS EOS) eq_refl).
  - destruct (gen_step_greedy q sent a (Hshape a)) as (tok' & G' & ->).
    rewrite G in G'. injection G' as <-.
    apply eqb_neq in Hneq. rewrite Hneq. apply IH; [exact Hend|lia].
Qed.

(** C1. In the generation loop, when the logits of every context have two
    positions or more and no empty row, each pass takes the token whose id
    is the argmax of the logits at the last position of the context; the
    pass leaves the loop when that token is the end of sentence and appends
    it to the reply otherwise.  So the loop returns [reply] exactly when
    [reply] is made of the greedy tokens, none of them the end of sentence,
    and the greedy token after [reply] is the end of sentence. *)
Theorem chat_greedy_decoding (q sent : pystr) :
  (forall a, well_shaped logit (kogpt2 (encode (context q sent a)))) ->
  (forall a, exists tok,
      greedy_token q sent a = Some tok /\
      gen_step q sent a
      = Ok (if PyStr.eqb tok EOS then Break
            else Continue (a ++ PyStr.replace 9601 32 tok))) /\
  (forall fuel reply,
      generate fuel q sent [] = Some (Ok reply) <->
      exists toks,
        (length toks < fuel)%nat /\
        greedy_run q sent [] toks reply /\
        greedy_token q sent reply = Some EOS).
Proof.
  intros Hshape. split.
  - intros a. apply gen_step_greedy, Hshape.
  - intros fuel reply. split.
    + apply generate_sound, Hshape.
    + intros (toks & Hlen & Hrun & Hend).
      eapply generate_complete; eassumption.
Qed.

End ChatFacts.

(** ** The chat loop *)

Section ChatLoopFacts.

Variable logit : Type.
Variable logit_ltb : logit -> logit -> bool.
Variable encode : pystr -> list Z.
Variable id_to_token : Z -> pystr.
Variable kogpt2 : list Z -> list (list logit).

Local Abbreviation generate :=
  (generate logit logit_ltb encode id_to_token kogpt2).
Local Abbreviation chat_loop :=
  (chat_loop logit logit_ltb encode id_to_token kogpt2).
Local Abbreviation chat := (chat logit logit_ltb encode id_to_token kogpt2).
Local Abbreviation main_chat :=
  (main_chat logit logit_ltb encode id_to_token kogpt2).
Local Abbreviation sentence_predict := (sentence_predict logit logit_ltb).

Lemma trace_replies_app (t1 t2 : list event) :
  trace_replies (t1 ++ t2) = trace_replies t1 ++ trace_replies t2.
Proof. apply flat_map_app. Qed.

(** Two sessions on the same lines, whatever their classifiers, clocks,
    states and traces so far, show the same replies from here on. *)
Lemma chat_loop_replies (classify1 classify2 : pystr -> list logit)
  (fuel : nat) (sent : pystr) (inputs1 : list (pystr * pystr)) :
  forall inputs2 st1 st2 tr1 tr2,
    map fst inputs1 = map fst inputs2 ->
    (forall s, In s (map fst inputs1) -> (7 <= length (classify1 s))%nat) ->
    (forall s, In s (map fst inputs1) -> (7 <= length (classify2 s))%nat) ->
    trace_replies tr1 = trace_replies tr2 ->
    replies (chat_loop classify1 fuel sent inputs1 st1 tr1)
    = replies (chat_loop classify2 fuel sent inputs2 st2 tr2).
Proof.
  induction inputs1 as [|[q_temp now1] inputs1 IH];
    intros [|[q_temp2 now2] inputs2] st1 st2 tr1 tr2 Hin H1 H2 Htr;
    try discriminate; simpl.
  - exact Htr.
  - simpl in Hin. injection Hin as <- Hin.
    destruct (PyStr.eqb (PyStr.strip q_temp) quit).
    + destruct (emotion_predict_result _ _ _);
        destruct (emotion_predict_result _ _ _); unfold replies; simpl;
        rewrite ?trace_replies_app, Htr; simpl; rewrite ?app_nil_r;
        reflexivity.
    + destruct (sentence_predict_returns logit logit_ltb classify1
                  q_temp (num st1)) as (e1 & k1 & -> & _).
      { apply H1. now left. }
      destruct (sentence_predict_returns logit logit_ltb classify2
                  q_temp (num st2)) as (e2 & k2 & -> & _).
      { apply H2. now left. }
      destruct (generate fuel (PyStr.strip q_temp) sent [])
        as [[a|e]|].
      * apply IH; try assumption.
        -- intros s Hs. apply H1. now right.
        -- intros s Hs. apply H2. now right.
        -- rewrite !trace_replies_app, Htr. reflexivity.
      * unfold replies. simpl. rewrite !trace_replies_app, Htr. reflexivity.
      * unfold replies. simpl. rewrite !trace_replies_app, Htr. reflexivity.
Qed.

(** C4. Two chat sessions with the same lines typed, the same
    [--sentiment] and the same language model show the same replies,
    whatever the two sentiment classifiers return (as long as they give the
    seven logits that are plotted, so that the call returns) and whatever
    the clocks show. *)
Theorem replies_ignore_classifier
  (classify1 classify2 : pystr -> list logit)
  (fuel : nat) (args_sentiment : pystr)
  (inputs1 inputs2 : list (pystr * pystr)) :
  map fst inputs1 = map fst inputs2 ->
  (forall s, In s (map fst inputs1) -> (7 <= length (classify1 s))%nat) ->
  (forall s, In s (map fst inputs1) -> (7 <= length (classify2 s))%nat) ->
  replies (main_chat classify1 fuel args_sentiment inputs1)
  = replies (main_chat classify2 fuel args_sentiment inputs2).
Proof.
  intros Hin H1 H2. unfold main_chat.
  unfold chat. now apply chat_loop_replies.
Qed.

End ChatLoopFacts.

Section ChatSessionFacts.

Variable logit : Type.
Variable logit_ltb : logit -> logit -> bool.
Variable encode : pystr -> list Z.
Variable id_to_token : Z -> pystr.
Variable kogpt2 : list Z -> list (list logit).
Variable classify : pystr -> list logit.

Local Abbreviation generate :=
  (generate logit logit_ltb encode id_to_token kogpt2).
Local Abbreviation chat_loop :=
  (chat_loop logit logit_ltb encode id_to_token kogpt2 classify).
Local Abbreviation chat :=
  (chat logit logit_ltb encode id_to_token kogpt2 classify).
Local Abbreviation sentence_predict :=
  (sentence_predict logit logit_ltb classify).

(** One turn on a line that is not [quit]: the time and the emotion are
    in the lists when the reply is generated, however that ends. *)
Lemma chat_loop_turn (fuel : nat) (sent q_temp now : pystr)
  (rest : list (pystr * pystr)) (st : chat_state) (tr : list event)
  (e : emotion) (k : Z) :
  PyStr.strip q_temp <> quit ->
  sentence_predict q_temp (num st) = Ok (e, k) ->
  let st1 := {| num := num st + 1;
                time_list := time_list st ++ [Py.slice_to now 8];
                emo_list := emo_list st ++ [k] |} in
  let tr1 := tr ++ [ShownProbabilities q_temp (num st); Printed e] in
  chat_loop fuel sent ((q_temp, now) :: rest) st tr
  = match generate fuel (PyStr.strip q_temp) sent [] with
    | None => Diverged st1 tr1
    | Some (Raise x) => Raised x st1 tr1
    | Some (Ok a) =>
        chat_loop fuel sent rest st1 (tr1 ++ [PrintedReply (PyStr.strip a)])
    end.
Proof.
  intros Hq Hp. simpl. apply eqb_neq in Hq. now rewrite Hq, Hp.
Qed.

Lemma chat_loop_until_quit (fuel : nat) (sent : pystr)
  (lastq : pystr * pystr) (rest : list (pystr * pystr)) :
  PyStr.strip (fst lastq) = quit ->
  forall us st tr,
    Forall (fun u => PyStr.strip (fst u) <> quit) us ->
    Forall (fun u => length (classify (fst u)) = 7%nat) us ->
    Forall (fun u => exists a,
              generate fuel (PyStr.strip (fst u)) sent [] = Some (Ok a)) us ->
    length (time_list st) = length (emo_list st) ->
    Forall (fun k => 0 <= k <= 6) (emo_list st) ->
    exists emos tr' t,
      chat_loop fuel sent (us ++ lastq :: rest) st tr
      = Finished {| num := num st + Py.len us;
                    time_list := time_list st
                                 ++ map (fun u => Py.slice_to (snd u) 8) us;
                    emo_list := emo_list st ++ emos |}
                 (tr' ++ [SavedTrajectory t]) /\
      Forall2 (fun u k => exists e n, sentence_predict (fst u) n = Ok (e, k))
              us emos /\
      length (trace_replies tr')
      = (length (trace_replies tr) + length us)%nat /\
      line_x t = time_list st ++ map (fun u => Py.slice_to (snd u) 8) us /\
      line_y t = emo_list st ++ emos /\
      length (texts t) = length (emo_list st ++ emos) /\
      fig_num t = num st + Py.len us.
Proof.
  intros Hquit. induction us as [|[q_temp now] us IH];
    intros st tr Hnq H7 Hgen Hlen Hrange.
  - destruct lastq as [ql nl]. destruct st as [n tl el].
    simpl in Hquit, Hlen, Hrange. simpl.
    rewrite Hquit, (proj2 (eqb_eq quit quit) eq_refl).
    unfold emotion_predict_result, Py.len. rewrite Hlen, Z.eqb_refl.
    destruct (annotate_ok el Hrange 0) as [ts [-> Hts]].
    unfold bind. exists [], tr. eexists. rewrite !app_nil_r, Z.add_0_r.
    simpl. repeat split; try reflexivity; try constructor; try lia.
    exact Hts.
  - inversion Hnq as [|? ? Hq Hnq']; subst.
    inversion H7 as [|? ? Hc H7']; subst.
    inversion Hgen as [|? ? [a Ha] Hgen']; subst. simpl in Hq, Hc, Ha.
    destruct (sentence_predict_seven logit logit_ltb classify
                q_temp (num st) Hc) as (k & name & Hp & Hk & _).
    rewrite <- app_comm_cons, (chat_loop_turn _ _ _ _ _ _ _ _ _ Hq Hp), Ha.
    cbv zeta.
    match goal with
    | |- context [chat_loop fuel sent _ ?st1 ?tr1] =>
        destruct (IH st1 tr1 Hnq' H7' Hgen')
          as (emos & tr' & t & E & F & Hrep & Hx & Hy & Ht & Hn)
    end.
    { simpl. rewrite !length_app. simpl. lia. }
    { simpl. apply Forall_app. split; [assumption|]. now constructor. }
    rewrite E. exists (k :: emos), tr', t.
    simpl in *. rewrite <- !app_assoc in *. simpl in *.
    rewrite !trace_replies_app in Hrep. simpl in Hrep.
    rewrite length_app in Hrep. simpl in Hrep.
    replace (num st + 1 + Py.len us)
      with (num st + Py.len ((q_temp, now) :: us))
      in * by (unfold Py.len; simpl length; lia).
    repeat split; try assumption; try lia.
    constructor; [|assumption]. eauto.
Qed.

(** C5. Each line that is not [quit] once stripped puts exactly one time
    and one emotion in the lists, before its reply is generated and however
    the generation ends.  When the lines typed are [us], none of them
    [quit], then a [quit] line: the loop ends there (what follows is not
    read), and [emotion_predict_result] draws the trajectory through
    exactly the [n] recorded points, [n] the number of lines of [us].
    This is for a classifier with seven classes and replies whose
    generation ends. *)
Theorem chat_records_each_utterance (fuel : nat) (sent : pystr)
  (us : list (pystr * pystr)) (lastq : pystr * pystr)
  (rest : list (pystr * pystr)) :
  Forall (fun u => PyStr.strip (fst u) <> quit) us ->
  PyStr.strip (fst lastq) = quit ->
  Forall (fun u => length (classify (fst u)) = 7%nat) us ->
  Forall (fun u => exists a,
            generate fuel (PyStr.strip (fst u)) sent [] = Some (Ok a)) us ->
  (forall u st tr rest', In u us ->
     exists e k,
       sentence_predict (fst u) (num st) = Ok (e, k) /\
       let st1 := {| num := num st + 1;
                     time_list := time_list st ++ [Py.slice_to (snd u) 8];
                     emo_list := emo_list st ++ [k] |} in
       let tr1 := tr ++ [ShownProbabilities (fst u) (num st); Printed e] in
       forall fuel',
         chat_loop fuel' sent (u :: rest') st tr
         = match generate fuel' (PyStr.strip (fst u)) sent [] with
           | None => Diverged st1 tr1
           | Some (Raise x) => Raised x st1 tr1
           | Some (Ok a) =>
               chat_loop fuel' sent rest' st1
                 (tr1 ++ [PrintedReply (PyStr.strip a)])
           end) /\
  exists st trace t,
    chat fuel sent (us ++ lastq :: rest)
    = Finished st (trace ++ [SavedTrajectory t]) /\
    num st = Py.len us /\
    time_list st = map (fun u => Py.slice_to (snd u) 8) us /\
    Forall2 (fun u k => exists e n, sentence_predict (fst u) n = Ok (e, k))
            us (emo_list st) /\
    length (trace_replies trace) = length us /\
    line_x t = time_list st /\
    line_y t = emo_list st /\
    length (texts t) = length us /\
    fig_num t = Py.len us.
Proof.
  intros Hnq Hquit H7 Hgen. split.
  - intros [q_temp now] st tr rest' Hin.
    rewrite Forall_forall in Hnq, H7.
    specialize (Hnq _ Hin). specialize (H7 _ Hin). simpl in Hnq, H7.
    destruct (sentence_predict_returns logit logit_ltb classify
                q_temp (num st)) as (e & k & Hp & _); [lia|].
    exists e, k. split; [exact Hp|]. intros st1 tr1 fuel'.
    now apply chat_loop_turn.
  - destruct (chat_loop_until_quit fuel sent lastq rest Hquit us
                {| num := 0; time_list := []; emo_list := [] |} []
                Hnq H7 Hgen eq_refl (Forall_nil _))
      as (emos & tr' & t & E & F & Hrep & Hx & Hy & Ht & Hn).
    simpl in *. unfold chat. rewrite E.
    eexists _, tr', t. split; [reflexivity|]. simpl.
    apply Forall2_length in F as Hlen.
    repeat split; try assumption; lia.
Qed.

End ChatSessionFacts.

(** *** The chat loop on the toy model *)

Lemma toy_well_shaped (q sent a : pystr) :
  well_shaped Z (Toy.kogpt2 (Toy.encode (context q sent a))).
Proof.
  unfold well_shaped, Toy.kogpt2, Toy.encode, context. split.
  - rewrite !length_map, !length_app. simpl. lia.
  - apply Forall_map, Forall_forall. intros i _.
    now destruct (Py.len _ <? 24).
Qed.

Lemma chat_greedy_decoding_witness :
  (forall a,
     well_shaped Z (Toy.kogpt2 (Toy.encode (context Toy.hi Toy.zero a))))
  /\ exists toks,
       (length toks < 5)%nat /\
       greedy_run Z Z.ltb Toy.encode Toy.id_to_token Toy.kogpt2
         Toy.hi Toy.zero [] toks [32; 97]%N /\
       greedy_token Z Z.ltb Toy.encode Toy.id_to_token Toy.kogpt2
         Toy.hi Toy.zero [32; 97]%N = Some EOS.
Proof.
  split; [apply toy_well_shaped|].
  apply (chat_greedy_decoding Z Z.ltb Toy.encode Toy.id_to_token Toy.kogpt2
           Toy.hi Toy.zero (toy_well_shaped Toy.hi Toy.zero)).
  reflexivity.
Defined.

Lemma sentence_predict_in_range_witness :
  (forall s, length (Toy.classify_happy s) = 7%nat) /\
  exists k name,
    sentence_predict Z Z.ltb Toy.classify_happy Toy.hi 0
    = Ok (EmoStr name, k) /\
    0 <= k <= 6 /\ py_getitem emo_label k = Ok name.
Proof.
  split; [reflexivity|].
  apply (sentence_predict_in_range Z Z.ltb Toy.classify_happy).
  reflexivity.
Defined.

Lemma replies_ignore_classifier_witness :
  let inputs := [(Toy.hi_spaced, Toy.noon); (Toy.quit_spaced, Toy.noon)] in
  (forall s, In s (map fst inputs) -> (7 <= length (Toy.classify_happy s))%nat)
  /\ (forall s, In s (map fst inputs) -> (7 <= length (Toy.classify_sad s))%nat)
  /\ replies (main_chat Z Z.ltb Toy.encode Toy.id_to_token Toy.kogpt2
                Toy.classify_happy 5 Toy.zero inputs)
     = replies (main_chat Z Z.ltb Toy.encode Toy.id_to_token Toy.kogpt2
                  Toy.classify_sad 5 Toy.zero inputs).
Proof.
  intros inputs.
  assert (H1 : forall s, In s (map fst inputs) ->
                 (7 <= length (Toy.classify_happy s))%nat)
    by (intros; simpl; lia).
  assert (H2 : forall s, In s (map fst inputs) ->
                 (7 <= length (Toy.classify_sad s))%nat)
    by (intros; simpl; lia).
  split; [exact H1|]. split; [exact H2|].
  exact (replies_ignore_classifier Z Z.ltb Toy.encode Toy.id_to_token
           Toy.kogpt2 Toy.classify_happy Toy.classify_sad 5 Toy.zero
           inputs inputs eq_refl H1 H2).
Defined.

Lemma chat_records_each_utterance_witness :
  let us := [(Toy.hi_spaced, Toy.noon); (Toy.hi, Toy.noon)] in
  let lastq := (Toy.quit_spaced, Toy.noon) in
  let rest := [(Toy.hi, Toy.noon)] in
  Forall (fun u => PyStr.strip (fst u) <> quit) us /\
  PyStr.strip (fst lastq) = quit /\
  exists st trace t,
    chat Z Z.ltb Toy.encode Toy.id_to_token Toy.kogpt2 Toy.classify_happy
      5 Toy.zero (us ++ lastq :: rest)
    = Finished st (trace ++ [SavedTrajectory t]) /\
    num st = 2 /\ length (time_list st) = 2%nat /\
    length (emo_list st) = 2%nat /\ length (texts t) = 2%nat /\ fig_num t = 2.
Proof.
  intros us lastq rest.
  assert (Hnq : Forall (fun u => PyStr.strip (fst u) <> quit) us)
    by (repeat constructor; discriminate).
  assert (Hq : PyStr.strip (fst lastq) = quit) by reflexivity.
  split; [exact Hnq|]. split; [exact Hq|].
  destruct (chat_records_each_utterance Z Z.ltb Toy.encode Toy.id_to_token
              Toy.kogpt2 Toy.classify_happy 5 Toy.zero us lastq rest Hnq Hq)
    as (_ & st & trace & t & E & Hn & Ht & F & _ & _ & _ & Hx & Hf).
  - repeat constructor.
  - repeat constructor; eexists; reflexivity.
  - exists st, trace, t. apply Forall2_length in F.
    rewrite Ht, length_map, <- F.
    repeat split; try assumption; reflexivity.
Defined.

(** The toy session: one reply, then [quit]. *)
Example toy_generate :
  generate Z Z.ltb Toy.encode Toy.id_to_token Toy.kogpt2 5 Toy.hi Toy.zero []
  = Some (Ok [32; 97]%N).
Proof. reflexivity. Qed.

(** With one position only, [squeeze()] leaves a number, the token comes
    back as a string, and [[-1]] is its last character, not the token. *)
Example gen_token_one_position :
  gen_token Z Z.ltb (fun _ => [1]) Toy.id_to_token Toy.kogpt2 [] [] []
  = Ok [97]%N /\
  greedy_token Z Z.ltb (fun _ => [1]) Toy.id_to_token Toy.kogpt2 [] [] []
  = Some [9601; 97]%N.
Proof. split; reflexivity. Qed.

(** Eight classes: the eighth has no name, and the trajectory cannot be
    drawn. *)
Example sentence_predict_eight_classes :
  sentence_predict Z Z.ltb (fun _ => [0; 0; 0; 0; 0; 0; 0; 1]) Toy.hi 0
  = Ok (EmoIndex 7, 7) /\
  emotion_predict_result [Toy.noon] [7] 1 = Raise IndexError.
Proof. split; reflexivity. Qed.

(** ** Softmax and argmax over the real numbers *)

Section OrderPreserving.

Variables (A B : Type) (ltA : A -> A -> bool) (ltB : B -> B -> bool).
Variable f : A -> B.
Hypothesis f_order : forall x y, ltB (f x) (f y) = ltA x y.

Lemma argmax_from_map (l : list A) :
  forall best_i best i,
    argmax_from ltB best_i (f best) i (map f l)
    = argmax_from ltA best_i best i l.
Proof.
  induction l as [|x l IH]; intros best_i best i; simpl; [reflexivity|].
  rewrite f_order. destruct (ltA best x); apply IH.
Qed.

Lemma argmax_map (l : list A) : argmax ltB (map f l) = argmax ltA l.
Proof.
  destruct l as [|x l]; simpl; [reflexivity|]. now rewrite argmax_from_map.
Qed.

End OrderPreserving.

Lemma total_pos (logits : list R) :
  logits <> [] -> (0 < Exact.total logits)%R.
Proof.
  unfold Exact.total.
  assert (Hnn : forall l, (0 <= fold_right Rplus 0 (map exp l))%R).
  { induction l as [|x l IH]; simpl; [lra|].
    pose proof (exp_pos x). lra. }
  destruct logits as [|x l]; [congruence|]. intros _. simpl.
  pose proof (exp_pos x). specialize (Hnn l). lra.
Qed.

(** Dividing [exp] by a positive total keeps the strict order. *)
Lemma softmax_entry_lt (t x y : R) :
  (0 < t)%R -> ((exp x / t < exp y / t)%R <-> (x < y)%R).
Proof.
  intros Ht. unfold Rdiv. split.
  - intros H. apply exp_lt_inv.
    apply Rmult_lt_reg_r with (r := (/ t)%R); [|exact H].
    now apply Rinv_0_lt_compat.
  - intros H. apply Rmult_lt_compat_r.
    + now apply Rinv_0_lt_compat.
    + now apply exp_increasing.
Qed.

Lemma softmax_ltb (t x y : R) :
  (0 < t)%R -> Exact.ltb (exp x / t) (exp y / t) = Exact.ltb x y.
Proof.
  intros Ht. unfold Exact.ltb.
  pose proof (softmax_entry_lt t x y Ht) as H.
  destruct (Rlt_dec (exp x / t) (exp y / t)), (Rlt_dec x y); tauto.
Qed.

Lemma argmax_softmax (logits : list R) :
  argmax Exact.ltb (Exact.softmax logits) = argmax Exact.ltb logits.
Proof.
  destruct logits as [|x l] eqn:E; [reflexivity|]. rewrite <- E.
  unfold Exact.softmax. apply argmax_map. intros a b.
  apply softmax_ltb, total_pos. congruence.
Qed.

Lemma py_getitem_same_length {T U} (l1 : list T) (l2 : list U) (i : Z) :
  length l1 = length l2 ->
  (exists x1 x2, py_getitem l1 i = Ok x1 /\ py_getitem l2 i = Ok x2) \/
  (py_getitem l1 i = Raise IndexError /\ py_getitem l2 i = Raise IndexError).
Proof.
  intros H. unfold py_getitem, Py.len. rewrite H.
  destruct (_ <? 0); [now right|].
  set (j := Z.to_nat _).
  destruct (nth_error l1 j) as [x1|] eqn:E1, (nth_error l2 j) as [x2|] eqn:E2.
  - left. eauto.
  - apply nth_error_None in E2.
    assert (nth_error l1 j <> None) by congruence.
    apply nth_error_Some in H0. lia.
  - apply nth_error_None in E1.
    assert (nth_error l2 j <> None) by congruence.
    apply nth_error_Some in H0. lia.
  - now right.
Qed.

Lemma for_each_getitem_same_length {T U V} (l1 : list T) (l2 : list U)
  (idx : list Z) (k : result V) :
  length l1 = length l2 ->
  (_ <- for_each (py_getitem l1) idx ;; k)
  = (_ <- for_each (py_getitem l2) idx ;; k).
Proof.
  intros H.
  assert (Hboth :
    (exists y1 y2, for_each (py_getitem l1) idx = Ok y1 /\
                   for_each (py_getitem l2) idx = Ok y2) \/
    (for_each (py_getitem l1) idx = Raise IndexError /\
     for_each (py_getitem l2) idx = Raise IndexError)).
  { induction idx as [|i idx IH]; simpl.
    - left. eauto.
    - destruct (py_getitem_same_length l1 l2 i H)
        as [(x1 & x2 & -> & ->)|[-> ->]]; [|now right].
      destruct IH as [(y1 & y2 & -> & ->)|[-> ->]]; simpl; [|now right].
      left. eauto. }
  destruct Hboth as [(y1 & y2 & -> & ->)|[-> ->]]; reflexivity.
Qed.

(** Over the real numbers softmax keeps the strict order of the entries,
    so the argmax of a vector (the first maximal index) is the argmax of
    its softmax: in exact arithmetic, what [sentence_predict] and the
    generation loop compute from the logits is what they would compute
    from the probabilities.  The program computes on [float32], where
    softmax is not strictly monotone and this fails. *)
Lemma argmax_softmax_exact :
  (forall logits,
      argmax Exact.ltb (Exact.softmax logits)
      = argmax Exact.ltb logits) /\
  (forall logits x y,
      logits <> [] ->
      (exp x / Exact.total logits < exp y / Exact.total logits)%R
      <-> (x < y)%R) /\
  (forall classify s n,
      sentence_predict R Exact.ltb
        (fun s => Exact.softmax (classify s)) s n
      = sentence_predict R Exact.ltb classify s n) /\
  (forall encode id_to_token kogpt2 q sent a,
      gen_token R Exact.ltb encode id_to_token
        (fun ids => map Exact.softmax (kogpt2 ids)) q sent a
      = gen_token R Exact.ltb encode id_to_token kogpt2 q sent a).
Proof.
  split; [exact argmax_softmax|]. split; [|split].
  - intros logits x y H. apply softmax_entry_lt, total_pos, H.
  - intros classify s n. unfold sentence_predict.
    rewrite argmax_softmax.
    apply for_each_getitem_same_length.
    unfold Exact.softmax. apply length_map.
  - intros encode id_to_token kogpt2 q sent a. unfold gen_token.
    f_equal. induction (kogpt2 _) as [|row pred IH]; simpl; [reflexivity|].
    now rewrite argmax_softmax, IH.
Qed.

(** ** Rounding to a double *)

(** The number of binary digits of [p]. *)
Lemma digits2_pos_bounds (p : positive) :
  2 ^ (Zpos (digits2_pos p) - 1) <= Zpos p < 2 ^ Zpos (digits2_pos p).
Proof.
  induction p as [p IH|p IH|]; simpl digits2_pos.
  - rewrite Pos2Z.inj_succ.
    replace (Z.succ (Zpos (digits2_pos p)) - 1)
      with (Z.succ (Zpos (digits2_pos p) - 1)) by lia.
    rewrite !Z.pow_succ_r by lia. lia.
  - rewrite Pos2Z.inj_succ.
    replace (Z.succ (Zpos (digits2_pos p)) - 1)
      with (Z.succ (Zpos (digits2_pos p) - 1)) by lia.
    rewrite !Z.pow_succ_r by lia. lia.
  - simpl. lia.
Qed.

(** One shift to the right halves the mantissa. *)
Lemma shr_1_m (mrs : shr_record) :
  0 <= shr_m mrs -> shr_m (shr_1 mrs) = shr_m mrs / 2.
Proof.
  destruct mrs as [m r s]. simpl. intros Hm.
  destruct m as [|[p|p|]|p]; try lia; simpl shr_m.
  - reflexivity.
  - rewrite Pos2Z.inj_xI. apply Z.div_unique with (r := 1); lia.
  - rewrite Pos2Z.inj_xO. apply Z.div_unique with (r := 0); lia.
  - reflexivity.
Qed.

(** It stays exact when the bit that falls off is zero. *)
Lemma shr_1_exact (mrs : shr_record) :
  0 <= shr_m mrs -> shr_m mrs mod 2 = 0 ->
  shr_r mrs = false -> shr_s mrs = false ->
  shr_r (shr_1 mrs) = false /\ shr_s (shr_1 mrs) = false.
Proof.
  destruct mrs as [m r s]. simpl. intros Hm Hmod -> ->.
  destruct m as [|[p|p|]|p]; try lia; simpl; try tauto.
  - rewrite Pos2Z.inj_xI in Hmod.
    rewrite Z.add_comm, Z.mul_comm, Z.mod_add in Hmod by lia. discriminate.
  - discriminate.
Qed.

(** [p] shifts divide by [2^p], exactly when nothing but zeros falls
    off. *)
Lemma iter_pos_shr_1 (p : positive) :
  forall mrs,
    0 <= shr_m mrs ->
    let mrs' := iter_pos shr_1 p mrs in
    shr_m mrs' = shr_m mrs / 2 ^ Zpos p /\
    (shr_m mrs mod 2 ^ Zpos p = 0 ->
     shr_r mrs = false -> shr_s mrs = false ->
     shr_r mrs' = false /\ shr_s mrs' = false).
Proof.
  assert (Hnn : forall mrs, 0 <= shr_m mrs -> 0 <= shr_m (shr_1 mrs)).
  { intros mrs H. rewrite shr_1_m by assumption. apply Z.div_pos; lia. }
  assert (Hmod2 : forall m k, 0 < k -> m mod 2 ^ (2 * k) = 0 ->
             m mod 2 ^ k = 0 /\ (m / 2 ^ k) mod 2 ^ k = 0).
  { intros m k Hk H.
    replace (2 * k) with (k + k) in H by lia.
    rewrite Z.pow_add_r in H by lia.
    pose proof (Z.pow_pos_nonneg 2 k ltac:(lia) ltac:(lia)) as Hp.
    rewrite Z.rem_mul_r in H by lia.
    pose proof (Z.mod_pos_bound m (2 ^ k) Hp).
    pose proof (Z.mod_pos_bound (m / 2 ^ k) (2 ^ k) Hp). nia. }
  induction p as [p IH|p IH|]; intros mrs Hm; cbv zeta; simpl iter_pos.
  - pose proof (Hnn _ Hm) as H1.
    destruct (IH (shr_1 mrs) H1) as [E1 X1].
    assert (H2 : 0 <= shr_m (iter_pos shr_1 p (shr_1 mrs))).
    { rewrite E1. apply Z.div_pos; [assumption|].
      apply Z.pow_pos_nonneg; lia. }
    destruct (IH _ H2) as [E2 X2].
    pose proof (Z.pow_pos_nonneg 2 (Zpos p) ltac:(lia) ltac:(lia)) as Hp.
    assert (Epow : 2 ^ Zpos p~1 = 2 * (2 ^ Zpos p * 2 ^ Zpos p)).
    { change (Zpos p~1) with (2 * Zpos p + 1).
      rewrite Z.pow_add_r, Z.pow_mul_r by lia.
      change (2 ^ 1) with 2. change (2 ^ 2) with (2 * 2).
      rewrite Z.pow_mul_l. lia. }
    split.
    + rewrite E2, E1, shr_1_m by assumption.
      rewrite !Z.div_div by lia. now rewrite Epow.
    + intros Hmod Hr Hs. rewrite Epow in Hmod.
      rewrite Z.rem_mul_r in Hmod by lia.
      pose proof (Z.mod_pos_bound (shr_m mrs) 2 ltac:(lia)).
      pose proof (Z.mod_pos_bound (shr_m mrs / 2) (2 ^ Zpos p * 2 ^ Zpos p)
                    ltac:(lia)).
      assert (Ha : shr_m mrs mod 2 = 0) by nia.
      assert (Hb : (shr_m mrs / 2) mod (2 ^ Zpos p * 2 ^ Zpos p) = 0) by nia.
      destruct (shr_1_exact mrs Hm Ha Hr Hs) as [Hr1 Hs1].
      rewrite <- Z.pow_add_r in Hb by lia.
      replace (Zpos p + Zpos p) with (2 * Zpos p) in Hb by lia.
      apply Hmod2 in Hb as [Hb1 Hb2]; [|lia].
      rewrite <- shr_1_m in Hb1, Hb2 by assumption.
      destruct (X1 Hb1 Hr1 Hs1) as [Hr2 Hs2].
      rewrite <- E1 in Hb2. exact (X2 Hb2 Hr2 Hs2).
  - destruct (IH mrs Hm) as [E1 X1].
    assert (H2 : 0 <= shr_m (iter_pos shr_1 p mrs)).
    { rewrite E1. apply Z.div_pos; [assumption|].
      apply Z.pow_pos_nonneg; lia. }
    destruct (IH _ H2) as [E2 X2].
    pose proof (Z.pow_pos_nonneg 2 (Zpos p) ltac:(lia) ltac:(lia)) as Hp.
    assert (Epow : 2 ^ Zpos p~0 = 2 ^ Zpos p * 2 ^ Zpos p).
    { change (Zpos p~0) with (2 * Zpos p).
      rewrite <- Z.pow_add_r by lia. f_equal. lia. }
    split.
    + rewrite E2, E1, Z.div_div by lia. now rewrite Epow.
    + intros Hmod Hr Hs. change (Zpos p~0) with (2 * Zpos p) in Hmod.
      apply Hmod2 in Hmod as [Hb1 Hb2]; [|lia].
      destruct (X1 Hb1 Hr Hs) as [Hr2 Hs2].
      rewrite <- E1 in Hb2. exact (X2 Hb2 Hr2 Hs2).
  - split.
    + rewrite shr_1_m by assumption. reflexivity.
    + intros Hmod Hr Hs. change (2 ^ 1) with 2 in Hmod.
      now apply shr_1_exact.
Qed.

(** Bringing [m * 2^e] to the exponent of its format: a shift by some
    [k >= 0]. *)
Lemma shr_fexp_spec (m e : Z) :
  0 <= m ->
  exists mrs k,
    shr_fexp PyFloat.prec PyFloat.emax m e loc_Exact = (mrs, e + k) /\
    0 <= k /\
    shr_m mrs = m / 2 ^ k /\
    (m mod 2 ^ k = 0 -> loc_of_shr_record mrs = loc_Exact) /\
    (k = 0 \/ e + k = fexp PyFloat.prec PyFloat.emax (Zdigits2 m + e)).
Proof.
  intros Hm. unfold shr_fexp, shr. simpl shr_record_of_loc.
  assert (Hstay : exists mrs k,
            ({| shr_m := m; shr_r := false; shr_s := false |}, e)
            = (mrs, e + k) /\
            0 <= k /\ shr_m mrs = m / 2 ^ k /\
            (m mod 2 ^ k = 0 -> loc_of_shr_record mrs = loc_Exact) /\
            (k = 0 \/
             e + k = fexp PyFloat.prec PyFloat.emax (Zdigits2 m + e))).
  { exists {| shr_m := m; shr_r := false; shr_s := false |}, 0.
    rewrite Z.add_0_r. change (2 ^ 0) with 1. rewrite Z.div_1_r.
    repeat split; auto. lia. }
  destruct (fexp PyFloat.prec PyFloat.emax (Zdigits2 m + e) - e)
    as [|p|p] eqn:E; try exact Hstay.
  destruct (iter_pos_shr_1 p
              {| shr_m := m; shr_r := false; shr_s := false |} Hm)
    as [Em Ex].
  eexists _, (Zpos p). split; [reflexivity|]. split; [lia|].
  split; [exact Em|]. split; [|right; lia].
  intros Hmod. destruct (Ex Hmod eq_refl eq_refl) as [Hr Hs].
  destruct (iter_pos shr_1 p _) as [m' r' s']. simpl in Hr, Hs.
  now subst.
Qed.

(** Rounding keeps the truncated mantissa or, when bits were lost, may add
    one. *)
Lemma round_nearest_even_spec (m : Z) (l : location) :
  round_nearest_even m l = m \/
  (round_nearest_even m l = m + 1 /\ l <> loc_Exact).
Proof.
  destruct l as [|[| |]]; simpl; auto.
  - destruct (Z.even m); [auto|]. right. split; [reflexivity|discriminate].
  - right. split; [reflexivity|discriminate].
Qed.

Lemma Zdigits2_bound (m b : Z) :
  0 <= m < 2 ^ b -> 0 <= b -> Zdigits2 m <= b.
Proof.
  intros [H0 Hm] Hb. destruct m as [|p|p]; simpl; try lia.
  pose proof (digits2_pos_bounds p) as [Hlo _].
  destruct (Z_le_gt_dec (Zpos (digits2_pos p)) b) as [|Hgt]; [assumption|].
  exfalso. assert (2 ^ b <= 2 ^ (Zpos (digits2_pos p) - 1))
    by (apply Z.pow_le_mono_r; lia).
  lia.
Qed.

(** Rounding a positive number that is at most [n], for a natural number
    [n] below [2^53], gives zero or a positive double at most [n]: [n] is
    itself a double, and rounding to nearest cannot step over it. *)
Lemma binary_round_aux_le (n : Z) (M : positive) (E : Z) :
  0 <= n < 2 ^ 53 -> E <= 0 -> Zpos M <= n * 2 ^ (- E) ->
  let x := binary_round_aux PyFloat.prec PyFloat.emax false (Zpos M) E
             loc_Exact in
  x = S754_zero false \/
  exists m e, x = S754_finite false m e /\ e <= 0 /\ Zpos m <= n * 2 ^ (- e).
Proof.
  intros Hn HE HM. unfold binary_round_aux.
  destruct (shr_fexp_spec (Zpos M) E ltac:(lia))
    as (mrs1 & k1 & -> & Hk1 & Em0 & Hexact & He1).
  set (e1 := E + k1) in *.
  set (m1 := round_nearest_even (shr_m mrs1) (loc_of_shr_record mrs1)).
  assert (He1le : e1 <= 0).
  { destruct He1 as [->|He1]; [lia|]. rewrite He1.
    unfold fexp, emin, PyFloat.prec, PyFloat.emax.
    assert (Zdigits2 (Zpos M) <= 53 - E).
    { apply Zdigits2_bound; [|lia]. split; [lia|].
      replace (53 - E) with (53 + (- E)) by lia.
      rewrite Z.pow_add_r by lia.
      assert (0 < 2 ^ (- E)) by (apply Z.pow_pos_nonneg; lia). nia. }
    lia. }
  assert (Hsplit : 2 ^ (- E) = 2 ^ (- e1) * 2 ^ k1).
  { rewrite <- Z.pow_add_r by lia. f_equal. lia. }
  assert (Hp1 : 0 < 2 ^ k1) by (apply Z.pow_pos_nonneg; lia).
  assert (Hp2 : 0 < 2 ^ (- e1)) by (apply Z.pow_pos_nonneg; lia).
  assert (Hm0 : 0 <= shr_m mrs1 <= n * 2 ^ (- e1)).
  { rewrite Em0. split; [apply Z.div_pos; lia|].
    apply Z.div_le_upper_bound; [lia|]. rewrite Hsplit in HM. lia. }
  assert (Hm1 : 0 <= m1 <= n * 2 ^ (- e1)).
  { destruct (round_nearest_even_spec (shr_m mrs1) (loc_of_shr_record mrs1))
      as [Hsame|[Hup Hinexact]].
    - unfold m1. rewrite Hsame. lia.
    - unfold m1. rewrite Hup. split; [lia|].
      assert (Hnz : Zpos M mod 2 ^ k1 <> 0) by (intros H; auto).
      assert (Zpos M < n * 2 ^ (- e1) * 2 ^ k1).
      { destruct (Z.eq_dec (Zpos M) (n * 2 ^ (- e1) * 2 ^ k1)) as [Heq|];
          [|rewrite Hsplit in HM; lia].
        exfalso. apply Hnz. rewrite Heq. apply Z.mod_mul. lia. }
      rewrite Em0.
      assert (Zpos M / 2 ^ k1 < n * 2 ^ (- e1))
        by (apply Z.div_lt_upper_bound; lia).
      lia. }
  destruct (shr_fexp_spec m1 e1 ltac:(lia))
    as (mrs2 & k2 & -> & Hk2 & Em2 & _ & He2).
  set (e2 := e1 + k2) in *.
  assert (He2le : e2 <= 0).
  { destruct He2 as [->|He2]; [lia|]. rewrite He2.
    unfold fexp, emin, PyFloat.prec, PyFloat.emax.
    assert (Zdigits2 m1 <= 53 - e1).
    { apply Zdigits2_bound; [|lia]. split; [lia|].
      replace (53 - e1) with (53 + (- e1)) by lia.
      rewrite Z.pow_add_r by lia. nia. }
    lia. }
  assert (Hp3 : 0 < 2 ^ k2) by (apply Z.pow_pos_nonneg; lia).
  assert (Hp4 : 0 < 2 ^ (- e2)) by (apply Z.pow_pos_nonneg; lia).
  assert (Hsplit2 : 2 ^ (- e1) = 2 ^ (- e2) * 2 ^ k2).
  { rewrite <- Z.pow_add_r by lia. f_equal. lia. }
  assert (Hm2 : shr_m mrs2 <= n * 2 ^ (- e2)).
  { rewrite Em2. apply Z.div_le_upper_bound; [lia|].
    rewrite Hsplit2 in Hm1. lia. }
  destruct (shr_m mrs2) as [|m|m] eqn:Eres.
  - now left.
  - right.
    destruct (Z.leb_spec e2 (PyFloat.emax - PyFloat.prec)) as [_|Hbig].
    + exists m, e2. auto.
    + unfold PyFloat.emax, PyFloat.prec in Hbig. lia.
  - exfalso. assert (0 <= m1 / 2 ^ k2) by (apply Z.div_pos; lia). lia.
Qed.

(** ** The warmup steps *)

(** [float(n)] for [0 <= n < 2^53] is at most [n] (it is [n]). *)
Lemma of_int_le (n : Z) :
  0 <= n < 2 ^ 53 ->
  exists x, PyFloat.of_int n = Ok x /\ nonneg_le n x.
Proof.
  intros Hn. unfold PyFloat.of_int, binary_normalize.
  destruct n as [|p|p]; [| |lia].
  - exists (S754_zero false). split; [reflexivity|now left].
  - unfold binary_round, shl_align.
    assert (Hd : Zpos (digits2_pos p) <= 53).
    { apply (Zdigits2_bound (Zpos p) 53); lia. }
    set (ex' := fexp PyFloat.prec PyFloat.emax (Zpos (digits2_pos p) + 0)).
    assert (Hex' : ex' <= 0).
    { unfold ex', fexp, emin, PyFloat.prec, PyFloat.emax. lia. }
    assert (Hround : forall mz ez,
              ez <= 0 -> Zpos mz = Zpos p * 2 ^ (- ez) ->
              exists x,
                match binary_round_aux PyFloat.prec PyFloat.emax false
                        (Zpos mz) ez loc_Exact with
                | S754_infinity _ => Raise OverflowError
                | y => Ok y
                end = Ok x /\ nonneg_le (Zpos p) x).
    { intros mz ez Hez Hmz.
      destruct (binary_round_aux_le (Zpos p) mz ez Hn Hez ltac:(lia))
        as [->|(m & e & -> & He & Hm)].
      - eexists. split; [reflexivity|now left].
      - eexists. split; [reflexivity|]. right. right. eauto. }
    destruct (ex' - 0) as [|d|d] eqn:E.
    + apply Hround; [lia|]. change (2 ^ (- 0)) with 1. lia.
    + lia.
    + apply Hround; [lia|].
      change (Pos.iter xO p d) with (shift_pos d p).
      rewrite shift_pos_correct. replace (- ex') with (Zpos d) by lia.
      change (Z.pow_pos 2 d) with (2 ^ Zpos d). lia.
Qed.

(** [<=] on two positive doubles: a smaller exponent, or the same
    exponent and a mantissa that is not larger. *)
Lemma SFleb_finite_pos (m m' : positive) (e e' : Z) :
  SFleb (S754_finite false m e) (S754_finite false m' e') = true ->
  e < e' \/ (e = e' /\ Zpos m <= Zpos m').
Proof.
  unfold SFleb, SFcompare.
  destruct (Z.compare_spec e e') as [->|Hlt|Hgt]; intros H.
  - right. split; [reflexivity|].
    rewrite Pos.compare_cont_spec in H. unfold Pos.switch_Eq in H.
    apply Pos2Z.pos_le_pos. unfold Pos.le.
    destruct (m ?= m')%positive; discriminate.
  - now left.
  - discriminate.
Qed.

(** A double in the unit interval is a zero or a positive double at most
    1. *)
Lemma in_unit_interval_inv (x : spec_float) :
  PyFloat.in_unit_interval x = true -> nonneg_le 1 x.
Proof.
  unfold PyFloat.in_unit_interval. rewrite !andb_true_iff.
  intros [[Hvalid H0] H1].
  destruct x as [[|]|[|]| |[|] m e]; try discriminate.
  - now right; left.
  - now left.
  - right. right. exists m, e. split; [reflexivity|].
    unfold valid_binary, bounded, canonical_mantissa in Hvalid.
    apply andb_true_iff in Hvalid as [Hcanon _].
    apply Z.eqb_eq in Hcanon.
    assert (Hd : Zpos (digits2_pos m) <= 53).
    { unfold fexp, emin, PyFloat.prec, PyFloat.emax in Hcanon. lia. }
    pose proof (digits2_pos_bounds m) as [_ Hm].
    assert (Hm53 : Zpos m < 2 ^ 53).
    { eapply Z.lt_le_trans; [exact Hm|]. apply Z.pow_le_mono_r; lia. }
    unfold PyFloat.one in H1.
    apply SFleb_finite_pos in H1 as [Hlt|[-> Hle]].
    + split; [lia|]. rewrite Z.mul_1_l.
      assert (2 ^ 53 <= 2 ^ (- e)) by (apply Z.pow_le_mono_r; lia). lia.
    + split; [lia|]. rewrite Z.mul_1_l. exact Hle.
Qed.

(** The product of a double in [0, n] and a double in [0, 1] is in
    [0, n]. *)
Lemma SFmul_le (n : Z) (x r : spec_float) :
  0 <= n < 2 ^ 53 -> nonneg_le n x -> nonneg_le 1 r ->
  nonneg_le n (SFmul PyFloat.prec PyFloat.emax x r).
Proof.
  intros Hn [->|[->|(mx & ex & -> & Hex & Hmx)]]
            [->|[->|(my & ey & -> & Hey & Hmy)]];
    simpl; try (now left); try (now right; left).
  assert (0 < 2 ^ (- ex)) by (apply Z.pow_pos_nonneg; lia).
  assert (0 < 2 ^ (- ey)) by (apply Z.pow_pos_nonneg; lia).
  destruct (binary_round_aux_le n (mx * my) (ex + ey) Hn)
    as [E|(m & e & E & He & Hm)]; [lia| |now left; rewrite E|].
  - replace (- (ex + ey)) with (- ex + - ey) by lia.
    rewrite Z.pow_add_r, Pos2Z.inj_mul by lia. nia.
  - right. right. exists m, e. now rewrite E.
Qed.

(** The integer part of a double in [0, n] is its floor, and is in
    [0, n]. *)
Lemma to_int_le (n : Z) (x : spec_float) :
  0 <= n -> nonneg_le n x ->
  exists k, PyFloat.to_int x = Ok k /\ PyFloat.floor x = Some k /\
            0 <= k <= n.
Proof.
  intros Hn [->|[->|(m & e & -> & He & Hm)]];
    try (exists 0; repeat split; lia).
  exists (Z.shiftl (Zpos m) e). split; [reflexivity|].
  split; [reflexivity|].
  rewrite Z.shiftl_div_pow2 by lia.
  assert (0 < 2 ^ (- e)) by (apply Z.pow_pos_nonneg; lia).
  split; [apply Z.div_pos; lia|].
  apply Z.div_le_upper_bound; lia.
Qed.

(** C7, as amended.  [num_train_steps] is the number of batches times
    [max_epochs], and [num_warmup_steps] is the double
    [num_train_steps * warmup_ratio] cut to its integer part.  When
    [0 <= warmup_ratio <= 1] and [0 <= num_train_steps < 2^53], that
    integer is the floor of the product and lies between 0 and
    [num_train_steps]. *)
Theorem warmup_steps_bounded (num_batches max_epochs : Z)
  (warmup_ratio : spec_float) :
  let n := num_batches * max_epochs in
  0 <= n < 2 ^ 53 ->
  PyFloat.in_unit_interval warmup_ratio = true ->
  exists x k,
    PyFloat.int_mul n warmup_ratio = Ok x /\
    warmup_steps num_batches max_epochs warmup_ratio = Ok (k, n) /\
    PyFloat.floor x = Some k /\
    0 <= k <= n.
Proof.
  intros n Hn Hr. apply in_unit_interval_inv in Hr.
  destruct (of_int_le n Hn) as (y & Ey & Hy).
  pose proof (SFmul_le n y warmup_ratio Hn Hy Hr) as Hx.
  destruct (to_int_le n _ ltac:(lia) Hx) as (k & Ek & Ef & Hk).
  exists (SFmul PyFloat.prec PyFloat.emax y warmup_ratio), k.
  unfold warmup_steps, PyFloat.int_mul. fold n. rewrite Ey. unfold bind.
  rewrite Ek. auto.
Qed.

(** C7, as stated.  With [warmup_ratio = -0.5] and 5 steps the product is
    -2.5: [int] gives -2, the floor is -3.  With [warmup_ratio = 1.0] and
    [2^53 + 3] steps the conversion to a double rounds the steps up, and
    the warmup count exceeds the number of steps. *)
Lemma warmup_steps_counterexample :
  warmup_steps 5 1 PyFloat.minus_half = Ok (-2, 5) /\
  (x <- PyFloat.int_mul (5 * 1) PyFloat.minus_half ;; Ok (PyFloat.floor x))
  = Ok (Some (-3)) /\
  PyFloat.in_unit_interval PyFloat.one = true /\
  warmup_steps 1 9007199254740995 PyFloat.one
  = Ok (9007199254740996, 9007199254740995).
Proof. repeat split; vm_compute; reflexivity. Qed.

(** The default [warmup_ratio], 0.1, with 100 batches and 3 epochs. *)
Lemma warmup_steps_bounded_witness :
  0 <= 100 * 3 < 2 ^ 53 /\
  PyFloat.in_unit_interval PyFloat.tenth = true /\
  exists x k,
    PyFloat.int_mul (100 * 3) PyFloat.tenth = Ok x /\
    warmup_steps 100 3 PyFloat.tenth = Ok (k, 100 * 3) /\
    PyFloat.floor x = Some k /\
    0 <= k <= 100 * 3.
Proof.
  assert (H1 : 0 <= 100 * 3 < 2 ^ 53) by lia.
  assert (H2 : PyFloat.in_unit_interval PyFloat.tenth = true)
    by (vm_compute; reflexivity).
  split; [exact H1|]. split; [exact H2|].
  exact (warmup_steps_bounded 100 3 PyFloat.tenth H1 H2).
Defined.

(** [int(300 * 0.1)] is 30 and [int(10 * 0.7)] is 7, as in Python. *)
Example warmup_steps_default :
  warmup_steps 100 3 PyFloat.tenth = Ok (30, 300) /\
  warmup_steps 10 1 PyFloat.seven_tenths = Ok (7, 10).
Proof. split; vm_compute; reflexivity. Qed.

(** * Further properties *)

(** ** More on training examples *)

Section CharDatasetMore.

Variable tokenize : pystr -> list pystr.
Variable convert_token_to_id : pystr -> Z.
Variable pad_token_id : Z.

Local Abbreviation getitem :=
  (getitem tokenize convert_token_to_id pad_token_id).
Local Abbreviation assemble := (assemble convert_token_to_id pad_token_id).
Local Abbreviation labels_spec :=
  (labels_spec convert_token_to_id pad_token_id).

Lemma getitem_inv (max_len : Z) (t : turn) token_ids mask labels_ids :
  getitem max_len t = Ok (token_ids, mask, labels_ids) ->
  exists f,
    fit max_len (tokenize (U_TKN ++ Q t ++ SENT ++ label t))
      (tokenize (S_TKN ++ A t ++ EOS)) = Ok f /\
    token_ids
    = map convert_token_to_id (q_toked f ++ a_toked f)
        ++ repeat pad_token_id
             (Z.to_nat max_len - length (q_toked f) - length (a_toked f)) /\
    mask = mask_spec max_len (q_toked f) (a_toked f) /\
    labels_ids = labels_spec max_len (q_toked f) (a_toked f).
Proof.
  unfold getitem, getitem_toked.
  destruct (fit max_len _ _) as [f|e] eqn:E; unfold bind; [|discriminate].
  rewrite (assemble_spec _ _ _ _ _ _ (fit_ok _ _ _ _ E)).
  intros [= <- <- <-]. exists f. auto.
Qed.

(** X1. The token ids of an example are the ids of the question tokens
    kept, then of the answer tokens kept, then pad ids up to [max_len];
    what is kept is a suffix of the question and a prefix of the answer,
    all of both when they fit. *)
Theorem getitem_token_ids (max_len : Z) (t : turn) token_ids mask labels_ids :
  getitem max_len t = Ok (token_ids, mask, labels_ids) ->
  let q0 := tokenize (U_TKN ++ Q t ++ SENT ++ label t) in
  let a0 := tokenize (S_TKN ++ A t ++ EOS) in
  exists dropped q a cut,
    q0 = dropped ++ q /\ a0 = a ++ cut /\
    (Py.len q0 + Py.len a0 <= max_len -> q = q0 /\ a = a0) /\
    token_ids
    = map convert_token_to_id q ++ map convert_token_to_id a
        ++ repeat pad_token_id (Z.to_nat max_len - length q - length a).
Proof.
  intros H q0 a0. destruct (getitem_inv _ _ _ _ _ H) as (f & E & Ht & _).
  destruct (fit_ok _ _ _ _ E) as [_ _ _ [dropped Hd] [cut Hc] Hsame].
  exists dropped, (q_toked f), (a_toked f), cut.
  repeat split; try assumption; try (now apply Hsame).
  now rewrite Ht, map_app, <- app_assoc.
Qed.

Lemma nth_error_repeat_lt {T} (x : T) (n i : nat) :
  (i < n)%nat -> nth_error (repeat x n) i = Some x.
Proof.
  revert i. induction n as [|n IH]; intros [|i] H; simpl; try lia; auto.
  apply IH. lia.
Qed.

Lemma nth_error_tl {T} (l : list T) (i : nat) :
  nth_error (tl l) i = nth_error l (S i).
Proof. destruct l; [now destruct i|reflexivity]. Qed.

(** X2. Position by position, [q] and [a] being the question and answer
    tokens kept of the turn: over the question the token is the id of the
    question token there, the mask is 0 and the label is the id of the mask
    token; over the answer the token is the id of the answer token there
    and the mask is 1; the label at an answer position but the last is the
    id of the next answer token, which is the token id one position on; at
    the last answer position the label is the pad id; after the answer the
    mask is 0 and token and label are the pad id. *)
Theorem getitem_alignment (max_len : Z) (t : turn) token_ids mask labels_ids :
  getitem max_len t = Ok (token_ids, mask, labels_ids) ->
  let q0 := tokenize (U_TKN ++ Q t ++ SENT ++ label t) in
  let a0 := tokenize (S_TKN ++ A t ++ EOS) in
  let q :=
    if Py.len q0 + Py.len a0 <=? max_len then q0
    else if 0 <? max_len - Py.len q0 then q0
    else last_tokens (Z.to_nat (Py.int_half max_len)) q0 in
  let a :=
    if Py.len q0 + Py.len a0 <=? max_len then a0
    else firstn (Z.to_nat (max_len - Py.len q)) a0 in
  let q_len := length q in
  let a_len := length a in
  (Z.of_nat (q_len + a_len) <= max_len) /\
  (forall i tok, nth_error q i = Some tok ->
     nth_error token_ids i = Some (convert_token_to_id tok) /\
     nth_error mask i = Some 0 /\
     nth_error labels_ids i = Some (convert_token_to_id MASK)) /\
  (forall j tok, nth_error a j = Some tok ->
     nth_error token_ids (q_len + j) = Some (convert_token_to_id tok) /\
     nth_error mask (q_len + j) = Some 1) /\
  (forall j tok, nth_error a (j + 1) = Some tok ->
     nth_error labels_ids (q_len + j) = Some (convert_token_to_id tok) /\
     nth_error labels_ids (q_len + j)
     = nth_error token_ids (q_len + j + 1)) /\
  ((1 <= a_len)%nat ->
     nth_error labels_ids (q_len + a_len - 1) = Some pad_token_id) /\
  (forall i, (q_len + a_len <= i)%nat -> Z.of_nat i < max_len ->
     nth_error mask i = Some 0 /\
     nth_error token_ids i = Some pad_token_id /\
     nth_error labels_ids i = Some pad_token_id).
Proof.
  intros H q0 a0. cbv zeta.
  fold (kept_question max_len q0 a0). fold (kept_answer max_len q0 a0).
  destruct (getitem_inv _ _ _ _ _ H) as (f & E & -> & -> & ->).
  destruct (fit_kept _ _ _ _ E) as [Kq Ka]. fold q0 a0 in Kq, Ka.
  rewrite <- Kq, <- Ka.
  destruct (fit_ok _ _ _ _ E) as [_ _ Hroom _ _ _].
  set (q := q_toked f) in *. set (a := a_toked f) in *.
  unfold Py.len in Hroom.
  assert (Htl : length (tl a) = (length a - 1)%nat)
    by (destruct a; simpl; lia).
  assert (Hlt : forall T (l : list T) i x,
            nth_error l i = Some x -> (i < length l)%nat).
  { intros T l i x Hx. apply nth_error_Some. congruence. }
  unfold mask_spec, labels_spec.
  split; [lia|]. split; [|split; [|split; [|split]]].
  - intros i tok Hi. pose proof (Hlt _ _ _ _ Hi) as Hi'. split; [|split].
    + rewrite nth_error_app1 by (rewrite length_map, length_app; lia).
      rewrite map_app, nth_error_app1 by (rewrite length_map; lia).
      now rewrite nth_error_map, Hi.
    + rewrite nth_error_app1 by (rewrite repeat_length; lia).
      now apply nth_error_repeat_lt.
    + rewrite nth_error_app1 by (rewrite repeat_length; lia).
      now apply nth_error_repeat_lt.
  - intros j tok Hj. pose proof (Hlt _ _ _ _ Hj) as Hj'. split.
    + rewrite nth_error_app1 by (rewrite length_map, length_app; lia).
      rewrite map_app, nth_error_app2 by (rewrite length_map; lia).
      rewrite length_map, nth_error_map.
      replace (length q + j - length q)%nat with j by lia.
      now rewrite Hj.
    + rewrite nth_error_app2 by (rewrite repeat_length; lia).
      rewrite repeat_length.
      rewrite nth_error_app1 by (rewrite repeat_length; lia).
      apply nth_error_repeat_lt. lia.
  - intros j tok Hj. pose proof (Hlt _ _ _ _ Hj) as Hj'.
    assert (Hlab : nth_error
              (repeat (convert_token_to_id MASK) (length q)
               ++ map convert_token_to_id (tl a)
               ++ repeat pad_token_id
                    (Z.to_nat max_len - length q - length (tl a)))
              (length q + j)
            = Some (convert_token_to_id tok)).
    { rewrite nth_error_app2 by (rewrite repeat_length; lia).
      rewrite repeat_length.
      rewrite nth_error_app1 by (rewrite length_map; lia).
      rewrite nth_error_map, nth_error_tl.
      replace (S (length q + j - length q)) with (j + 1)%nat by lia.
      now rewrite Hj. }
    split; [exact Hlab|]. rewrite Hlab.
    rewrite nth_error_app1 by (rewrite length_map, length_app; lia).
    rewrite map_app, nth_error_app2 by (rewrite length_map; lia).
    rewrite length_map, nth_error_map.
    replace (length q + j + 1 - length q)%nat with (j + 1)%nat by lia.
    now rewrite Hj.
  - intros Ha.
    rewrite nth_error_app2 by (rewrite repeat_length; lia).
    rewrite repeat_length.
    rewrite nth_error_app2 by (rewrite length_map; lia).
    rewrite length_map. apply nth_error_repeat_lt. lia.
  - intros i Hi Hmax. split; [|split].
    + rewrite nth_error_app2 by (rewrite repeat_length; lia).
      rewrite repeat_length.
      rewrite nth_error_app2 by (rewrite repeat_length; lia).
      rewrite repeat_length. apply nth_error_repeat_lt. lia.
    + rewrite nth_error_app2 by (rewrite length_map, length_app; lia).
      rewrite length_map, length_app. apply nth_error_repeat_lt. lia.
    + rewrite nth_error_app2 by (rewrite repeat_length; lia).
      rewrite repeat_length.
      rewrite nth_error_app2 by (rewrite length_map; lia).
      rewrite length_map. apply nth_error_repeat_lt. lia.
Qed.

End CharDatasetMore.

(** X3. The truncation block stops on its assertion exactly when the turn
    does not fit, the question alone fills [max_len], and [max_len] is
    below 2. *)
Theorem fit_raises_iff (max_len : Z) (q0 a0 : list pystr) :
  (exists e, fit max_len q0 a0 = Raise e) <->
  Py.len q0 + Py.len a0 > max_len /\ max_len <= Py.len q0 /\ max_len < 2.
Proof.
  pose proof (len_nonneg q0) as Hq. pose proof (len_nonneg a0) as Ha.
  split.
  - intros [e E]. pose proof (fit_raise _ _ _ _ E) as [_ Hm].
    unfold fit in E.
    destruct (Z.gtb_spec (Py.len q0 + Py.len a0) max_len); [|discriminate].
    destruct (Z.leb_spec (max_len - Py.len q0) 0); [lia|].
    unfold bind in E. rewrite Z.eqb_refl in E. discriminate.
  - intros (Hover & Hfull & Hm). exists AssertionError. unfold fit.
    destruct (Z.gtb_spec (Py.len q0 + Py.len a0) max_len); [|lia].
    destruct (Z.leb_spec (max_len - Py.len q0) 0); [|lia].
    pose proof (len_nonneg (Py.slice_from q0 (- Py.int_half max_len))) as H1.
    destruct (Z.gtb_spec
                (max_len - Py.len (Py.slice_from q0 (- Py.int_half max_len)))
                0) as [Hpos|]; [|reflexivity].
    exfalso. rewrite len_slice_from in Hpos, H1.
    unfold Py.clamp, Py.int_half in Hpos, H1.
    assert (Hk : max_len ÷ 2 <= 0 /\ (0 <= max_len -> max_len ÷ 2 = 0)).
    { destruct (Z_le_gt_dec 0 max_len).
      - rewrite Z.quot_small; lia.
      - pose proof (Z.quot_opp_l max_len 2 ltac:(lia)).
        assert (0 <= (- max_len) ÷ 2) by (apply Z.quot_pos; lia). lia. }
    destruct (Z.ltb_spec (- (max_len ÷ 2)) 0); lia.
Qed.

Lemma sum_list_app (l1 l2 : list Z) :
  sum_list (l1 ++ l2) = sum_list l1 + sum_list l2.
Proof.
  unfold sum_list. induction l1 as [|x l1 IH]; simpl; [reflexivity|].
  rewrite IH. lia.
Qed.

Lemma sum_list_repeat (x : Z) (n : nat) :
  sum_list (repeat x n) = x * Z.of_nat n.
Proof.
  unfold sum_list. induction n as [|n IH]; simpl repeat; simpl fold_right;
    [lia|].
  rewrite IH. lia.
Qed.

Lemma sum_mask_spec (max_len : Z) (q a : list pystr) :
  sum_list (mask_spec max_len q a) = Py.len a.
Proof.
  unfold mask_spec, Py.len.
  rewrite !sum_list_app, !sum_list_repeat. lia.
Qed.

(** For [max_len >= 2] the first token of an answer is always kept. *)
Lemma fit_keeps_answer (max_len : Z) (q0 a0 : list pystr) (f : fitted) :
  fit max_len q0 a0 = Ok f -> 2 <= max_len -> a0 <> [] ->
  1 <= Py.len (a_toked f).
Proof.
  intros E Hm Ha0.
  assert (Ha0' : 1 <= Py.len a0).
  { destruct a0; [congruence|]. unfold Py.len. simpl length. lia. }
  assert (Hcut : forall n, 0 < n -> 1 <= Py.len (Py.slice_to a0 n)).
  { intros n Hn. rewrite len_slice_to. unfold Py.clamp.
    destruct (Z.ltb_spec n 0); lia. }
  unfold fit in E.
  destruct (Z.gtb_spec (Py.len q0 + Py.len a0) max_len);
    [|injection E as <-; exact Ha0'].
  destruct (Z.leb_spec (max_len - Py.len q0) 0); unfold bind in E.
  - destruct (Z.gtb_spec
                (max_len - Py.len (Py.slice_from q0 (- Py.int_half max_len)))
                0); [|discriminate].
    rewrite Z.eqb_refl in E. injection E as <-. cbn [a_toked].
    apply Hcut. lia.
  - rewrite Z.eqb_refl in E. injection E as <-. cbn [a_toked].
    apply Hcut. lia.
Qed.

(** X5. Fitting a fitted turn again changes nothing. *)
Theorem fit_idempotent (max_len : Z) (q0 a0 : list pystr) (f : fitted) :
  fit max_len q0 a0 = Ok f ->
  fit max_len (q_toked f) (a_toked f) = Ok f.
Proof.
  intros E. destruct (fit_ok _ _ _ _ E) as [Hq Ha Hroom _ _ _].
  unfold fit.
  destruct (Z.gtb_spec (Py.len (q_toked f) + Py.len (a_toked f)) max_len);
    [lia|].
  rewrite <- Hq, <- Ha. now destruct f.
Qed.

Section MaskFacts.

Variable tokenize : pystr -> list pystr.
Variable convert_token_to_id : pystr -> Z.
Variable pad_token_id : Z.

Local Abbreviation getitem :=
  (getitem tokenize convert_token_to_id pad_token_id).
Local Abbreviation dataset_getitem :=
  (dataset_getitem tokenize convert_token_to_id pad_token_id).
Local Abbreviation fetch_batch :=
  (fetch_batch tokenize convert_token_to_id pad_token_id).

(** X4. The mask of an example sums to the number of answer tokens kept:
    all of the answer, or what [max_len] leaves beside the question kept.
    For [max_len >= 2] and a tokenized answer that is not empty the sum is
    at least 1. *)
Theorem getitem_mask_sum (max_len : Z) (t : turn) token_ids mask labels_ids :
  getitem max_len t = Ok (token_ids, mask, labels_ids) ->
  let q0 := tokenize (U_TKN ++ Q t ++ SENT ++ label t) in
  let a0 := tokenize (S_TKN ++ A t ++ EOS) in
  0 <= sum_list mask <= Py.len a0 /\
  (Py.len q0 + Py.len a0 <= max_len -> sum_list mask = Py.len a0) /\
  (2 <= max_len -> a0 <> [] -> 1 <= sum_list mask).
Proof.
  intros H q0 a0.
  destruct (getitem_inv _ _ _ _ _ _ _ _ H) as (f & E & _ & -> & _).
  fold q0 a0 in E. rewrite sum_mask_spec.
  pose proof (fit_ok _ _ _ _ E) as [_ _ Hroom _ [cut Hc] Hsame].
  pose proof (len_nonneg (a_toked f)).
  assert (Hle : Py.len (a_toked f) <= Py.len a0).
  { apply (f_equal (@Py.len pystr)) in Hc. rewrite len_app in Hc.
    pose proof (len_nonneg cut). lia. }
  split; [lia|]. split.
  - intros Hfit. destruct (Hsame Hfit) as [_ ->]. reflexivity.
  - intros Hm Ha0. now apply (fit_keeps_answer max_len q0 a0).
Qed.

End MaskFacts.

(** ** Batches *)

Lemma py_getitem_cases {T} (l : list T) (i : Z) :
  (- Py.len l <= i < Py.len l /\ exists x, py_getitem l i = Ok x) \/
  (~ (- Py.len l <= i < Py.len l) /\ py_getitem l i = Raise IndexError).
Proof.
  unfold py_getitem. pose proof (len_nonneg l) as Hl.
  destruct (Z.ltb_spec i 0) as [Hneg|Hpos].
  - destruct (Z.ltb_spec (i + Py.len l) 0); [right; split; [lia|reflexivity]|].
    left. split; [lia|].
    destruct (nth_error l (Z.to_nat (i + Py.len l))) as [x|] eqn:E;
      [now exists x|].
    apply nth_error_None in E. unfold Py.len in *. lia.
  - destruct (Z.ltb_spec i 0); [lia|].
    destruct (nth_error l (Z.to_nat i)) as [x|] eqn:E.
    + left. split; [|now exists x].
      assert (nth_error l (Z.to_nat i) <> None) by congruence.
      apply nth_error_Some in H0. unfold Py.len. lia.
    + right. split; [|reflexivity].
      apply nth_error_None in E. unfold Py.len. lia.
Qed.

Lemma long_tensor_ok (rows : list (list Z)) (n : Z) :
  Forall (fun r => Py.len r = n) rows -> long_tensor rows = Ok rows.
Proof.
  destruct rows as [|r rest]; [reflexivity|]. intros H.
  inversion H as [|? ? Hr Hrest]; subst. unfold long_tensor.
  replace (forallb _ rest) with true; [reflexivity|].
  symmetry. apply forallb_forall. intros r' Hin.
  rewrite Forall_forall in Hrest. rewrite (Hrest _ Hin). apply Z.eqb_refl.
Qed.

Section BatchFacts.

Variable tokenize : pystr -> list pystr.
Variable convert_token_to_id : pystr -> Z.
Variable pad_token_id : Z.

Local Abbreviation getitem :=
  (getitem tokenize convert_token_to_id pad_token_id).
Local Abbreviation dataset_getitem :=
  (dataset_getitem tokenize convert_token_to_id pad_token_id).
Local Abbreviation fetch_batch :=
  (fetch_batch tokenize convert_token_to_id pad_token_id).

Lemma getitem_returns (max_len : Z) (t : turn) :
  2 <= max_len ->
  exists token_ids mask labels_ids,
    getitem max_len t = Ok (token_ids, mask, labels_ids) /\
    Py.len token_ids = max_len /\ Py.len mask = max_len /\
    Py.len labels_ids = max_len.
Proof.
  intros Hm. unfold getitem, getitem_toked.
  destruct (fit_total max_len (tokenize (U_TKN ++ Q t ++ SENT ++ label t))
              (tokenize (S_TKN ++ A t ++ EOS)) Hm) as [f E].
  rewrite E. unfold bind.
  pose proof (fit_ok _ _ _ _ E) as P.
  rewrite (assemble_spec _ _ _ _ _ _ P). destruct P as [_ _ Hroom _ _ _].
  do 3 eexists. split; [reflexivity|]. unfold Py.len at 1 2 3.
  rewrite length_labels_spec, length_mask_spec by assumption.
  rewrite !length_app, length_map, length_app, repeat_length.
  unfold Py.len in Hroom. lia.
Qed.

Lemma dataset_getitem_in_range (data : list turn) (max_len idx : Z) :
  2 <= max_len -> - Py.len data <= idx < Py.len data ->
  exists r, dataset_getitem data max_len idx = Ok r.
Proof.
  intros Hm Hin. unfold dataset_getitem.
  destruct (py_getitem_cases data idx) as [[_ [t ->]]|[Hout _]];
    [|contradiction].
  unfold bind.
  destruct (getitem_returns max_len t Hm) as (tk & m & l & -> & _). eauto.
Qed.

(** X6. For [max_len >= 2], [dataset[idx]] is an example exactly when
    [-len <= idx < len]; any other index raises [IndexError]. *)
Theorem dataset_getitem_index (data : list turn) (max_len idx : Z) :
  2 <= max_len ->
  ((exists r, dataset_getitem data max_len idx = Ok r) <->
   - Py.len data <= idx < Py.len data) /\
  (~ (- Py.len data <= idx < Py.len data) ->
   dataset_getitem data max_len idx = Raise IndexError).
Proof.
  intros Hm. unfold dataset_getitem.
  destruct (py_getitem_cases data idx) as [[Hin [t ->]]|[Hout ->]];
    unfold bind.
  - destruct (getitem_returns max_len t Hm) as (tk & m & l & -> & _).
    split; [|tauto]. split; [auto|eauto].
  - split; [|reflexivity]. split; [intros [r E]; discriminate|tauto].
Qed.

(** X7. For [max_len >= 2], a batch at indices within range collates into
    three tensors with one row per index and [max_len] columns: no ragged
    rows reach [torch.LongTensor]. *)
Theorem fetch_batch_shapes (data : list turn) (max_len : Z)
  (indices : list Z) :
  2 <= max_len ->
  Forall (fun idx => - Py.len data <= idx < Py.len data) indices ->
  exists d m l,
    fetch_batch data max_len indices = Ok (d, m, l) /\
    length d = length indices /\ length m = length indices /\
    length l = length indices /\
    Forall (fun row => Py.len row = max_len) d /\
    Forall (fun row => Py.len row = max_len) m /\
    Forall (fun row => Py.len row = max_len) l.
Proof.
  intros Hm Hidx. unfold fetch_batch.
  destruct (for_each_ok (dataset_getitem data max_len) indices)
    as (batch & -> & F).
  { eapply Forall_impl; [|exact Hidx]. cbn. intros idx Hin.
    now apply dataset_getitem_in_range. }
  unfold bind at 1.
  assert (Hshape : Forall (fun item =>
            Py.len (fst (fst item)) = max_len /\
            Py.len (snd (fst item)) = max_len /\
            Py.len (snd item) = max_len) batch).
  { clear Hidx. induction F as [|idx item indices batch E _ IH];
      constructor; [|exact IH].
    unfold dataset_getitem in E.
    destruct (py_getitem data idx) as [t|]; [|discriminate].
    unfold bind in E.
    destruct (getitem_returns max_len t Hm) as (tk & m & l & E' & H1 & H2 & H3).
    rewrite E' in E. injection E as <-. auto. }
  apply Forall2_length in F.
  unfold collate_fn.
  rewrite (long_tensor_ok _ max_len), (long_tensor_ok _ max_len),
    (long_tensor_ok _ max_len);
    try (apply Forall_map; eapply Forall_impl; [|exact Hshape];
         cbn; tauto).
  unfold bind. do 3 eexists. split; [reflexivity|].
  rewrite !length_map.
  repeat split; try lia;
    apply Forall_map; (eapply Forall_impl; [|exact Hshape]); cbn; tauto.
Qed.

End BatchFacts.

(** ** The parameter groups of the optimizer *)

Lemma py_startswith_spec (p s : pystr) :
  py_startswith p s = true <-> exists post, s = p ++ post.
Proof.
  revert s. induction p as [|c p IH]; intros s; simpl.
  - split; [intros _; now exists s|reflexivity].
  - destruct s as [|d s].
    + split; [discriminate|intros [post H]; discriminate].
    + rewrite andb_true_iff, N.eqb_eq, IH. split.
      * intros [-> [post ->]]. now exists post.
      * intros [post [= -> ->]]. split; [reflexivity|now exists post].
Qed.

Lemma py_in_spec (sub s : pystr) :
  py_in sub s = true <-> exists pre post, s = pre ++ sub ++ post.
Proof.
  induction s as [|d s IH]; simpl; rewrite orb_true_iff.
  - rewrite py_startswith_spec. split.
    + intros [[post H]|H]; [|discriminate]. now exists [], post.
    + intros (pre & post & H). left.
      destruct pre; [now exists post|discriminate].
  - rewrite IH, py_startswith_spec. split.
    + intros [[post H]|(pre & post & ->)].
      * now exists [], post.
      * now exists (d :: pre), post.
    + intros ([|c pre] & post & H).
      * left. now exists post.
      * right. injection H as -> ->. now exists pre, post.
Qed.

Lemma py_in_trans (x y z : pystr) :
  py_in x y = true -> py_in y z = true -> py_in x z = true.
Proof.
  rewrite !py_in_spec. intros (p1 & q1 & ->) (p2 & q2 & ->).
  exists (p2 ++ p1), (q1 ++ q2). now rewrite <- !app_assoc.
Qed.

(** X8. A parameter gets no weight decay exactly when its name contains
    ['bias'] or ['LayerNorm.weight']: the entry ['LayerNorm.bias'] of
    [no_decay] adds nothing. *)
Theorem any_no_decay_spec (n : pystr) :
  any_no_decay n
  = py_in [98; 105; 97; 115]%N n
    || py_in [76; 97; 121; 101; 114; 78; 111; 114; 109; 46;
              119; 101; 105; 103; 104; 116]%N n.
Proof.
  unfold any_no_decay, no_decay. cbn [existsb]. rewrite orb_false_r.
  destruct (py_in [76; 97; 121; 101; 114; 78; 111; 114; 109; 46;
                   98; 105; 97; 115]%N n) eqn:E.
  - rewrite (py_in_trans [98; 105; 97; 115]%N
               [76; 97; 121; 101; 114; 78; 111; 114; 109; 46;
                98; 105; 97; 115]%N n eq_refl E).
    reflexivity.
  - reflexivity.
Qed.

Lemma filter_partition {T} (f : T -> bool) (l : list T) :
  Permutation (filter (fun x => negb (f x)) l ++ filter f l) l.
Proof.
  induction l as [|x l IH]; simpl; [constructor|].
  destruct (f x); simpl.
  - apply Permutation_sym, Permutation_cons_app, Permutation_sym, IH.
  - now constructor.
Qed.

(** X9. The two groups split the named parameters: together they hold each
    parameter once, the first (decay 0.01) those whose name has no
    [no_decay] part, the second (decay 0.0) the others, each in the order
    of [named_parameters]. *)
Theorem optimizer_groups_partition {P : Type}
  (param_optimizer : list (pystr * P)) :
  exists decayed plain,
    optimizer_grouped_parameters param_optimizer
    = [ {| params := decayed; weight_decay := hundredth |};
        {| params := plain; weight_decay := S754_zero false |} ] /\
    Permutation (decayed ++ plain) (map snd param_optimizer) /\
    (length decayed + length plain = length param_optimizer)%nat /\
    (forall n p, In (n, p) param_optimizer ->
       if any_no_decay n then In p plain else In p decayed) /\
    (forall p, In p decayed ->
       exists n, In (n, p) param_optimizer /\ any_no_decay n = false) /\
    (forall p, In p plain ->
       exists n, In (n, p) param_optimizer /\ any_no_decay n = true).
Proof.
  unfold optimizer_grouped_parameters. eexists _, _.
  split; [reflexivity|].
  pose proof (filter_partition (fun np : pystr * P => any_no_decay (fst np))
                param_optimizer) as Hperm.
  split; [|split; [|split; [|split]]].
  - rewrite <- map_app. now apply Permutation_map.
  - apply Permutation_length in Hperm.
    rewrite length_app in Hperm. now rewrite !length_map.
  - intros n p Hin. destruct (any_no_decay n) eqn:E.
    + apply (in_map snd) with (x := (n, p)), filter_In. now split.
    + apply (in_map snd) with (x := (n, p)), filter_In.
      split; [assumption|]. simpl. now rewrite E.
  - intros p Hin. apply in_map_iff in Hin as ([n p'] & <- & Hf).
    apply filter_In in Hf as [Hin Hn]. simpl in Hn.
    exists n. split; [assumption|]. now destruct (any_no_decay n).
  - intros p Hin. apply in_map_iff in Hin as ([n p'] & <- & Hf).
    apply filter_In in Hf as [Hin Hn]. simpl in Hn. eauto.
Qed.

(** ** More on the chat loop *)

Lemma in_lstrip (c : N) (s : pystr) : In c (PyStr.lstrip s) -> In c s.
Proof.
  induction s as [|d s IH]; simpl; [auto|].
  destruct (PyStr.isspace d); simpl; auto.
Qed.

Lemma in_strip (c : N) (s : pystr) : In c (PyStr.strip s) -> In c s.
Proof.
  unfold PyStr.strip, PyStr.rstrip. intros H.
  apply in_lstrip. apply in_rev in H. apply in_lstrip in H.
  now apply in_rev in H.
Qed.

Lemma lstrip_spaces (ws s : pystr) :
  all_space ws -> PyStr.lstrip (ws ++ s) = PyStr.lstrip s.
Proof.
  induction 1 as [|c ws Hc _ IH]; simpl; [reflexivity|]. now rewrite Hc.
Qed.

Lemma lstrip_stop (c : N) (s : pystr) :
  PyStr.isspace c = false -> PyStr.lstrip (c :: s) = c :: s.
Proof. intros H. simpl. now rewrite H. Qed.

(** White space around a text that starts and ends with other characters
    is what [strip] removes. *)
Lemma strip_spaces (ws1 ws2 s : pystr) (c d : N) :
  all_space ws1 -> all_space ws2 ->
  PyStr.isspace c = false -> PyStr.isspace d = false ->
  PyStr.strip (ws1 ++ (c :: s ++ [d]) ++ ws2) = c :: s ++ [d].
Proof.
  intros H1 H2 Hc Hd. unfold PyStr.strip, PyStr.rstrip.
  rewrite lstrip_spaces by assumption.
  assert (E1 : PyStr.lstrip ((c :: s ++ [d]) ++ ws2)
               = (c :: s ++ [d]) ++ ws2)
    by (apply lstrip_stop; assumption).
  rewrite E1, rev_app_distr, lstrip_spaces
    by (unfold all_space in *; now apply Forall_rev).
  assert (E2 : rev (c :: s ++ [d]) = d :: rev (c :: s)).
  { change (c :: s ++ [d]) with ((c :: s) ++ [d]).
    now rewrite rev_app_distr. }
  rewrite E2, lstrip_stop by assumption.
  rewrite <- E2. apply rev_involutive.
Qed.

Lemma py_getitem_raises {T} (l : list T) (i : Z) (e : exn) :
  py_getitem l i = Raise e -> e = IndexError.
Proof.
  unfold py_getitem. destruct (_ <? 0); [now intros [= <-]|].
  destruct (nth_error l _); [discriminate|now intros [= <-]].
Qed.

Lemma argmax_raises {L} (ltb : L -> L -> bool) (l : list L) (e : exn) :
  argmax ltb l = Raise e -> e = IndexError.
Proof. destruct l; [now intros [= <-]|discriminate]. Qed.

Lemma for_each_raises {T U} (body : T -> result U) (l : list T) (e : exn) :
  for_each body l = Raise e -> exists x, In x l /\ body x = Raise e.
Proof.
  induction l as [|x l IH]; simpl; [discriminate|].
  destruct (body x) as [y|e'] eqn:E; simpl.
  - destruct (for_each body l) as [ys|e']; simpl; [discriminate|].
    intros [= <-]. destruct (IH eq_refl) as (x' & Hin & Hx). eauto.
  - intros [= <-]. eauto.
Qed.

Section ChatMore.

Variable logit : Type.
Variable logit_ltb : logit -> logit -> bool.
Variable encode : pystr -> list Z.
Variable id_to_token : Z -> pystr.
Variable kogpt2 : list Z -> list (list logit).
Variable classify : pystr -> list logit.

Local Abbreviation gen_step :=
  (gen_step logit logit_ltb encode id_to_token kogpt2).
Local Abbreviation generate :=
  (generate logit logit_ltb encode id_to_token kogpt2).
Local Abbreviation chat_loop :=
  (chat_loop logit logit_ltb encode id_to_token kogpt2 classify).
Local Abbreviation chat :=
  (chat logit logit_ltb encode id_to_token kogpt2 classify).
Local Abbreviation sentence_predict :=
  (sentence_predict logit logit_ltb classify).

Lemma replace_no_mark (s : pystr) : ~ In word_mark (PyStr.replace 9601 32 s).
Proof.
  unfold PyStr.replace. rewrite in_map_iff. intros (c & H & _).
  destruct (N.eqb_spec c 9601); [discriminate|].
  unfold word_mark in H. congruence.
Qed.

Lemma generate_no_mark (fuel : nat) (q sent : pystr) :
  forall a reply,
    ~ In word_mark a ->
    generate fuel q sent a = Some (Ok reply) ->
    ~ In word_mark reply.
Proof.
  induction fuel as [|fuel IH]; intros a reply Ha; simpl; [discriminate|].
  destruct (gen_step q sent a) as [[|a']|e] eqn:E; try discriminate.
  - now intros [= <-].
  - apply IH. unfold gen_step in E.
    destruct (gen_token _ _ _ _ _ _ _ _) as [gen|]; [|discriminate].
    unfold bind in E.
    destruct (PyStr.eqb gen EOS); [discriminate|]. injection E as <-.
    rewrite in_app_iff. intros [H|H]; [auto|].
    now apply replace_no_mark in H.
Qed.

Lemma chat_loop_no_mark (fuel : nat) (sent : pystr)
  (inputs : list (pystr * pystr)) :
  forall st tr,
    Forall (fun r => ~ In word_mark r) (trace_replies tr) ->
    Forall (fun r => ~ In word_mark r)
           (replies (chat_loop fuel sent inputs st tr)).
Proof.
  induction inputs as [|[q_temp now] inputs IH]; intros st tr Htr; simpl.
  - exact Htr.
  - assert (Happ : forall evs,
              trace_replies evs = [] ->
              Forall (fun r => ~ In word_mark r) (trace_replies (tr ++ evs))).
    { intros evs H. rewrite trace_replies_app, H, app_nil_r. exact Htr. }
    destruct (PyStr.eqb (PyStr.strip q_temp) quit).
    + destruct (emotion_predict_result _ _ _); unfold replies; simpl;
        [now apply Happ|exact Htr].
    + destruct (sentence_predict q_temp (num st)) as [[e k]|]; [|exact Htr].
      destruct (generate fuel (PyStr.strip q_temp) sent []) as [[a|x]|] eqn:G;
        try (unfold replies; simpl; now apply Happ).
      apply IH. rewrite trace_replies_app. apply Forall_app. split.
      * now apply Happ.
      * simpl. constructor; [|constructor]. intros H. apply in_strip in H.
        revert H. eapply generate_no_mark; [|exact G]. simpl. tauto.
Qed.

(** X10. No reply that the chat loop shows contains the word mark U+2581
    of the tokenizer: every token is appended with its marks turned into
    spaces. *)
Theorem replies_have_no_word_mark (fuel : nat) (sent : pystr)
  (inputs : list (pystr * pystr)) :
  (forall q reply,
      generate fuel q sent [] = Some (Ok reply) -> ~ In word_mark reply) /\
  Forall (fun r => ~ In word_mark r) (replies (chat fuel sent inputs)).
Proof.
  split.
  - intros q reply. apply generate_no_mark. simpl. tauto.
  - apply chat_loop_no_mark. constructor.
Qed.

Lemma emotion_predict_result_errors (x : list pystr) (y : list Z) (n : Z)
  (e : exn) :
  emotion_predict_result x y n = Raise e ->
  (e = ValueError /\ length x <> length y) \/ e = IndexError.
Proof.
  unfold emotion_predict_result.
  destruct (Z.eqb_spec (Py.len x) (Py.len y)) as [_|Hne].
  - intros H. right. revert H. generalize 0.
    induction y as [|k y IH]; intros i; simpl; [discriminate|].
    unfold py_getitem at 1.
    destruct (_ <? 0).
    + simpl. now intros [= <-].
    + destruct (nth_error emo_label _); simpl; [|now intros [= <-]].
      specialize (IH (i + 1)).
      destruct (for_each _ (enumerate_from (i + 1) y)); simpl;
        [discriminate|].
      intros [= <-]. apply IH. reflexivity.
  - intros [= <-]. left. split; [reflexivity|].
    unfold Py.len in Hne. lia.
Qed.

Lemma sentence_predict_raises (s : pystr) (n : Z) (e : exn) :
  sentence_predict s n = Raise e -> e = IndexError.
Proof.
  unfold sentence_predict.
  destruct (for_each _ _) as [y|e'] eqn:E; simpl.
  - destruct (argmax logit_ltb (classify s)) as [k|e'] eqn:A; simpl;
      [discriminate|].
    intros [= <-]. eapply argmax_raises, A.
  - intros [= <-].
    apply for_each_raises in E as (i & _ & E).
    eapply py_getitem_raises, E.
Qed.

Lemma gen_step_raises (q sent a : pystr) (e : exn) :
  gen_step q sent a = Raise e -> e = IndexError.
Proof.
  unfold gen_step, gen_token.
  destruct (for_each _ _) as [ids|e'] eqn:E; simpl.
  - destruct (last_item _) as [gen|e'] eqn:L; simpl.
    + destruct (PyStr.eqb gen EOS); discriminate.
    + intros [= <-]. unfold last_item in L.
      destruct (convert_ids_to_tokens _ _) as [s|l].
      * destruct (py_getitem s (-1)) eqn:G; [discriminate|].
        injection L as <-. eapply py_getitem_raises, G.
      * eapply py_getitem_raises, L.
  - intros [= <-].
    apply for_each_raises in E as (row & _ & E).
    eapply argmax_raises, E.
Qed.

Lemma generate_raises (fuel : nat) (q sent : pystr) :
  forall a e,
    generate fuel q sent a = Some (Raise e) -> e = IndexError.
Proof.
  induction fuel as [|fuel IH]; intros a e; simpl; [discriminate|].
  destruct (gen_step q sent a) as [[|a']|e'] eqn:E; try discriminate.
  - apply IH.
  - intros [= <-]. eapply gen_step_raises, E.
Qed.

Lemma chat_loop_invariant (fuel : nat) (sent : pystr)
  (inputs : list (pystr * pystr)) :
  forall st tr,
    num st = Py.len (time_list st) ->
    length (time_list st) = length (emo_list st) ->
    let o := chat_loop fuel sent inputs st tr in
    num (final_state o) = Py.len (time_list (final_state o)) /\
    length (time_list (final_state o)) = length (emo_list (final_state o)).
Proof.
  induction inputs as [|[q_temp now] inputs IH]; intros st tr Hn Hl;
    cbv zeta; simpl.
  - now split.
  - destruct (PyStr.eqb (PyStr.strip q_temp) quit).
    + destruct (emotion_predict_result _ _ _) as [t|e]; simpl; now split.
    + destruct (sentence_predict q_temp (num st)) as [[e k]|e].
      * assert (Hn1 : num st + 1
                      = Py.len (time_list st ++ [Py.slice_to now 8]))
          by (rewrite len_app; change (Py.len [_]) with 1; lia).
        assert (Hl1 : length (time_list st ++ [Py.slice_to now 8])
                      = length (emo_list st ++ [k]))
          by (rewrite !length_app; simpl; lia).
        destruct (generate fuel (PyStr.strip q_temp) sent [])
          as [[a|x]|].
        -- apply IH; assumption.
        -- simpl. now split.
        -- simpl. now split.
      * simpl. now split.
Qed.

(** X11. Whatever is typed, and however the session ends, [num] is the
    length of [time_list] and of [emo_list] when the chat loop stops: the
    three are kept in step, so the trajectory is never drawn from lists of
    different lengths and [emotion_predict_result] on them does not raise
    the [ValueError] of that case. *)
Theorem chat_state_invariant (fuel : nat) (sent : pystr)
  (inputs : list (pystr * pystr)) :
  let st := final_state (chat fuel sent inputs) in
  num st = Py.len (time_list st) /\
  num st = Py.len (emo_list st) /\
  emotion_predict_result (time_list st) (emo_list st) (num st)
  <> Raise ValueError.
Proof.
  cbv zeta.
  destruct (chat_loop_invariant fuel sent inputs
              {| num := 0; time_list := []; emo_list := [] |} []
              eq_refl eq_refl) as (Hn & Hl).
  fold (chat fuel sent inputs) in Hn, Hl.
  split; [exact Hn|]. split.
  - rewrite Hn. unfold Py.len. now rewrite Hl.
  - intros E.
    apply emotion_predict_result_errors in E as [[_ H]|H];
      [contradiction|discriminate].
Qed.
End ChatMore.

Section ChatSessionMore.

Variable logit : Type.
Variable logit_ltb : logit -> logit -> bool.
Variable encode : pystr -> list Z.
Variable id_to_token : Z -> pystr.
Variable kogpt2 : list Z -> list (list logit).
Variable classify : pystr -> list logit.

Local Abbreviation generate :=
  (generate logit logit_ltb encode id_to_token kogpt2).
Local Abbreviation chat_loop :=
  (chat_loop logit logit_ltb encode id_to_token kogpt2 classify).
Local Abbreviation chat :=
  (chat logit logit_ltb encode id_to_token kogpt2 classify).
Local Abbreviation sentence_predict :=
  (sentence_predict logit logit_ltb classify).

Lemma chat_loop_stops_at_quit (fuel : nat) (sent : pystr)
  (lastq : pystr * pystr) (rest rest' : list (pystr * pystr)) :
  PyStr.strip (fst lastq) = quit ->
  forall us st tr,
    chat_loop fuel sent (us ++ lastq :: rest) st tr
    = chat_loop fuel sent (us ++ lastq :: rest') st tr.
Proof.
  intros Hq. induction us as [|[q_temp now] us IH]; intros st tr.
  - destruct lastq as [ql nl]. simpl in *.
    now rewrite Hq, (proj2 (eqb_eq quit quit) eq_refl).
  - simpl. destruct (PyStr.eqb (PyStr.strip q_temp) quit); [reflexivity|].
    destruct (sentence_predict q_temp (num st)) as [[e k]|]; [|reflexivity].
    destruct (generate fuel (PyStr.strip q_temp) sent []) as [[a|x]|];
      try reflexivity.
    apply IH.
Qed.

(** X12. Nothing typed after a line that strips to [quit] is read: two
    inputs that agree up to such a line give the same session. *)
Theorem chat_stops_at_quit (fuel : nat) (sent : pystr)
  (us : list (pystr * pystr)) (lastq : pystr * pystr)
  (rest rest' : list (pystr * pystr)) :
  PyStr.strip (fst lastq) = quit ->
  chat fuel sent (us ++ lastq :: rest) = chat fuel sent (us ++ lastq :: rest').
Proof. intros Hq. now apply chat_loop_stops_at_quit. Qed.

Lemma saved_trajectories_app (t1 t2 : list event) :
  saved_trajectories (t1 ++ t2)
  = saved_trajectories t1 ++ saved_trajectories t2.
Proof. apply flat_map_app. Qed.

Lemma chat_loop_trajectory (fuel : nat) (sent : pystr)
  (inputs : list (pystr * pystr)) :
  forall st tr,
    saved_trajectories tr = [] ->
    match chat_loop fuel sent inputs st tr with
    | Finished st' trace =>
        exists trace' t,
          trace = trace' ++ [SavedTrajectory t] /\
          saved_trajectories trace' = [] /\
          emotion_predict_result (time_list st') (emo_list st') (num st')
          = Ok t /\
          Exists (fun u => PyStr.strip (fst u) = quit) inputs
    | Raised _ _ trace | Diverged _ trace => saved_trajectories trace = []
    end.
Proof.
  induction inputs as [|[q_temp now] inputs IH]; intros st tr Htr; simpl.
  - exact Htr.
  - destruct (PyStr.eqb (PyStr.strip q_temp) quit) eqn:Q.
    + destruct (emotion_predict_result _ _ _) as [t|e] eqn:E; [|exact Htr].
      exists tr, t. repeat split; try assumption.
      apply Exists_cons_hd. now apply eqb_eq.
    + destruct (sentence_predict q_temp (num st)) as [[e k]|]; [|exact Htr].
      assert (H1 : saved_trajectories
                     (tr ++ [ShownProbabilities q_temp (num st); Printed e])
                   = []) by now rewrite saved_trajectories_app, Htr.
      destruct (generate fuel (PyStr.strip q_temp) sent []) as [[a|x]|];
        try exact H1.
      match goal with
      | |- context [chat_loop fuel sent inputs ?st1 ?tr1] =>
          specialize (IH st1 tr1); destruct (chat_loop fuel sent inputs st1 tr1)
      end.
      * destruct IH as (trace' & t & -> & H2 & H3 & H4).
        { now rewrite saved_trajectories_app, H1. }
        exists trace', t. repeat split; try assumption.
        now apply Exists_cons_tl.
      * apply IH. now rewrite saved_trajectories_app, H1.
      * apply IH. now rewrite saved_trajectories_app, H1.
Qed.

(** X13. A session saves a trajectory exactly when it finishes: then it is
    the last event, the only one of its kind, drawn from the final lists,
    and some line typed strips to [quit]; a session that stops otherwise
    saves none. *)
Theorem chat_saves_one_trajectory (fuel : nat) (sent : pystr)
  (inputs : list (pystr * pystr)) :
  match chat fuel sent inputs with
  | Finished st trace =>
      exists trace' t,
        trace = trace' ++ [SavedTrajectory t] /\
        saved_trajectories trace' = [] /\
        emotion_predict_result (time_list st) (emo_list st) (num st) = Ok t /\
        Exists (fun u => PyStr.strip (fst u) = quit) inputs
  | Raised _ _ trace | Diverged _ trace => saved_trajectories trace = []
  end.
Proof. now apply chat_loop_trajectory. Qed.

Lemma chat_loop_reply_count (fuel : nat) (sent : pystr)
  (inputs : list (pystr * pystr)) :
  forall st tr,
    num st = Py.len (trace_replies tr) ->
    let o := chat_loop fuel sent inputs st tr in
    Py.len (replies o) <= num (final_state o) <= Py.len (replies o) + 1 /\
    (forall st' tr', o = Finished st' tr' -> num st' = Py.len (replies o)) /\
    (forall st' tr', o = Raised EOFError st' tr' ->
       num st' = Py.len (replies o)).
Proof.
  induction inputs as [|[q_temp now] inputs IH]; intros st tr Hn;
    cbv zeta; simpl.
  - unfold replies. simpl. repeat split; try lia.
    + discriminate.
    + now intros st' tr' [= <- <-].
  - assert (Happ : forall evs, trace_replies evs = [] ->
              Py.len (trace_replies (tr ++ evs)) = num st).
    { intros evs H. now rewrite trace_replies_app, H, app_nil_r. }
    destruct (PyStr.eqb (PyStr.strip q_temp) quit).
    + destruct (emotion_predict_result _ _ _) as [t|e] eqn:E;
        unfold replies; simpl.
      * rewrite Happ by reflexivity. repeat split; try lia.
        -- now intros st' tr' [= <- <-].
        -- discriminate.
      * repeat split; try lia; [discriminate|].
        now intros st' tr' [= _ <- <-].
    + destruct (sentence_predict q_temp (num st)) as [[e k]|e] eqn:E.
      * destruct (generate fuel (PyStr.strip q_temp) sent [])
          as [[a|x]|] eqn:G.
        -- apply IH. cbn [num].
           rewrite trace_replies_app, len_app, Happ by reflexivity.
           reflexivity.
        -- unfold replies. simpl. rewrite Happ by reflexivity.
           repeat split; try lia; [discriminate|].
           intros st' tr' [= Hx _ _]. subst x.
           apply generate_raises in G. discriminate.
        -- unfold replies. simpl. rewrite Happ by reflexivity.
           repeat split; try lia; discriminate.
      * unfold replies. simpl. repeat split; try lia; [discriminate|].
        now intros st' tr' [= _ <- <-].
Qed.

(** X14. The number of utterances recorded is the number of replies shown,
    or one more when the session stops while a reply is generated; they
    are equal when the session finishes or the input ends. *)
Theorem chat_reply_count (fuel : nat) (sent : pystr)
  (inputs : list (pystr * pystr)) :
  let o := chat fuel sent inputs in
  Py.len (replies o) <= num (final_state o) <= Py.len (replies o) + 1 /\
  (forall st tr, o = Finished st tr -> num st = Py.len (replies o)) /\
  (forall st tr, o = Raised EOFError st tr -> num st = Py.len (replies o)).
Proof. now apply chat_loop_reply_count. Qed.

(** X15. A first line that is [quit] with any white space around it ends
    the session at once, with the empty trajectory saved as figure 0. *)
Theorem chat_quit_first (fuel : nat) (sent ws1 ws2 now : pystr)
  (rest : list (pystr * pystr)) :
  all_space ws1 -> all_space ws2 ->
  chat fuel sent ((ws1 ++ quit ++ ws2, now) :: rest)
  = Finished {| num := 0; time_list := []; emo_list := [] |}
      [SavedTrajectory
         {| line_x := []; line_y := []; texts := []; fig_num := 0 |}].
Proof.
  intros H1 H2.
  assert (E : PyStr.strip (ws1 ++ quit ++ ws2) = quit)
    by exact (strip_spaces ws1 ws2 [117; 105]%N 113%N 116%N H1 H2
                eq_refl eq_refl).
  unfold chat. remember (ws1 ++ quit ++ ws2) as line. simpl.
  now rewrite E.
Qed.

End ChatSessionMore.

(** ** More on the sentiment classifier *)

Section ArgmaxOrder.

Variable logit : Type.
Variable logit_ltb : logit -> logit -> bool.

(** [<] is a strict weak order, as on numbers. *)
Hypothesis ltb_asym :
  forall a b, logit_ltb a b = true -> logit_ltb b a = false.
Hypothesis ltb_split :
  forall a b c, logit_ltb a b = true ->
                logit_ltb a c = true \/ logit_ltb c b = true.

Lemma argmax_from_max (l : list logit) :
  forall (seen : list logit) best_i best,
    nth_error seen best_i = Some best ->
    (forall y, In y seen -> logit_ltb best y = false) ->
    (forall j y, (j < best_i)%nat -> nth_error seen j = Some y ->
                 logit_ltb y best = true) ->
    let k := argmax_from logit_ltb best_i best (length seen) l in
    exists x,
      nth_error (seen ++ l) k = Some x /\
      (forall y, In y (seen ++ l) -> logit_ltb x y = false) /\
      (forall j y, (j < k)%nat -> nth_error (seen ++ l) j = Some y ->
                   logit_ltb y x = true).
Proof.
  induction l as [|x l IH]; intros seen best_i best Hb Hmax Hfirst;
    cbv zeta; simpl.
  - rewrite app_nil_r. exists best. auto.
  - assert (Hlen : (best_i < length seen)%nat)
      by (apply nth_error_Some; congruence).
    replace (seen ++ x :: l) with ((seen ++ [x]) ++ l)
      by now rewrite <- app_assoc.
    replace (S (length seen)) with (length (seen ++ [x]))
      by (rewrite length_app; simpl; lia).
    destruct (logit_ltb best x) eqn:E.
    + assert (Hx : forall y, In y seen -> logit_ltb y x = true).
      { intros y Hy. destruct (ltb_split best x y E) as [H|H]; [|exact H].
        rewrite (Hmax y Hy) in H. discriminate. }
      apply (IH (seen ++ [x]) (length seen) x).
      * now rewrite nth_error_app2, Nat.sub_diag by lia.
      * intros y Hy. apply in_app_iff in Hy as [Hy|[<-|[]]].
        -- apply ltb_asym, Hx, Hy.
        -- destruct (logit_ltb x x) eqn:Exx; [|reflexivity].
           now rewrite (ltb_asym x x Exx) in Exx.
      * intros j y Hj Hy. rewrite nth_error_app1 in Hy by assumption.
        apply Hx. eapply nth_error_In, Hy.
    + apply IH.
      * rewrite nth_error_app1 by assumption. exact Hb.
      * intros y Hy. apply in_app_iff in Hy as [Hy|[<-|[]]]; auto.
      * intros j y Hj Hy. rewrite nth_error_app1 in Hy by lia. eauto.
Qed.

(** The argmax of a row is the index of an entry that none exceeds, and
    every entry before it is smaller. *)
Lemma argmax_first_max (l : list logit) (k : Z) :
  argmax logit_ltb l = Ok k ->
  exists x,
    nth_error l (Z.to_nat k) = Some x /\
    (forall y, In y l -> logit_ltb x y = false) /\
    (forall j y, (j < Z.to_nat k)%nat -> nth_error l j = Some y ->
                 logit_ltb y x = true).
Proof.
  destruct l as [|x0 l]; simpl; [discriminate|]. intros [= <-].
  rewrite Nat2Z.id.
  apply (argmax_from_max l [x0] 0%nat x0).
  - reflexivity.
  - intros y [<-|[]]. destruct (logit_ltb x0 x0) eqn:E; [|reflexivity].
    now rewrite (ltb_asym x0 x0 E) in E.
  - intros j y Hj. lia.
Qed.

Variable classify : pystr -> list logit.

(** X16. The class that [sentence_predict] returns has a logit that no
    other class exceeds, and is the first such class. *)
Theorem sentence_predict_first_max (s : pystr) (n : Z) (e : emotion) (k : Z) :
  sentence_predict logit logit_ltb classify s n = Ok (e, k) ->
  exists x,
    nth_error (classify s) (Z.to_nat k) = Some x /\
    (forall y, In y (classify s) -> logit_ltb x y = false) /\
    (forall j y, (j < Z.to_nat k)%nat -> nth_error (classify s) j = Some y ->
                 logit_ltb y x = true).
Proof.
  unfold sentence_predict.
  destruct (for_each _ _); simpl; [|discriminate].
  destruct (argmax logit_ltb (classify s)) as [k'|] eqn:A; simpl;
    [|discriminate].
  intros [= _ <-]. now apply argmax_first_max.
Qed.

End ArgmaxOrder.

Lemma for_each_ok_in {T U} (body : T -> result U) (l : list T)
  (ys : list U) (x : T) :
  for_each body l = Ok ys -> In x l -> exists y, body x = Ok y.
Proof.
  revert ys. induction l as [|x' l IH]; intros ys; simpl; [tauto|].
  destruct (body x') as [y|] eqn:E; simpl; [|discriminate].
  destruct (for_each body l) as [ys'|]; simpl; [|discriminate].
  intros _ [<-|Hin]; [eauto|]. eapply IH; eauto.
Qed.

Section ClassifierMore.

Variable logit : Type.
Variable logit_ltb : logit -> logit -> bool.
Variable classify : pystr -> list logit.

Local Abbreviation sentence_predict :=
  (sentence_predict logit logit_ltb classify).

(** X17. [sentence_predict] raises [IndexError] when the classifier gives
    fewer than seven logits; otherwise it returns the index of one of the
    logits, with its label when the index is at most 6 and bare when it
    is 7 or more. *)
Theorem sentence_predict_cases (s : pystr) (n : Z) :
  ((length (classify s) < 7)%nat ->
   sentence_predict s n = Raise IndexError) /\
  ((7 <= length (classify s))%nat ->
   exists e k,
     sentence_predict s n = Ok (e, k) /\
     0 <= k < Py.len (classify s) /\
     (k <= 6 -> exists name,
        e = EmoStr name /\ py_getitem emo_label k = Ok name) /\
     (7 <= k -> e = EmoIndex k)).
Proof.
  unfold sentence_predict. split.
  - intros Hlt.
    destruct (for_each (py_getitem (classify s)) [0; 1; 2; 3; 4; 5; 6])
      as [y|e] eqn:E; simpl.
    + exfalso.
      destruct (for_each_ok_in _ _ _ 6 E) as [v Hv]; [simpl; tauto|].
      destruct (py_getitem_cases (classify s) 6) as [[Hr _]|[_ Hx]];
        [unfold Py.len in Hr; lia|rewrite Hx in Hv; discriminate].
    + apply for_each_raises in E as (i & _ & E).
      now rewrite (py_getitem_raises _ _ _ E).
  - intros H7. destruct (bars_ok _ (classify s) H7) as [y ->].
    unfold bind at 1.
    destruct (argmax_range logit logit_ltb (classify s)) as [k [-> Hk]].
    { destruct (classify s); simpl in H7; [lia|congruence]. }
    unfold bind. eexists _, k. split; [reflexivity|]. split; [exact Hk|].
    split.
    + intros Hle.
      assert (Hcases : k = 0 \/ k = 1 \/ k = 2 \/ k = 3 \/ k = 4 \/ k = 5
                       \/ k = 6) by lia.
      repeat (destruct Hcases as [->|Hcases];
              [eexists; split; reflexivity|]).
      subst k. eexists. split; reflexivity.
    + intros Hge.
      repeat match goal with
             | |- context [k =? ?c] =>
                 destruct (Z.eqb_spec k c); [lia|]
             end.
      reflexivity.
Qed.

Lemma annotate_cases (y : list Z) :
  forall i,
    (Forall (fun k => -7 <= k <= 6) y /\
     exists ts,
       for_each (fun '(i, e) => s <- py_getitem emo_label e ;; Ok (i, e, s))
                (enumerate_from i y) = Ok ts /\
       map (fun t => fst t) ts = enumerate_from i y) \/
    (~ Forall (fun k => -7 <= k <= 6) y /\
     for_each (fun '(i, e) => s <- py_getitem emo_label e ;; Ok (i, e, s))
              (enumerate_from i y) = Raise IndexError).
Proof.
  induction y as [|k y IH]; intros i; simpl.
  - left. split; [constructor|]. now exists [].
  - destruct (py_getitem_cases emo_label k) as [[Hr [s ->]]|[Hr ->]]; simpl.
    + change (Py.len emo_label) with 7 in Hr.
      destruct (IH (i + 1)) as [[Hy (ts & -> & Hts)]|[Hy ->]]; simpl.
      * left. split; [constructor; [lia|assumption]|].
        eexists. split; [reflexivity|]. simpl. now rewrite Hts.
      * right. split; [|reflexivity]. intros H. inversion H. auto.
    + right. split; [|reflexivity]. change (Py.len emo_label) with 7 in Hr.
      intros H. inversion H. lia.
Qed.

(** X18. [emotion_predict_result] draws the trajectory exactly when there
    are as many times as emotions and every emotion is an index of
    [emo_label], from -7 to 6; then every point has its text, in order.
    Lists of different lengths raise [ValueError], an index out of range
    [IndexError]. *)
Theorem emotion_predict_result_cases (x : list pystr) (y : list Z) (n : Z) :
  ((exists t, emotion_predict_result x y n = Ok t) <->
   length x = length y /\ Forall (fun k => -7 <= k <= 6) y) /\
  (forall t, emotion_predict_result x y n = Ok t ->
     line_x t = x /\ line_y t = y /\ fig_num t = n /\
     map (fun p => fst p) (texts t) = enumerate_from 0 y) /\
  (length x <> length y -> emotion_predict_result x y n = Raise ValueError) /\
  (length x = length y -> ~ Forall (fun k => -7 <= k <= 6) y ->
   emotion_predict_result x y n = Raise IndexError).
Proof.
  unfold emotion_predict_result.
  destruct (Z.eqb_spec (Py.len x) (Py.len y)) as [Heq|Hne].
  - assert (Hlen : length x = length y) by (unfold Py.len in Heq; lia).
    destruct (annotate_cases y 0) as [[Hy (ts & -> & Hts)]|[Hy ->]];
      unfold bind.
    + split; [split; [auto|eauto]|]. split; [|split; [tauto|tauto]].
      intros t [= <-]. auto.
    + split; [split; [intros [t H]; discriminate|tauto]|].
      split; [discriminate|]. split; [tauto|reflexivity].
  - assert (Hlen : length x <> length y) by (unfold Py.len in Hne; lia).
    split; [split; [intros [t H]; discriminate|tauto]|].
    split; [discriminate|]. split; [reflexivity|tauto].
Qed.

End ClassifierMore.

(** ** More on the warmup steps *)

Lemma binary_round_aux_not_nan (s : bool) (m : positive) (e : Z) :
  binary_round_aux PyFloat.prec PyFloat.emax s (Zpos m) e loc_Exact
  <> S754_nan.
Proof.
  unfold binary_round_aux.
  destruct (shr_fexp_spec (Zpos m) e ltac:(lia))
    as (mrs1 & k1 & -> & Hk1 & Em1 & _ & _).
  assert (H1 : 0 <= shr_m mrs1).
  { rewrite Em1. apply Z.div_pos; [lia|]. apply Z.pow_pos_nonneg; lia. }
  assert (H2 : 0 <= round_nearest_even (shr_m mrs1)
                      (loc_of_shr_record mrs1)).
  { destruct (round_nearest_even_spec (shr_m mrs1)
                (loc_of_shr_record mrs1)) as [->|[-> _]]; lia. }
  destruct (shr_fexp_spec _ (e + k1) H2)
    as (mrs2 & k2 & -> & Hk2 & Em2 & _ & _).
  assert (H3 : 0 <= shr_m mrs2).
  { rewrite Em2. apply Z.div_pos; [lia|]. apply Z.pow_pos_nonneg; lia. }
  destruct (shr_m mrs2); try discriminate; [|lia].
  destruct (_ <=? _); discriminate.
Qed.

(** [float(n)], when it does not overflow, is a zero or a finite double. *)
Lemma of_int_finite (n : Z) (y : spec_float) :
  PyFloat.of_int n = Ok y ->
  (exists s, y = S754_zero s) \/ exists s m e, y = S754_finite s m e.
Proof.
  unfold PyFloat.of_int, binary_normalize.
  assert (Hround : forall s p,
            match binary_round PyFloat.prec PyFloat.emax s p 0 with
            | S754_infinity _ => Raise OverflowError
            | x => Ok x
            end = Ok y ->
            (exists s, y = S754_zero s) \/
            exists s m e, y = S754_finite s m e).
  { intros s p. unfold binary_round.
    destruct (shl_align _ _ _) as [mz ez].
    pose proof (binary_round_aux_not_nan s mz ez) as Hn.
    destruct (binary_round_aux _ _ _ _ _ _) as [s'|s'| |s' m e];
      try discriminate; try contradiction; intros [= <-]; eauto. }
  destruct n as [|p|p]; [|apply Hround|apply Hround].
  intros [= <-]. eauto.
Qed.

(** X19. A [warmup_ratio] that is not a number, or is infinite, never
    gives a step count: [configure_optimizers] stops on [ValueError] or
    [OverflowError]. *)
Theorem warmup_steps_not_finite (num_batches max_epochs : Z)
  (warmup_ratio : spec_float) :
  warmup_ratio = S754_nan \/ (exists s, warmup_ratio = S754_infinity s) ->
  warmup_steps num_batches max_epochs warmup_ratio = Raise ValueError \/
  warmup_steps num_batches max_epochs warmup_ratio = Raise OverflowError.
Proof.
  intros Hr. unfold warmup_steps, PyFloat.int_mul.
  destruct (PyFloat.of_int (num_batches * max_epochs)) as [y|e] eqn:E.
  - unfold bind.
    destruct (of_int_finite _ _ E) as [[s ->]|(s & m & e & ->)];
      destruct Hr as [->|[s' ->]]; simpl; auto.
  - unfold bind. unfold PyFloat.of_int in E.
    destruct (binary_normalize _ _ _ _ _); try discriminate.
    injection E as <-. now right.
Qed.

(** X20. No training step, or a [warmup_ratio] of zero, gives no warmup
    step: with a finite ratio and a product of batches and epochs that is
    0 the result is (0, 0), and with a ratio of zero the result is 0 for
    every number of steps that a double can hold. *)
Theorem warmup_steps_zero (num_batches max_epochs : Z)
  (warmup_ratio : spec_float) :
  (num_batches * max_epochs = 0 ->
   (exists s, warmup_ratio = S754_zero s) \/
   (exists s m e, warmup_ratio = S754_finite s m e) ->
   warmup_steps num_batches max_epochs warmup_ratio = Ok (0, 0)) /\
  (forall s y,
     warmup_ratio = S754_zero s ->
     PyFloat.of_int (num_batches * max_epochs) = Ok y ->
     warmup_steps num_batches max_epochs warmup_ratio
     = Ok (0, num_batches * max_epochs)).
Proof.
  unfold warmup_steps, PyFloat.int_mul. split.
  - intros -> [[s ->]|(s & m & e & ->)]; reflexivity.
  - intros s y -> E. rewrite E. unfold bind.
    destruct (of_int_finite _ _ E) as [[s' ->]|(s' & m & e & ->)];
      reflexivity.
Qed.

(** ** The further properties on sample values *)

Lemma getitem_token_ids_witness :
  getitem char_tokenize first_code_point 3 8 sample_turn
  = Ok (Sample.token_ids, Sample.mask, Sample.labels_ids) /\
  exists dropped q a cut,
    char_tokenize (U_TKN ++ Q sample_turn ++ SENT ++ label sample_turn)
    = dropped ++ q /\
    char_tokenize (S_TKN ++ A sample_turn ++ EOS) = a ++ cut /\
    Sample.token_ids
    = map first_code_point q ++ map first_code_point a
        ++ repeat 3 (Z.to_nat 8 - length q - length a).
Proof.
  split; [reflexivity|].
  destruct (getitem_token_ids char_tokenize first_code_point 3 8 sample_turn
              Sample.token_ids Sample.mask Sample.labels_ids eq_refl)
    as (dropped & q & a & cut & Hq & Ha & _ & Ht).
  exists dropped, q, a, cut. auto.
Defined.

Lemma getitem_alignment_witness :
  getitem char_tokenize first_code_point 3 8 sample_turn
  = Ok (Sample.token_ids, Sample.mask, Sample.labels_ids) /\
  (nth_error Sample.token_ids 1 = Some 49 /\
   nth_error Sample.mask 1 = Some 0 /\
   nth_error Sample.labels_ids 1 = Some 60) /\
  (nth_error Sample.token_ids 5 = Some 115 /\
   nth_error Sample.mask 5 = Some 1) /\
  (nth_error Sample.labels_ids 4 = Some 115 /\
   nth_error Sample.labels_ids 4 = nth_error Sample.token_ids 5) /\
  nth_error Sample.labels_ids 7 = Some 3.
Proof.
  split; [reflexivity|].
  pose proof (getitem_alignment char_tokenize first_code_point 3 8
                sample_turn Sample.token_ids Sample.mask Sample.labels_ids
                eq_refl) as H.
  cbv zeta in H. destruct H as (_ & Hq & Ha & Hn & Hl & _).
  split; [exact (Hq 1%nat [49]%N eq_refl)|].
  split; [exact (Ha 1%nat [115]%N eq_refl)|].
  split; [exact (Hn 0%nat [115]%N eq_refl)|].
  apply Hl. vm_compute. lia.
Defined.

Lemma getitem_mask_sum_witness :
  getitem char_tokenize first_code_point 3 8 sample_turn
  = Ok (Sample.token_ids, Sample.mask, Sample.labels_ids) /\
  1 <= sum_list Sample.mask.
Proof.
  split; [reflexivity|].
  apply (getitem_mask_sum char_tokenize first_code_point 3 8 sample_turn
           Sample.token_ids Sample.mask Sample.labels_ids eq_refl);
    [lia|discriminate].
Defined.

Lemma fit_idempotent_witness :
  let f := {| q_toked := Sample.q_toked; q_len := 3;
              a_toked := [S_TKN; [111]%N]; a_len := 2 |} in
  fit 5 Sample.q_toked Sample.a_toked = Ok f /\
  fit 5 (q_toked f) (a_toked f) = Ok f.
Proof.
  intros f. split; [reflexivity|].
  exact (fit_idempotent 5 Sample.q_toked Sample.a_toked f eq_refl).
Defined.

Lemma dataset_getitem_index_witness :
  2 <= 8 /\
  ((exists r,
       dataset_getitem char_tokenize first_code_point 3 [sample_turn] 8 (-1)
       = Ok r) <->
   - Py.len [sample_turn] <= -1 < Py.len [sample_turn]) /\
  dataset_getitem char_tokenize first_code_point 3 [sample_turn] 8 1
  = Raise IndexError.
Proof.
  assert (H : 2 <= 8) by lia. split; [exact H|]. split.
  - exact (proj1 (dataset_getitem_index char_tokenize first_code_point 3
                    [sample_turn] 8 (-1) H)).
  - apply (dataset_getitem_index char_tokenize first_code_point 3
             [sample_turn] 8 1 H).
    unfold Py.len. simpl. lia.
Defined.

Lemma fetch_batch_shapes_witness :
  2 <= 8 /\
  Forall (fun idx => - Py.len [sample_turn] <= idx < Py.len [sample_turn])
         [0; -1] /\
  exists d m l,
    fetch_batch char_tokenize first_code_point 3 [sample_turn] 8 [0; -1]
    = Ok (d, m, l) /\
    length d = 2%nat /\ length m = 2%nat /\ length l = 2%nat /\
    Forall (fun row => Py.len row = 8) d.
Proof.
  assert (H : 2 <= 8) by lia.
  assert (F : Forall (fun idx => - Py.len [sample_turn] <= idx
                                 < Py.len [sample_turn]) [0; -1])
    by (repeat constructor; unfold Py.len; simpl; lia).
  split; [exact H|]. split; [exact F|].
  destruct (fetch_batch_shapes char_tokenize first_code_point 3
              [sample_turn] 8 [0; -1] H F)
    as (d & m & l & E & Hd & Hm & Hl & Fd & _).
  exists d, m, l. auto.
Defined.

Lemma chat_stops_at_quit_witness :
  PyStr.strip (fst (Toy.quit_spaced, Toy.noon)) = quit /\
  chat Z Z.ltb Toy.encode Toy.id_to_token Toy.kogpt2 Toy.classify_happy 5
    Toy.zero ([(Toy.hi, Toy.noon)] ++ (Toy.quit_spaced, Toy.noon)
              :: [(Toy.hi, Toy.noon)])
  = chat Z Z.ltb Toy.encode Toy.id_to_token Toy.kogpt2 Toy.classify_happy 5
      Toy.zero ([(Toy.hi, Toy.noon)] ++ (Toy.quit_spaced, Toy.noon) :: []).
Proof.
  split; [reflexivity|].
  exact (chat_stops_at_quit Z Z.ltb Toy.encode Toy.id_to_token Toy.kogpt2
           Toy.classify_happy 5 Toy.zero [(Toy.hi, Toy.noon)]
           (Toy.quit_spaced, Toy.noon) [(Toy.hi, Toy.noon)] [] eq_refl).
Defined.

Lemma chat_quit_first_witness :
  all_space [32; 9]%N /\ all_space [13; 10]%N /\
  chat Z Z.ltb Toy.encode Toy.id_to_token Toy.kogpt2 Toy.classify_happy 5
    Toy.zero (([32; 9]%N ++ quit ++ [13; 10]%N, Toy.noon)
              :: [(Toy.hi, Toy.noon)])
  = Finished {| num := 0; time_list := []; emo_list := [] |}
      [SavedTrajectory
         {| line_x := []; line_y := []; texts := []; fig_num := 0 |}].
Proof.
  assert (H1 : all_space [32; 9]%N) by (repeat constructor).
  assert (H2 : all_space [13; 10]%N) by (repeat constructor).
  split; [exact H1|]. split; [exact H2|].
  exact (chat_quit_first Z Z.ltb Toy.encode Toy.id_to_token Toy.kogpt2
           Toy.classify_happy 5 Toy.zero [32; 9]%N [13; 10]%N Toy.noon
           [(Toy.hi, Toy.noon)] H1 H2).
Defined.

Lemma Zltb_asym (a b : Z) : (a <? b) = true -> (b <? a) = false.
Proof. intros H. apply Z.ltb_lt in H. apply Z.ltb_ge. lia. Qed.

Lemma Zltb_split (a b c : Z) :
  (a <? b) = true -> (a <? c) = true \/ (c <? b) = true.
Proof.
  intros H. apply Z.ltb_lt in H. rewrite !Z.ltb_lt. lia.
Qed.

Lemma sentence_predict_first_max_witness :
  sentence_predict Z Z.ltb Toy.classify_happy Toy.hi 0
  = Ok (EmoStr [54665; 48373]%N, 2) /\
  exists x,
    nth_error (Toy.classify_happy Toy.hi) (Z.to_nat 2) = Some x /\
    (forall y, In y (Toy.classify_happy Toy.hi) -> (x <? y) = false).
Proof.
  split; [reflexivity|].
  destruct (sentence_predict_first_max Z Z.ltb Zltb_asym Zltb_split
              Toy.classify_happy Toy.hi 0 (EmoStr [54665; 48373]%N) 2
              eq_refl) as (x & Hx & Hmax & _).
  exists x. auto.
Defined.

Lemma warmup_steps_not_finite_witness :
  (S754_nan = S754_nan \/ exists s, S754_nan = S754_infinity s) /\
  (warmup_steps 100 3 S754_nan = Raise ValueError \/
   warmup_steps 100 3 S754_nan = Raise OverflowError).
Proof.
  assert (H : S754_nan = S754_nan \/ exists s, S754_nan = S754_infinity s)
    by now left.
  split; [exact H|]. exact (warmup_steps_not_finite 100 3 S754_nan H).
Defined.

(** The two groups of four parameters by their names. *)
Example optimizer_groups_sample :
  optimizer_grouped_parameters
    [ ([119; 116; 101; 46; 119; 101; 105; 103; 104; 116]%N, 1);
      ([104; 46; 98; 105; 97; 115]%N, 2);
      (nth 2 no_decay [], 3);
      ([104; 46; 108; 110; 46; 119; 101; 105; 103; 104; 116]%N, 4) ]
  = [ {| params := [1; 4]; weight_decay := hundredth |};
      {| params := [2; 3]; weight_decay := S754_zero false |} ].
Proof. reflexivity. Qed.

(** * Softmax and argmax on float32 *)

Local Abbreviation br := (binary_round F32.prec F32.emax false).
Local Abbreviation sub32 := (SFsub F32.prec F32.emax).
Local Abbreviation add32 := (SFadd F32.prec F32.emax).
Local Abbreviation mul32 := (SFmul F32.prec F32.emax).
Local Abbreviation div32 := (SFdiv F32.prec F32.emax).

(** ** Shifting and rounding a mantissa *)

Lemma iter_pos_nat {A} (f : A -> A) (p : positive) (x : A) :
  iter_pos f p x = Nat.iter (Pos.to_nat p) f x.
Proof.
  revert x. induction p as [p IH|p IH|]; intros x; cbn [iter_pos].
  - rewrite !IH, Pos2Nat.inj_xI.
    replace (S (2 * Pos.to_nat p)) with (Pos.to_nat p + (Pos.to_nat p + 1))%nat
      by lia.
    rewrite !Nat.iter_add. reflexivity.
  - rewrite !IH, Pos2Nat.inj_xO.
    replace (2 * Pos.to_nat p)%nat with (Pos.to_nat p + Pos.to_nat p)%nat
      by lia.
    now rewrite Nat.iter_add.
  - reflexivity.
Qed.

Lemma shr_1_nonneg (m : Z) (r s : bool) :
  0 <= m ->
  shr_1 {| shr_m := m; shr_r := r; shr_s := s |}
  = {| shr_m := m / 2; shr_r := Z.odd m; shr_s := r || s |}.
Proof.
  intros Hm. rewrite <- Z.div2_div.
  destruct m as [|[p|p|]|p]; try lia; reflexivity.
Qed.

Lemma pow2_pos (k : Z) : 0 <= k -> 0 < 2 ^ k.
Proof. intros. apply Z.pow_pos_nonneg; lia. Qed.

Lemma pow2_succ (k : Z) : 0 <= k -> 2 ^ (k + 1) = 2 * 2 ^ k.
Proof. intros. rewrite Z.pow_add_r by lia. change (2 ^ 1) with 2. lia. Qed.

(** [n] shifts to the right: the quotient by [2^n], the last bit that
    fell off, and whether anything fell off before it. *)
Lemma shr_iter (N : Z) (n : nat) :
  0 <= N ->
  Nat.iter n shr_1 {| shr_m := N; shr_r := false; shr_s := false |}
  = {| shr_m := N / 2 ^ Z.of_nat n;
       shr_r := (0 <? Z.of_nat n) && Z.odd (N / 2 ^ (Z.of_nat n - 1));
       shr_s := (0 <? Z.of_nat n)
                && negb (N mod 2 ^ (Z.of_nat n - 1) =? 0) |}.
Proof.
  intros HN. induction n as [|n IH].
  - simpl. now rewrite Z.div_1_r.
  - rewrite Nat.iter_succ, IH.
    pose proof (pow2_pos (Z.of_nat n) ltac:(lia)) as Hp.
    rewrite shr_1_nonneg by (apply Z.div_pos; lia).
    replace (Z.of_nat (S n) - 1) with (Z.of_nat n) by lia.
    replace (Z.of_nat (S n)) with (Z.of_nat n + 1) by lia.
    rewrite pow2_succ by lia.
    rewrite Z.div_div by lia. rewrite (Z.mul_comm (2 ^ _) 2).
    destruct (Z.ltb_spec 0 (Z.of_nat n + 1)); [|lia]. cbn [andb].
    f_equal.
    destruct (Z.ltb_spec 0 (Z.of_nat n)) as [Hn|Hn]; cbn [andb orb].
    + replace (Z.of_nat n) with ((Z.of_nat n - 1) + 1) at 3 by lia.
      rewrite pow2_succ by lia.
      pose proof (pow2_pos (Z.of_nat n - 1) ltac:(lia)) as Hq.
      rewrite (Z.mul_comm 2), Z.rem_mul_r by lia.
      pose proof (Z.mod_pos_bound N (2 ^ (Z.of_nat n - 1)) Hq).
      pose proof (Z.mod_pos_bound (N / 2 ^ (Z.of_nat n - 1)) 2 ltac:(lia)).
      rewrite Zodd_mod.
      destruct (Z.eqb_spec ((N / 2 ^ (Z.of_nat n - 1)) mod 2) 1) as [E|E];
      destruct (Z.eqb_spec (N mod 2 ^ (Z.of_nat n - 1)) 0) as [E0|E0];
      destruct (Z.eqb_spec
                  (N mod 2 ^ (Z.of_nat n - 1)
                   + 2 ^ (Z.of_nat n - 1)
                     * ((N / 2 ^ (Z.of_nat n - 1)) mod 2)) 0);
      cbn; try reflexivity; try nia.
    + replace (Z.of_nat n) with 0 by lia. simpl.
      now rewrite Z.mod_1_r.
Qed.

(** Rounding [N / 2^k] to the nearest integer, ties to even, as the
    shifts and the location compute it. *)
Lemma shr_round_spec (N : Z) (p : positive) :
  0 <= N ->
  let mrs :=
    iter_pos shr_1 p {| shr_m := N; shr_r := false; shr_s := false |} in
  let n := round_nearest_even (shr_m mrs) (loc_of_shr_record mrs) in
  let P := 2 ^ Zpos p in
  P * (2 * n - 1) <= 2 * N <= P * (2 * n + 1) /\
  (2 * N = P * (2 * n - 1) \/ 2 * N = P * (2 * n + 1) -> Z.even n = true).
Proof.
  intros HN. cbv zeta. rewrite iter_pos_nat, shr_iter by assumption.
  rewrite positive_nat_Z.
  destruct (Z.ltb_spec 0 (Zpos p)); [|lia]. cbn [andb].
  set (h := 2 ^ (Zpos p - 1)).
  assert (Hh : 0 < h) by (apply pow2_pos; lia).
  assert (EP : 2 ^ Zpos p = 2 * h).
  { unfold h. rewrite <- pow2_succ by lia. f_equal. lia. }
  rewrite EP.
  assert (Eq : N / (2 * h) = N / h / 2)
    by (rewrite Z.div_div by lia; f_equal; lia).
  rewrite Eq.
  pose proof (Z.div_mod N h ltac:(lia)) as D1.
  pose proof (Z.mod_pos_bound N h Hh) as B1.
  pose proof (Z.div_mod (N / h) 2 ltac:(lia)) as D2.
  pose proof (Z.mod_pos_bound (N / h) 2 ltac:(lia)) as B2.
  rewrite Zodd_mod.
  set (q := N / h / 2) in *. set (b := (N / h) mod 2) in *.
  set (low := N mod h) in *.
  pose proof (Zeven_mod q) as Ev.
  pose proof (Z.div_mod q 2 ltac:(lia)) as D3.
  pose proof (Z.mod_pos_bound q 2 ltac:(lia)) as B3.
  pose proof (Zeven_mod (q + 1)) as Ev1.
  pose proof (Z.div_mod (q + 1) 2 ltac:(lia)) as D4.
  pose proof (Z.mod_pos_bound (q + 1) 2 ltac:(lia)) as B4.
  assert (EN : N = 2 * (h * q) + h * b + low).
  { rewrite D1 at 1. rewrite D2 at 1. ring. }
  clearbody q b low h. clear D1 D2 Eq EP.
  destruct (Z.eqb_spec b 1) as [Eb|Eb];
    destruct (Z.eqb_spec low 0) as [El|El];
    cbn [loc_of_shr_record round_nearest_even shr_m shr_r shr_s negb andb].
  - (* tie *)
    subst b low. destruct (Z.even q) eqn:Eq2.
    + split; [lia|]. intros _. assumption.
    + split; [lia|]. intros _. rewrite Ev1.
      rewrite Ev in Eq2.
      destruct (Z.eqb_spec (q mod 2) 0); [discriminate|].
      apply Z.eqb_eq. lia.
  - subst b. split; [nia|]. intros [H1|H1]; exfalso; nia.
  - assert (b = 0) by lia. subst b low.
    split; [nia|]. intros [H1|H1]; exfalso; nia.
  - assert (b = 0) by lia. subst b.
    split; [nia|]. intros [H1|H1]; exfalso; nia.
Qed.

Lemma Zdigits2_unique (n d : Z) :
  0 < n -> 2 ^ (d - 1) <= n < 2 ^ d -> Zdigits2 n = d.
Proof.
  intros Hn [Hlo Hhi]. destruct n as [|p|p]; try lia. simpl.
  pose proof (digits2_pos_bounds p) as [Blo Bhi].
  assert (0 < d).
  { destruct (Z_lt_le_dec 0 d); [assumption|exfalso].
    destruct (Z.eq_dec d 0) as [->|]; [simpl in Hhi; lia|].
    rewrite Z.pow_neg_r in Hhi by lia. lia. }
  assert (Zpos (digits2_pos p) - 1 < d).
  { apply (Z.pow_lt_mono_r_iff 2); lia. }
  assert (d - 1 < Zpos (digits2_pos p)).
  { apply (Z.pow_lt_mono_r_iff 2); lia. }
  lia.
Qed.

Lemma Zdigits2_pos_bounds (n : Z) :
  0 < n -> 2 ^ (Zdigits2 n - 1) <= n < 2 ^ Zdigits2 n.
Proof.
  intros Hn. destruct n as [|p|p]; try lia. apply digits2_pos_bounds.
Qed.

Lemma Zdigits2_pos (n : Z) : 0 < n -> 0 < Zdigits2 n.
Proof. intros Hn. destruct n; simpl; lia. Qed.

Section Round.

Variables prec emax : Z.
Hypothesis prec_pos : 0 < prec.

Local Abbreviation fexp := (fexp prec emax).
Local Abbreviation emin := (emin prec emax).

Lemma fexp_ge_emin (g : Z) : emin <= fexp g.
Proof. unfold SpecFloat.fexp. lia. Qed.

Lemma fexp_mono (g g' : Z) : g <= g' -> fexp g <= fexp g'.
Proof. unfold SpecFloat.fexp. lia. Qed.

(** The end of [binary_round_aux]: the second normalisation and the
    overflow test. *)
Lemma bra_tail (n c : Z) :
  0 <= n <= 2 ^ prec -> emin <= c ->
  (let '(mrs, e) := shr_fexp prec emax n c loc_Exact in
   match shr_m mrs with
   | Z0 => S754_zero false
   | Zpos m =>
       if e <=? emax - prec then S754_finite false m e
       else S754_infinity false
   | Zneg _ => S754_nan
   end) = pack prec emax n c.
Proof.
  intros [Hn0 Hn] Hc. unfold shr_fexp, shr, pack, shr_record_of_loc.
  pose proof (pow2_pos prec ltac:(lia)) as Hp.
  destruct (Z.eqb_spec n 0) as [->|Hnz].
  - simpl Zdigits2.
    destruct (SpecFloat.fexp prec emax (0 + c) - c) eqn:E;
      try reflexivity.
    unfold SpecFloat.fexp in E. lia.
  - destruct (Z.eqb_spec n (2 ^ prec)) as [->|Hne].
    + rewrite (Zdigits2_unique (2 ^ prec) (prec + 1)); [|lia|].
      2:{ replace (prec + 1 - 1) with prec by lia.
          rewrite pow2_succ by lia. lia. }
      replace (SpecFloat.fexp prec emax (prec + 1 + c) - c) with 1
        by (unfold SpecFloat.fexp; lia).
      cbn [iter_pos]. rewrite shr_1_nonneg by lia. cbn [shr_m].
      replace (2 ^ prec) with (2 * 2 ^ (prec - 1))
        by (rewrite <- pow2_succ by lia; f_equal; lia).
      rewrite Z.mul_comm, Z.div_mul by lia.
      pose proof (pow2_pos (prec - 1) ltac:(lia)) as Hq.
      destruct (2 ^ (prec - 1)) as [|q|q] eqn:Eq; try lia.
      reflexivity.
    + assert (Hd : Zdigits2 n <= prec) by (apply Zdigits2_bound; lia).
      destruct (SpecFloat.fexp prec emax (Zdigits2 n + c) - c) eqn:E.
      * cbn [shr_m]. destruct n as [|m|m]; try lia. reflexivity.
      * unfold SpecFloat.fexp in E. lia.
      * cbn [shr_m]. destruct n as [|m|m]; try lia. reflexivity.
Qed.

(** [binary_round_aux] on an exact mantissa that is fine enough for its
    format. *)
Lemma bra_exact_spec (M : positive) (E : Z) :
  let c := fexp (Zpos (digits2_pos M) + E) in
  E <= c ->
  exists n,
    binary_round_aux prec emax false (Zpos M) E loc_Exact
    = pack prec emax n c /\
    0 <= n <= 2 ^ prec /\
    nearest E (Zpos M) E c n.
Proof.
  intros c Hfine. unfold binary_round_aux.
  pose proof (digits2_pos_bounds M) as [Dlo Dhi].
  set (d := Zpos (digits2_pos M)) in *.
  assert (Hbound : forall n,
            2 ^ (c - E) * (2 * n - 1) <= 2 * Zpos M <=
            2 ^ (c - E) * (2 * n + 1) -> 0 <= n <= 2 ^ prec).
  { intros n [Hlo Hhi].
    pose proof (pow2_pos (c - E) ltac:(lia)) as HP.
    pose proof (pow2_pos prec ltac:(lia)) as Hp.
    split; [nia|].
    assert (2 ^ d <= 2 ^ (c - E) * 2 ^ prec).
    { rewrite <- Z.pow_add_r by lia. apply Z.pow_le_mono_r; [lia|].
      unfold c, SpecFloat.fexp. lia. }
    nia. }
  unfold shr_fexp at 1, shr. cbn [Zdigits2 shr_record_of_loc]. fold d c.
  assert (Hcmin : emin <= c) by apply fexp_ge_emin.
  clearbody c.
  destruct (c - E) as [|p|p] eqn:Ek; [| |lia].
  - (* no shift *)
    cbn [shr_m loc_of_shr_record round_nearest_even].
    exists (Zpos M).
    assert (Hn : nearest E (Zpos M) E c (Zpos M)).
    { unfold nearest. replace (E - E) with 0 by lia.
      rewrite ?Ek. change (2 ^ 0) with 1.
      split; [lia|]. intros [H|H]; lia. }
    assert (Hb : 0 <= Zpos M <= 2 ^ prec).
    { apply Hbound. rewrite ?Ek. change (2 ^ 0) with 1. lia. }
    split; [|split; assumption].
    replace E with c at 1 by lia.
    apply bra_tail; assumption.
  - pose proof (shr_round_spec (Zpos M) p ltac:(lia)) as [Hnear Htie].
    set (mrs := iter_pos shr_1 p _) in *.
    set (n := round_nearest_even (shr_m mrs) (loc_of_shr_record mrs)) in *.
    destruct (Hbound n) as [Hn0 Hn]; [rewrite ?Ek; exact Hnear|].
    exists n. split; [|split; [split; assumption|]].
    + replace (E + Zpos p) with c by lia.
      apply bra_tail; [split; assumption|assumption].
    + unfold nearest. replace (E - E) with 0 by lia.
      change (2 ^ 0) with 1. rewrite Z.mul_1_r, ?Ek. split; assumption.
Qed.

End Round.

Lemma dle_scale (F M1 E1 M2 E2 : Z) :
  F <= E1 -> F <= E2 ->
  dle M1 E1 M2 E2 <-> M1 * 2 ^ (E1 - F) <= M2 * 2 ^ (E2 - F).
Proof.
  intros H1 H2. unfold dle. set (G := Z.min E1 E2).
  assert (HG : F <= G) by (unfold G; lia).
  assert (G <= E1 /\ G <= E2) as [G1 G2] by (unfold G; lia).
  replace (E1 - F) with ((E1 - G) + (G - F)) by lia.
  replace (E2 - F) with ((E2 - G) + (G - F)) by lia.
  rewrite !Z.pow_add_r by lia.
  pose proof (pow2_pos (G - F) ltac:(lia)).
  pose proof (pow2_pos (E1 - G) ltac:(lia)).
  pose proof (pow2_pos (E2 - G) ltac:(lia)).
  split; intros; nia.
Qed.

Lemma nearest_rescale (F M E c n : Z) :
  F <= E -> E <= c -> nearest E M E c n -> nearest F M E c n.
Proof.
  intros HF Hc. unfold nearest. replace (E - E) with 0 by lia.
  change (2 ^ 0) with 1. rewrite Z.mul_1_r.
  replace (c - F) with ((c - E) + (E - F)) by lia.
  rewrite Z.pow_add_r by lia.
  pose proof (pow2_pos (E - F) ltac:(lia)).
  pose proof (pow2_pos (c - E) ltac:(lia)).
  intros [Hb Ht]. split; [nia|].
  intros [H1|H1]; apply Ht; [left|right]; nia.
Qed.

(** Rounding at one exponent keeps the order. *)
Lemma nearest_mono (F c M1 E1 n1 M2 E2 n2 : Z) :
  F <= c ->
  nearest F M1 E1 c n1 -> nearest F M2 E2 c n2 ->
  M1 * 2 ^ (E1 - F) <= M2 * 2 ^ (E2 - F) -> n1 <= n2.
Proof.
  unfold nearest. intros HF [[L1 U1] T1] [[L2 U2] T2] Hle.
  pose proof (pow2_pos (c - F) ltac:(lia)) as HP.
  set (P := 2 ^ (c - F)) in *.
  set (V1 := M1 * 2 ^ (E1 - F)) in *. set (V2 := M2 * 2 ^ (E2 - F)) in *.
  destruct (Z_le_gt_dec n1 n2) as [|Hgt]; [assumption|exfalso].
  assert (E1' : 2 * V1 = P * (2 * n1 - 1)) by nia.
  assert (E2' : 2 * V2 = P * (2 * n2 + 1)) by nia.
  assert (n1 = n2 + 1) by nia.
  specialize (T1 (or_introl E1')). specialize (T2 (or_intror E2')).
  subst n1. rewrite Z.even_add in T1. rewrite T2 in T1. discriminate.
Qed.

Lemma Zdigits2_shift (M d : Z) :
  0 < M -> 0 <= d -> Zdigits2 (M * 2 ^ d) = Zdigits2 M + d.
Proof.
  intros HM Hd. pose proof (Zdigits2_pos_bounds M HM) as [Lo Hi].
  pose proof (Zdigits2_pos M HM).
  pose proof (pow2_pos d Hd).
  apply Zdigits2_unique; [nia|].
  replace (Zdigits2 M + d - 1) with ((Zdigits2 M - 1) + d) by lia.
  rewrite !Z.pow_add_r by lia. nia.
Qed.

Section RoundMono.

Variables prec emax : Z.
Hypothesis prec_pos : 0 < prec.

Local Abbreviation fexp := (fexp prec emax).
Local Abbreviation emin := (emin prec emax).

(** [binary_round] on a positive number: the mantissa is the number
    over [2^c] rounded to nearest even, [c] the exponent of its format. *)
Lemma binary_round_spec (M : positive) (E : Z) :
  let c := fexp (Zpos (digits2_pos M) + E) in
  exists n,
    binary_round prec emax false M E = pack prec emax n c /\
    0 <= n <= 2 ^ prec /\
    (emin < c -> 2 ^ (prec - 1) <= n) /\
    (emin <= E -> 1 <= n) /\
    (forall F, F <= E -> F <= c -> nearest F (Zpos M) E c n).
Proof.
  intros c. unfold binary_round, shl_align. fold c.
  pose proof (digits2_pos_bounds M) as [Dlo Dhi].
  assert (Hcmin : emin <= c) by apply fexp_ge_emin.
  assert (Hlow : forall n F, F <= E -> F <= c ->
            nearest F (Zpos M) E c n ->
            (emin < c -> 2 ^ (prec - 1) <= n) /\ (emin <= E -> 1 <= n)).
  { intros n F HF1 HF2 [[_ Hup] _].
    pose proof (pow2_pos (c - F) ltac:(lia)) as HP.
    pose proof (pow2_pos (E - F) ltac:(lia)) as HA.
    pose proof (pow2_pos (prec - 1) ltac:(lia)) as Hq.
    assert (Hnorm : emin < c -> 2 ^ (prec - 1) <= n).
    { intros Hc.
      assert (Ec : c = Zpos (digits2_pos M) + E - prec)
        by (unfold c, SpecFloat.fexp in *; lia).
      assert (2 ^ (c - F) * 2 ^ (prec - 1)
              <= Zpos M * 2 ^ (E - F)).
      { rewrite <- Z.pow_add_r by lia.
        replace (c - F + (prec - 1))
          with ((Zpos (digits2_pos M) - 1) + (E - F)) by lia.
        rewrite Z.pow_add_r by lia. nia. }
      assert (2 * 2 ^ (prec - 1) <= 2 * n + 1) by nia.
      lia. }
    split; [exact Hnorm|]. intros HE.
    destruct (Z_lt_le_dec emin c) as [Hc|Hc].
    - specialize (Hnorm Hc). lia.
    - assert (c <= E) by lia.
      assert (2 ^ (c - F) <= 2 ^ (E - F))
        by (apply Z.pow_le_mono_r; lia).
      assert (0 < 2 * n + 1) by nia. 
      assert (2 ^ (c - F) * 1 <= Zpos M * 2 ^ (E - F)) by nia.
      destruct (Z_le_gt_dec 1 n); [assumption|exfalso].
      assert (n = 0) by lia. subst n. nia. }
  destruct (c - E) as [|p|p] eqn:Ek.
  - destruct (bra_exact_spec prec emax prec_pos M E ltac:(fold c; lia))
      as (n & E1 & Hn & Hnear). fold c in E1, Hnear.
    exists n. split; [exact E1|]. split; [exact Hn|].
    assert (Hall : forall F, F <= E -> F <= c -> nearest F (Zpos M) E c n).
    { intros F HF _. apply nearest_rescale; [assumption|lia|assumption]. }
    destruct (Hlow n E ltac:(lia) ltac:(lia) (Hall E ltac:(lia) ltac:(lia))).
    split; [assumption|split; assumption].
  - destruct (bra_exact_spec prec emax prec_pos M E ltac:(fold c; lia))
      as (n & E1 & Hn & Hnear). fold c in E1, Hnear.
    exists n. split; [exact E1|]. split; [exact Hn|].
    assert (Hall : forall F, F <= E -> F <= c -> nearest F (Zpos M) E c n).
    { intros F HF _. apply nearest_rescale; [assumption|lia|assumption]. }
    destruct (Hlow n E ltac:(lia) ltac:(lia) (Hall E ltac:(lia) ltac:(lia))).
    split; [assumption|split; assumption].
  - (* the mantissa is shifted to the left: nothing is lost *)
    change (Pos.iter xO M p) with (shift_pos p M).
    assert (EM : Zpos (shift_pos p M) = Zpos M * 2 ^ (E - c)).
    { rewrite shift_pos_correct. change (Z.pow_pos 2 p) with (2 ^ Zpos p).
      replace (E - c) with (Zpos p) by lia. lia. }
    assert (Ed : Zpos (digits2_pos (shift_pos p M)) + c
                 = Zpos (digits2_pos M) + E).
    { change (Zpos (digits2_pos (shift_pos p M)))
        with (Zdigits2 (Zpos (shift_pos p M))).
      rewrite EM, Zdigits2_shift by lia. simpl Zdigits2. lia. }
    destruct (bra_exact_spec prec emax prec_pos (shift_pos p M) c)
      as (n & E1 & Hn & Hnear).
    { rewrite Ed. fold c. lia. }
    rewrite Ed in E1, Hnear. fold c in E1, Hnear.
    assert (En : n = Zpos M * 2 ^ (E - c)).
    { destruct Hnear as [[Lo Hi] _].
      replace (c - c) with 0 in * by lia. change (2 ^ 0) with 1 in *.
      lia. }
    exists n. split; [exact E1|]. split; [exact Hn|].
    assert (Hall : forall F, F <= E -> F <= c -> nearest F (Zpos M) E c n).
    { intros F HF1 HF2. unfold nearest.
      replace (E - F) with ((E - c) + (c - F)) by lia.
      rewrite Z.pow_add_r by lia.
      pose proof (pow2_pos (c - F) ltac:(lia)).
      pose proof (pow2_pos (E - c) ltac:(lia)).
      split; [nia|]. intros [H1|H1]; exfalso; nia. }
    destruct (Hlow n c ltac:(lia) ltac:(lia) (Hall c ltac:(lia) ltac:(lia))).
    split; [assumption|split; assumption].
Qed.

End RoundMono.

(** ** The order of floats *)

Lemma compare_cont_Eq (m1 m2 : positive) :
  Pos.compare_cont Eq m1 m2 = (Zpos m1 ?= Zpos m2).
Proof. reflexivity. Qed.

Lemma SFcompare_key (x y : spec_float) :
  match SFcompare x y with
  | None => x = S754_nan \/ y = S754_nan
  | Some Lt => x <> S754_nan /\ y <> S754_nan /\ lex_lt (fkey x) (fkey y)
  | Some Eq => x <> S754_nan /\ y <> S754_nan /\ fkey x = fkey y
  | Some Gt => x <> S754_nan /\ y <> S754_nan /\ lex_lt (fkey y) (fkey x)
  end.
Proof.
  destruct x as [[|]|[|]| |[|] m1 e1], y as [[|]|[|]| |[|] m2 e2];
    cbn [SFcompare fkey lex_lt]; try tauto;
    try (repeat split; try discriminate; try reflexivity; lia).
  - destruct (Z.compare_spec e1 e2) as [->|H|H]; cbn.
    + rewrite compare_cont_Eq.
      destruct (Z.compare_spec (Zpos m1) (Zpos m2)) as [E|H|H]; cbn;
        repeat split; try discriminate; try lia.
      injection E as ->. reflexivity.
    + repeat split; try discriminate; lia.
    + repeat split; try discriminate; lia.
  - destruct (Z.compare_spec e1 e2) as [->|H|H]; cbn.
    + rewrite compare_cont_Eq.
      destruct (Z.compare_spec (Zpos m1) (Zpos m2)) as [E|H|H]; cbn;
        repeat split; try discriminate; try lia.
      injection E as ->. reflexivity.
    + repeat split; try discriminate; lia.
    + repeat split; try discriminate; lia.
Qed.

Lemma lex_lt_irrefl (a : Z * Z * Z) : ~ lex_lt a a.
Proof. destruct a as [[a1 a2] a3]. cbn. lia. Qed.

Lemma f32_ltb_key (x y : spec_float) :
  F32.ltb x y = true <-> lex_lt (fkey x) (fkey y).
Proof.
  unfold F32.ltb, SFltb. pose proof (SFcompare_key x y) as H.
  destruct (SFcompare x y) as [[| |]|].
  - destruct H as (Hx & Hy & E).
    destruct y; try congruence; cbn [F32.is_nan andb orb];
      (split; [discriminate|]); rewrite E; intros F;
      now apply lex_lt_irrefl in F.
  - destruct H as (Hx & Hy & E). cbn. tauto.
  - destruct H as (Hx & Hy & E).
    destruct y; try congruence; cbn [F32.is_nan andb orb];
      (split; [discriminate|]); intros F; exfalso;
      destruct (fkey x) as [[a1 a2] a3], (fkey _) as [[b1 b2] b3];
      cbn in *; lia.
  - destruct H as [->| ->].
    + cbn. rewrite andb_false_r. split; [discriminate|].
      destruct y as [[|]|[|]| |[|] m e]; cbn; lia.
    + destruct x as [[|]|[|]| |[|] m e]; cbn; split; try lia;
        try discriminate; reflexivity.
Qed.

Lemma SFleb_key (x y : spec_float) :
  SFleb x y = true <->
  x <> S754_nan /\ y <> S754_nan /\ ~ lex_lt (fkey y) (fkey x).
Proof.
  unfold SFleb. pose proof (SFcompare_key x y) as H.
  destruct (SFcompare x y) as [[| |]|].
  - destruct H as (Hx & Hy & E). rewrite E.
    split; [intros _|reflexivity].
    repeat split; try assumption. apply lex_lt_irrefl.
  - destruct H as (Hx & Hy & E).
    split; [intros _|reflexivity].
    repeat split; try assumption.
    destruct (fkey x) as [[a1 a2] a3], (fkey y) as [[b1 b2] b3].
    cbn in *. lia.
  - destruct H as (Hx & Hy & E). split; [discriminate|].
    intros (_ & _ & F). contradiction.
  - split; [discriminate|]. intros (Hx & Hy & _). tauto.
Qed.

(** The order of [F32.ltb] is a strict weak order. *)
Lemma f32_ltb_asym (a b : spec_float) :
  F32.ltb a b = true -> F32.ltb b a = false.
Proof.
  intros H. apply f32_ltb_key in H.
  destruct (F32.ltb b a) eqn:E; [|reflexivity]. apply f32_ltb_key in E.
  destruct (fkey a) as [[a1 a2] a3], (fkey b) as [[b1 b2] b3].
  cbn in *. lia.
Qed.

Lemma f32_ltb_split (a b c : spec_float) :
  F32.ltb a b = true -> F32.ltb a c = true \/ F32.ltb c b = true.
Proof.
  intros H. apply f32_ltb_key in H.
  destruct (F32.ltb a c) eqn:E1; [now left|right].
  destruct (F32.ltb c b) eqn:E2; [reflexivity|exfalso].
  assert (N1 : ~ lex_lt (fkey a) (fkey c))
    by (intros F; apply f32_ltb_key in F; congruence).
  assert (N2 : ~ lex_lt (fkey c) (fkey b))
    by (intros F; apply f32_ltb_key in F; congruence).
  destruct (fkey a) as [[a1 a2] a3], (fkey b) as [[b1 b2] b3],
    (fkey c) as [[c1 c2] c3].
  cbn in *. lia.
Qed.

(** ** Rounding keeps the order *)

Section RoundOrder.

Variables prec emax : Z.
Hypothesis prec_pos : 0 < prec.

Local Abbreviation fexp := (fexp prec emax).
Local Abbreviation emin := (emin prec emax).

Lemma pow2_prec_split : 2 ^ prec = 2 * 2 ^ (prec - 1).
Proof. rewrite <- pow2_succ by lia. f_equal. lia. Qed.

Lemma fkey_pack (n c : Z) :
  0 <= n ->
  fkey (pack prec emax n c)
  = if n =? 0 then (0, 0, 0)
    else
      let n' := if n =? 2 ^ prec then 2 ^ (prec - 1) else n in
      let c' := if n =? 2 ^ prec then c + 1 else c in
      if c' <=? emax - prec then (1, c', n') else (2, 0, 0).
Proof.
  intros Hn. unfold pack.
  pose proof (pow2_pos (prec - 1) ltac:(lia)) as Hh.
  destruct (Z.eqb_spec n 0); [reflexivity|]. cbv zeta.
  destruct (Z.eqb_spec n (2 ^ prec));
    match goal with
    | |- context [?a <=? ?b] => destruct (Z.leb_spec a b)
    end; cbn [fkey];
    try reflexivity; rewrite Z2Pos.id by lia; reflexivity.
Qed.

Lemma pack_not_nan (n c : Z) : pack prec emax n c <> S754_nan.
Proof.
  unfold pack. destruct (n =? 0); [discriminate|]. cbv zeta.
  destruct (_ <=? _); discriminate.
Qed.

(** Two rounded mantissas in order pack into floats in order: at one
    exponent, or at two when the greater is that of a normal number. *)
Lemma pack_le (n1 c1 n2 c2 : Z) :
  0 <= n1 <= 2 ^ prec -> 0 <= n2 <= 2 ^ prec ->
  (c1 = c2 /\ n1 <= n2) \/ (c1 < c2 /\ 2 ^ (prec - 1) <= n2) ->
  SFleb (pack prec emax n1 c1) (pack prec emax n2 c2) = true.
Proof.
  intros H1 H2 Hord. apply SFleb_key.
  split; [apply pack_not_nan|]. split; [apply pack_not_nan|].
  rewrite !fkey_pack by lia.
  pose proof pow2_prec_split as Hs.
  pose proof (pow2_pos (prec - 1) ltac:(lia)) as Hh.
  set (h := 2 ^ (prec - 1)) in *. set (P := 2 ^ prec) in *.
  clearbody h P. cbv zeta.
  destruct (Z.eqb_spec n1 0), (Z.eqb_spec n2 0),
    (Z.eqb_spec n1 P), (Z.eqb_spec n2 P);
    repeat match goal with
      | |- context [?a <=? ?b] => destruct (Z.leb_spec a b)
      end; cbn [lex_lt]; lia.
Qed.

Lemma pack_valid (n c : Z) :
  0 <= n <= 2 ^ prec -> emin <= c -> (emin < c -> 2 ^ (prec - 1) <= n) ->
  valid_binary prec emax (pack prec emax n c) = true.
Proof.
  intros Hn Hc Hnorm. unfold pack.
  pose proof pow2_prec_split as Hs.
  pose proof (pow2_pos (prec - 1) ltac:(lia)) as Hh.
  destruct (Z.eqb_spec n 0); [reflexivity|]. cbv zeta.
  destruct (Z.eqb_spec n (2 ^ prec)) as [E|E].
  - destruct (Z.leb_spec (c + 1) (emax - prec)); [|reflexivity].
    cbn [valid_binary]. unfold bounded, canonical_mantissa.
    change (Zpos (digits2_pos (Z.to_pos (2 ^ (prec - 1)))))
      with (Zdigits2 (Zpos (Z.to_pos (2 ^ (prec - 1))))).
    rewrite Z2Pos.id by lia.
    rewrite (Zdigits2_unique (2 ^ (prec - 1)) prec); [|lia|].
    2:{ split; [lia|]. rewrite Hs. lia. }
    apply andb_true_intro. split; [|apply Z.leb_le; lia].
    apply Z.eqb_eq. unfold SpecFloat.fexp. lia.
  - destruct (Z.leb_spec c (emax - prec)); [|reflexivity].
    cbn [valid_binary]. unfold bounded, canonical_mantissa.
    change (Zpos (digits2_pos (Z.to_pos n)))
      with (Zdigits2 (Zpos (Z.to_pos n))).
    rewrite Z2Pos.id by lia.
    apply andb_true_intro. split; [|apply Z.leb_le; lia].
    apply Z.eqb_eq.
    assert (Hd : Zdigits2 n <= prec) by (apply Zdigits2_bound; lia).
    destruct (Z_lt_le_dec emin c) as [Hlt|Hle].
    + rewrite (Zdigits2_unique n prec); [|lia|].
      2:{ split; [now apply Hnorm|lia]. }
      unfold SpecFloat.fexp. lia.
    + unfold SpecFloat.fexp. lia.
Qed.

(** Rounding to the format keeps the order. *)
Lemma binary_round_mono (M1 M2 : positive) (E1 E2 : Z) :
  dle (Zpos M1) E1 (Zpos M2) E2 ->
  SFleb (binary_round prec emax false M1 E1)
        (binary_round prec emax false M2 E2) = true.
Proof.
  intros Hle.
  destruct (binary_round_spec prec emax prec_pos M1 E1)
    as (n1 & -> & Hn1 & _ & _ & Hnear1).
  destruct (binary_round_spec prec emax prec_pos M2 E2)
    as (n2 & -> & Hn2 & Hnorm2 & _ & Hnear2).
  set (d1 := Zpos (digits2_pos M1)) in *.
  set (d2 := Zpos (digits2_pos M2)) in *.
  set (c1 := fexp (d1 + E1)) in *. set (c2 := fexp (d2 + E2)) in *.
  pose proof (digits2_pos_bounds M1) as [Lo1 Hi1].
  pose proof (digits2_pos_bounds M2) as [Lo2 Hi2].
  fold d1 in Lo1, Hi1. fold d2 in Lo2, Hi2.
  assert (Hd1 : 0 < d1) by (unfold d1; lia).
  assert (Hd2 : 0 < d2) by (unfold d2; lia).
  assert (Hg : d1 + E1 <= d2 + E2).
  { set (F := Z.min E1 E2). unfold dle in Hle. fold F in Hle.
    assert (F <= E1 /\ F <= E2) as [F1 F2] by (unfold F; lia).
    pose proof (pow2_pos (E1 - F) ltac:(lia)).
    pose proof (pow2_pos (E2 - F) ltac:(lia)).
    assert (2 ^ (d1 - 1 + (E1 - F)) < 2 ^ (d2 + (E2 - F))).
    { rewrite !Z.pow_add_r by lia. nia. }
    apply Z.pow_lt_mono_r_iff in H1; lia. }
  assert (Hc : c1 <= c2) by (apply fexp_mono; exact Hg).
  assert (Hm1 : emin <= c1) by apply fexp_ge_emin.
  apply pack_le; try assumption.
  destruct (Z.eq_dec c1 c2) as [Ec|Ec].
  - left. split; [assumption|].
    set (F := Z.min (Z.min E1 E2) c1).
    apply (nearest_mono F c1 (Zpos M1) E1 n1 (Zpos M2) E2 n2).
    + unfold F. lia.
    + apply Hnear1; unfold F; lia.
    + rewrite Ec. apply Hnear2; unfold F; lia.
    + apply dle_scale; [unfold F; lia|unfold F; lia|assumption].
  - right. split; [lia|]. apply Hnorm2. lia.
Qed.

(** A number of the format rounds to itself. *)
Lemma binary_round_id (m : positive) (e : Z) :
  bounded prec emax m e = true ->
  binary_round prec emax false m e = S754_finite false m e.
Proof.
  unfold bounded, canonical_mantissa. intros H.
  apply andb_prop in H as [Hc He].
  apply Z.eqb_eq in Hc. apply Z.leb_le in He.
  destruct (binary_round_spec prec emax prec_pos m e)
    as (n & -> & Hn & _ & _ & Hnear).
  rewrite Hc in *.
  destruct (Hnear e ltac:(lia) ltac:(lia)) as [[Lo Hi] _].
  replace (e - e) with 0 in * by lia. change (2 ^ 0) with 1 in *.
  assert (n = Zpos m) by lia. subst n.
  pose proof (digits2_pos_bounds m) as [_ Dhi].
  assert (Zpos (digits2_pos m) <= prec)
    by (unfold SpecFloat.fexp in Hc; lia).
  assert (2 ^ Zpos (digits2_pos m) <= 2 ^ prec)
    by (apply Z.pow_le_mono_r; lia).
  unfold pack. destruct (Z.eqb_spec (Zpos m) 0); [lia|].
  destruct (Z.eqb_spec (Zpos m) (2 ^ prec)); [lia|]. cbv zeta.
  destruct (Z.leb_spec e (emax - prec)); [|lia]. reflexivity.
Qed.

Lemma binary_round_valid (M : positive) (E : Z) :
  valid_binary prec emax (binary_round prec emax false M E) = true.
Proof.
  destruct (binary_round_spec prec emax prec_pos M E)
    as (n & -> & Hn & Hnorm & _ & _).
  apply pack_valid; try assumption. apply fexp_ge_emin.
Qed.

(** The sign only sets the sign of the outcome. *)
Lemma binary_round_sign (M : positive) (E : Z) :
  binary_round prec emax true M E
  = SFopp (binary_round prec emax false M E).
Proof.
  unfold binary_round, binary_round_aux.
  destruct (shl_align _ _ _) as [mz ez].
  destruct (shr_fexp _ _ _ _ _) as [mrs e'].
  destruct (shr_fexp _ _ _ _ _) as [mrs2 e2].
  destruct (shr_m mrs2); try reflexivity.
  destruct (_ <=? _); reflexivity.
Qed.

(** What [binary_round] gives for a positive number: a positive number
    of the format or the infinity, and no zero from an exponent of the
    format. *)
Lemma binary_round_shape (M : positive) (E : Z) :
  match binary_round prec emax false M E with
  | S754_zero s => s = false /\ E < emin
  | S754_infinity s => s = false
  | S754_finite s m e => s = false /\ bounded prec emax m e = true
  | S754_nan => False
  end.
Proof.
  pose proof (binary_round_valid M E) as Hv.
  destruct (binary_round_spec prec emax prec_pos M E)
    as (n & Er & Hn & _ & Hpos & _).
  rewrite Er in Hv |- *. clear Er. unfold pack in *.
  destruct (Z.eqb_spec n 0) as [En|Hz].
  - split; [reflexivity|]. destruct (Z_lt_le_dec E emin); [assumption|].
    specialize (Hpos ltac:(lia)). lia.
  - cbv zeta in *. destruct (_ <=? _); [|reflexivity].
    split; [reflexivity|exact Hv].
Qed.

End RoundOrder.

(** ** The arithmetic of float32 *)

Lemma prec32_pos : 0 < F32.prec.
Proof. reflexivity. Qed.

Lemma fexp32 (g : Z) : fexp F32.prec F32.emax g = Z.max (g - 24) (-149).
Proof. reflexivity. Qed.

Lemma bounded_inv (m : positive) (e : Z) :
  bounded F32.prec F32.emax m e = true ->
  let d := Zpos (digits2_pos m) in
  -149 <= e <= 104 /\ 0 < d <= 24 /\ (-149 < e -> d = 24) /\
  2 ^ (d - 1) <= Zpos m < 2 ^ d.
Proof.
  unfold bounded, canonical_mantissa. rewrite fexp32. intros H.
  apply andb_prop in H as [Hc He].
  apply Z.eqb_eq in Hc. apply Z.leb_le in He.
  change (F32.emax - F32.prec) with 104 in He.
  pose proof (digits2_pos_bounds m). cbv zeta.
  repeat split; try lia.
Qed.

(** The numbers of the format are ordered as their exponents, then as
    their mantissas. *)
Lemma canonical_lt (m1 m2 : positive) (e1 e2 : Z) :
  bounded F32.prec F32.emax m1 e1 = true ->
  bounded F32.prec F32.emax m2 e2 = true ->
  (e1 < e2 \/ (e1 = e2 /\ Zpos m1 < Zpos m2)) <->
  Zpos m1 * 2 ^ (e1 + 149) < Zpos m2 * 2 ^ (e2 + 149).
Proof.
  intros B1 B2.
  assert (Hfwd : forall m1 m2 e1 e2,
            bounded F32.prec F32.emax m1 e1 = true ->
            bounded F32.prec F32.emax m2 e2 = true ->
            e1 < e2 ->
            Zpos m1 * 2 ^ (e1 + 149) < Zpos m2 * 2 ^ (e2 + 149)).
  { clear. intros m1 m2 e1 e2 B1 B2 He.
    apply bounded_inv in B1 as (R1 & D1 & _ & _ & Hi1).
    apply bounded_inv in B2 as (R2 & D2 & N2 & Lo2 & _).
    rewrite N2 in Lo2 by lia.
    assert (Zpos m1 < 2 ^ 24).
    { assert (2 ^ Zpos (digits2_pos m1) <= 2 ^ 24)
        by (apply Z.pow_le_mono_r; lia).
      lia. }
    replace (e2 + 149) with ((e2 - e1 - 1) + 1 + (e1 + 149)) by lia.
    rewrite (Z.pow_add_r 2 (e2 - e1 - 1 + 1) (e1 + 149)) by lia.
    rewrite (Z.pow_add_r 2 (e2 - e1 - 1) 1) by lia. change (2 ^ 1) with 2.
    change (2 ^ (24 - 1)) with 8388608 in Lo2.
    change (2 ^ 24) with 16777216 in H.
    pose proof (pow2_pos (e1 + 149) ltac:(lia)) as HB.
    pose proof (pow2_pos (e2 - e1 - 1) ltac:(lia)) as HA.
    set (A := 2 ^ (e2 - e1 - 1)) in *. set (B := 2 ^ (e1 + 149)) in *.
    assert (S1 : Zpos m1 * B < 16777216 * B) by nia.
    assert (S2 : 16777216 * B <= Zpos m2 * 2 * B) by nia.
    assert (S3 : Zpos m2 * 2 * B * 1 <= Zpos m2 * 2 * B * A).
    { apply Z.mul_le_mono_nonneg_l; [|lia].
      apply Z.mul_nonneg_nonneg; lia. }
    replace (Zpos m2 * (A * 2 * B)) with (Zpos m2 * 2 * B * A) by ring.
    lia. }
  pose proof (bounded_inv _ _ B1) as (R1 & _).
  pose proof (bounded_inv _ _ B2) as (R2 & _).
  split.
  - intros [He|[-> Hm]]; [now apply Hfwd|].
    pose proof (pow2_pos (e2 + 149) ltac:(lia)). nia.
  - intros Hlt.
    destruct (Z.lt_trichotomy e1 e2) as [He|[->|He]]; [now left| |].
    + right. split; [reflexivity|].
      pose proof (pow2_pos (e2 + 149) ltac:(lia)). nia.
    + specialize (Hfwd m2 m1 e2 e1 B2 B1 He). lia.
Qed.

(** On finite numbers [F32.ltb] is the order of the values. *)
Lemma f32_ltb_ulps (x y : spec_float) :
  F32.finite x = true -> F32.finite y = true ->
  (F32.ltb x y = true <-> F32.ulps x < F32.ulps y).
Proof.
  intros Fx Fy. rewrite f32_ltb_key.
  destruct x as [sx|sx| |sx mx ex], y as [sy|sy| |sy my ey];
    try discriminate; cbn [F32.finite] in Fx, Fy.
  - cbn. lia.
  - destruct sy; cbn [fkey F32.ulps lex_lt cond_Zopp].
    + pose proof (bounded_inv _ _ Fy) as (R & _).
      pose proof (pow2_pos (ey + 149) ltac:(lia)). split; [lia|nia].
    + pose proof (bounded_inv _ _ Fy) as (R & _).
      pose proof (pow2_pos (ey + 149) ltac:(lia)). split; [nia|lia].
  - destruct sx; cbn [fkey F32.ulps lex_lt cond_Zopp].
    + pose proof (bounded_inv _ _ Fx) as (R & _).
      pose proof (pow2_pos (ex + 149) ltac:(lia)). split; [nia|lia].
    + pose proof (bounded_inv _ _ Fx) as (R & _).
      pose proof (pow2_pos (ex + 149) ltac:(lia)). split; [lia|nia].
  - pose proof (bounded_inv _ _ Fx) as (Rx & _).
    pose proof (bounded_inv _ _ Fy) as (Ry & _).
    pose proof (pow2_pos (ex + 149) ltac:(lia)).
    pose proof (pow2_pos (ey + 149) ltac:(lia)).
    destruct sx, sy; cbn [fkey F32.ulps lex_lt cond_Zopp].
    + pose proof (canonical_lt my mx ey ex Fy Fx). lia.
    + split; [nia|lia].
    + split; [lia|nia].
    + pose proof (canonical_lt mx my ex ey Fx Fy). lia.
Qed.

Lemma fkey_opp (x : spec_float) :
  x <> S754_nan ->
  fkey (SFopp x) = let '(a, b, c) := fkey x in (- a, - b, - c).
Proof.
  destruct x as [[|]|[|]| |[|] m e]; try congruence; intros _; cbn;
    try reflexivity.
  now rewrite Z.opp_involutive.
Qed.

Lemma SFleb_opp (a b : spec_float) :
  SFleb a b = true -> SFleb (SFopp b) (SFopp a) = true.
Proof.
  rewrite !SFleb_key. intros (Ha & Hb & H).
  split; [destruct b; try congruence; discriminate|].
  split; [destruct a; try congruence; discriminate|].
  rewrite !fkey_opp by assumption.
  destruct (fkey a) as [[a1 a2] a3], (fkey b) as [[b1 b2] b3].
  cbn in *. lia.
Qed.

Lemma SFleb_trans (a b c : spec_float) :
  SFleb a b = true -> SFleb b c = true -> SFleb a c = true.
Proof.
  rewrite !SFleb_key. intros (Ha & Hb & H1) (_ & Hc & H2).
  repeat split; try assumption.
  destruct (fkey a) as [[a1 a2] a3], (fkey b) as [[b1 b2] b3],
    (fkey c) as [[c1 c2] c3].
  cbn in *. lia.
Qed.

Lemma SFleb_refl (a : spec_float) : a <> S754_nan -> SFleb a a = true.
Proof.
  intros H. apply SFleb_key. repeat split; try assumption.
  apply lex_lt_irrefl.
Qed.

Lemma SFleb_ltb (a b : spec_float) :
  SFleb a b = true -> F32.ltb b a = false.
Proof.
  rewrite SFleb_key. intros (_ & _ & H).
  destruct (F32.ltb b a) eqn:E; [|reflexivity].
  apply f32_ltb_key in E. contradiction.
Qed.

Lemma shl_align_fst (m : positive) (e ez : Z) :
  ez <= e -> Zpos (fst (shl_align m e ez)) = Zpos m * 2 ^ (e - ez).
Proof.
  intros H. unfold shl_align. destruct (ez - e) as [|d|d] eqn:E; try lia.
  - replace (e - ez) with 0 by lia. cbn [fst]. change (2 ^ 0) with 1. lia.
  - cbn [fst]. change (Pos.iter xO m d) with (shift_pos d m).
    rewrite shift_pos_correct. change (Z.pow_pos 2 d) with (2 ^ Zpos d).
    replace (e - ez) with (Zpos d) by lia. lia.
Qed.

Lemma br_id (m : positive) (e : Z) :
  bounded F32.prec F32.emax m e = true -> br m e = S754_finite false m e.
Proof. apply binary_round_id. reflexivity. Qed.

(** What [br] gives from an exponent of the format. *)
Lemma br_shape (D : positive) (E : Z) :
  -149 <= E ->
  br D E = S754_infinity false \/
  exists m e, br D E = S754_finite false m e /\
              bounded F32.prec F32.emax m e = true.
Proof.
  intros HE.
  pose proof (binary_round_shape F32.prec F32.emax prec32_pos D E) as H.
  destruct (br D E) as [s|s| |s m e]; try contradiction.
  - destruct H as [_ H]. change (emin F32.prec F32.emax) with (-149) in H.
    lia.
  - left. now subst s.
  - right. destruct H as [-> H]. eauto.
Qed.

Lemma opp_br_nonpos (D : positive) (E : Z) :
  -149 <= E -> F32.nonpos (SFopp (br D E)) = true.
Proof.
  intros HE. destruct (br_shape D E HE) as [->|(m & e & -> & B)];
    [reflexivity|exact B].
Qed.

Lemma br_not_nan (D : positive) (E : Z) : br D E <> S754_nan.
Proof.
  pose proof (binary_round_shape F32.prec F32.emax prec32_pos D E) as H.
  destruct (br D E); try discriminate. contradiction.
Qed.

(** [x - m] for [x <= m]: zero, or the difference rounded, negated. *)
Lemma sub_spec (x m : spec_float) :
  F32.finite x = true -> F32.finite m = true -> F32.ulps x <= F32.ulps m ->
  (F32.ulps x = F32.ulps m /\ exists s, sub32 x m = S754_zero s) \/
  (exists D E,
     sub32 x m = SFopp (br D E) /\ -149 <= E /\
     Zpos D * 2 ^ (E + 149) = F32.ulps m - F32.ulps x).
Proof.
  intros Fx Fm Hle.
  destruct x as [sx|sx| |sx mx ex], m as [sy|sy| |sy my ey];
    try discriminate; cbn [F32.finite] in Fx, Fm.
  - left. split; [reflexivity|]. destruct sx, sy; cbn; eauto.
  - pose proof (bounded_inv _ _ Fm) as (R & _).
    pose proof (pow2_pos (ey + 149) ltac:(lia)).
    destruct sy; cbn [F32.ulps cond_Zopp] in Hle; [nia|].
    right. exists my, ey. cbn [SFsub negb F32.ulps cond_Zopp].
    rewrite br_id by assumption. repeat split; lia.
  - pose proof (bounded_inv _ _ Fx) as (R & _).
    pose proof (pow2_pos (ex + 149) ltac:(lia)).
    destruct sx; cbn [F32.ulps cond_Zopp] in Hle; [|nia].
    right. exists mx, ex. cbn [SFsub F32.ulps cond_Zopp].
    rewrite br_id by assumption. repeat split; lia.
  - pose proof (bounded_inv _ _ Fx) as (Rx & _).
    pose proof (bounded_inv _ _ Fm) as (Ry & _).
    cbn [SFsub]. set (ez := Z.min ex ey).
    assert (ez <= ex /\ ez <= ey /\ -149 <= ez) as (Z1 & Z2 & Z3)
      by (unfold ez; lia).
    rewrite !shl_align_fst by assumption.
    set (X := cond_Zopp sx (Zpos mx * 2 ^ (ex - ez))).
    set (Y := cond_Zopp sy (Zpos my * 2 ^ (ey - ez))).
    assert (EX : F32.ulps (S754_finite sx mx ex) = X * 2 ^ (ez + 149)).
    { unfold X. cbn [F32.ulps].
      replace (ex + 149) with ((ex - ez) + (ez + 149)) by lia.
      rewrite Z.pow_add_r by lia. destruct sx; cbn [cond_Zopp]; ring. }
    assert (EY : F32.ulps (S754_finite sy my ey) = Y * 2 ^ (ez + 149)).
    { unfold Y. cbn [F32.ulps].
      replace (ey + 149) with ((ey - ez) + (ez + 149)) by lia.
      rewrite Z.pow_add_r by lia. destruct sy; cbn [cond_Zopp]; ring. }
    rewrite EX, EY in *. clearbody X Y.
    pose proof (pow2_pos (ez + 149) ltac:(lia)) as HP.
    assert (HXY : X <= Y) by nia.
    destruct (X - Y) as [|D|D] eqn:ED; try lia.
    + left. split; [f_equal; lia|]. cbn. eauto.
    + right. exists D, ez. cbn [binary_normalize].
      rewrite binary_round_sign. split; [reflexivity|].
      split; [assumption|]. nia.
Qed.

(** Subtracting the maximum keeps the order, and gives zero or less. *)
Lemma sub_mono (x1 x2 m : spec_float) :
  F32.finite x1 = true -> F32.finite x2 = true -> F32.finite m = true ->
  F32.ulps x1 <= F32.ulps x2 -> F32.ulps x2 <= F32.ulps m ->
  F32.nonpos (sub32 x1 m) = true /\ F32.nonpos (sub32 x2 m) = true /\
  SFleb (sub32 x1 m) (sub32 x2 m) = true.
Proof.
  intros F1 F2 Fm H12 H2m.
  destruct (sub_spec x1 m F1 Fm ltac:(lia))
    as [[E1 [s1 ->]]|(D1 & E1 & -> & R1 & V1)];
  destruct (sub_spec x2 m F2 Fm ltac:(lia))
    as [[E2 [s2 ->]]|(D2 & E2 & -> & R2 & V2)].
  - repeat split.
  - exfalso. pose proof (pow2_pos (E2 + 149) ltac:(lia)). nia.
  - split; [now apply opp_br_nonpos|]. split; [reflexivity|].
    destruct (br_shape D1 E1 R1) as [->|(m1 & e1 & -> & _)]; reflexivity.
  - split; [now apply opp_br_nonpos|]. split; [now apply opp_br_nonpos|].
    apply SFleb_opp. apply binary_round_mono; [reflexivity|].
    apply (dle_scale (-149)); try lia.
    replace (E2 - -149) with (E2 + 149) by lia.
    replace (E1 - -149) with (E1 + 149) by lia. lia.
Qed.

(** Adding a number that is not negative does not make smaller. *)
Lemma add_nonneg (a b : spec_float) :
  F32.nonneg a = true \/ a = S754_infinity false -> F32.nonneg b = true ->
  (F32.nonneg (add32 a b) = true \/ add32 a b = S754_infinity false) /\
  SFleb a (add32 a b) = true /\ SFleb b (add32 a b) = true.
Proof.
  intros Ha Hb.
  destruct b as [[|]|[|]| |[|] mb eb]; try discriminate;
    cbn [F32.nonneg] in Hb.
  - destruct Ha as [Ha| ->]; [|now (repeat split; try now right)].
    destruct a as [[|]|[|]| |[|] ma ea]; try discriminate.
    + repeat split. now left.
    + cbn [SFadd]. repeat split; try now left.
      now apply SFleb_refl.
  - destruct Ha as [Ha| ->]; [|now (repeat split; try now right)].
    destruct a as [[|]|[|]| |[|] ma ea]; try discriminate.
    + cbn [SFadd]. repeat split; try now left.
      now apply SFleb_refl.
    + cbn [F32.nonneg] in Ha. cbn [SFadd cond_Zopp].
      pose proof (bounded_inv _ _ Ha) as (Ra & _).
      pose proof (bounded_inv _ _ Hb) as (Rb & _).
      set (ez := Z.min ea eb).
      assert (ez <= ea /\ ez <= eb /\ -149 <= ez) as (Z1 & Z2 & Z3)
        by (unfold ez; lia).
      pose proof (shl_align_fst ma ea ez Z1) as EA.
      pose proof (shl_align_fst mb eb ez Z2) as EB.
      set (pa := fst (shl_align ma ea ez)) in *.
      set (pb := fst (shl_align mb eb ez)) in *.
      cbn [Z.add binary_normalize].
      pose proof (Pos2Z.inj_add pa pb) as EM. rewrite EA, EB in EM.
      set (M := (pa + pb)%positive) in *. clearbody M pa pb.
      pose proof (pow2_pos (ea - ez) ltac:(lia)).
      pose proof (pow2_pos (eb - ez) ltac:(lia)).
      split; [destruct (br_shape M ez Z3) as [->|(m & e & -> & B)];
              [now right|now left]|].
      split.
      * rewrite <- (br_id ma ea Ha) at 1.
        apply binary_round_mono; [reflexivity|].
        apply (dle_scale ez); try lia.
        replace (ez - ez) with 0 by lia. change (2 ^ 0) with 1. nia.
      * rewrite <- (br_id mb eb Hb) at 1.
        apply binary_round_mono; [reflexivity|].
        apply (dle_scale ez); try lia.
        replace (ez - ez) with 0 by lia. change (2 ^ 0) with 1. nia.
Qed.

Lemma Zdigits2_nonneg (n : Z) : 0 <= Zdigits2 n.
Proof. destruct n; simpl; lia. Qed.

Lemma Zdigits2_lt (n : Z) : 0 <= n -> n < 2 ^ Zdigits2 n.
Proof.
  intros H. destruct n as [|p|p]; try lia; [reflexivity|].
  apply digits2_pos_bounds.
Qed.

Section RoundBound.

Variables prec emax : Z.
Hypothesis prec_pos : 0 < prec.

Local Abbreviation fexp := (fexp prec emax).
Local Abbreviation emin := (emin prec emax).

(** One normalisation: the exponent reached and the mantissa left. *)
Lemma shr_fexp_any (m e : Z) (l : location) :
  0 <= m ->
  exists mrs,
    shr_fexp prec emax m e l
    = (mrs, Z.max e (fexp (Zdigits2 m + e))) /\
    shr_m mrs = m / 2 ^ (Z.max e (fexp (Zdigits2 m + e)) - e).
Proof.
  intros Hm. unfold shr_fexp, shr.
  assert (Hrec : shr_m (shr_record_of_loc m l) = m)
    by (destruct l as [|[| |]]; reflexivity).
  destruct (SpecFloat.fexp prec emax (Zdigits2 m + e) - e) as [|p|p] eqn:E.
  - exists (shr_record_of_loc m l).
    replace (Z.max e _) with e by lia.
    replace (e - e) with 0 by lia.
    rewrite Hrec. change (2 ^ 0) with 1. rewrite Z.div_1_r. now split.
  - eexists. replace (Z.max e _) with (e + Zpos p) by lia.
    split; [reflexivity|].
    replace (e + Zpos p - e) with (Zpos p) by lia.
    destruct (iter_pos_shr_1 p (shr_record_of_loc m l)) as [Em _];
      [rewrite Hrec; assumption|].
    rewrite Em, Hrec. reflexivity.
  - exists (shr_record_of_loc m l).
    replace (Z.max e _) with e by lia.
    replace (e - e) with 0 by lia.
    rewrite Hrec. change (2 ^ 0) with 1. rewrite Z.div_1_r. now split.
Qed.

(** [binary_round_aux] on any location: zero or a number whose exponent
    is at most one above the exponent of the format. *)
Lemma bra_bound (m e : Z) (l : location) (B : Z) :
  0 <= m ->
  Z.max e (fexp (Zdigits2 m + e)) + 1 <= B -> B <= emax - prec ->
  binary_round_aux prec emax false m e l = S754_zero false \/
  exists m' e',
    binary_round_aux prec emax false m e l = S754_finite false m' e' /\
    e' <= B.
Proof.
  intros Hm HB Hmax. unfold binary_round_aux.
  destruct (shr_fexp_any m e l Hm) as (mrs1 & -> & Eq).
  set (c := Z.max e (fexp (Zdigits2 m + e))) in *.
  assert (Hc : emin <= c).
  { pose proof (fexp_ge_emin prec emax (Zdigits2 m + e)). unfold c. lia. }
  set (k := c - e) in *. assert (Hk : 0 <= k) by (unfold k, c; lia).
  pose proof (pow2_pos k Hk) as HP.
  assert (Hq : 0 <= shr_m mrs1) by (rewrite Eq; apply Z.div_pos; lia).
  set (n := round_nearest_even (shr_m mrs1) (loc_of_shr_record mrs1)).
  assert (Hn : 0 <= n <= shr_m mrs1 + 1).
  { unfold n.
    destruct (round_nearest_even_spec (shr_m mrs1) (loc_of_shr_record mrs1))
      as [->|[-> _]]; lia. }
  destruct (shr_fexp_any n c loc_Exact ltac:(lia)) as (mrs2 & -> & Eq2).
  set (c2 := Z.max c (fexp (Zdigits2 n + c))) in *.
  assert (Hc2 : c2 <= c + 1).
  { assert (Hd : Zdigits2 n + c <= Zdigits2 m + e + 1 \/ Zdigits2 n <= 1).
    { pose proof (Zdigits2_lt m Hm) as Hlt.
      pose proof (Zdigits2_nonneg m) as Hdm.
      destruct (Z_le_gt_dec k (Zdigits2 m)) as [Hle|Hgt].
      - left.
        assert (shr_m mrs1 < 2 ^ (Zdigits2 m - k)).
        { rewrite Eq. apply Z.div_lt_upper_bound; [lia|].
          rewrite <- Z.pow_add_r by lia.
          replace (k + (Zdigits2 m - k)) with (Zdigits2 m) by lia.
          assumption. }
        assert (Zdigits2 n <= Zdigits2 m - k + 1).
        { apply Zdigits2_bound; [|lia]. rewrite pow2_succ by lia. lia. }
        unfold k in *. lia.
      - right.
        assert (shr_m mrs1 = 0).
        { rewrite Eq. apply Z.div_small. split; [lia|].
          assert (2 ^ Zdigits2 m <= 2 ^ k)
            by (apply Z.pow_le_mono_r; lia).
          lia. }
        apply Zdigits2_bound; [|lia]. change (2 ^ 1) with 2. lia. }
    unfold c2, c, SpecFloat.fexp in *. lia. }
  assert (Hm2 : 0 <= shr_m mrs2).
  { rewrite Eq2. apply Z.div_pos; [lia|]. apply pow2_pos. unfold c2. lia. }
  destruct (shr_m mrs2) as [|m2|m2]; [now left| |lia].
  right. destruct (Z.leb_spec c2 (emax - prec)); [|lia].
  exists m2, c2. split; [reflexivity|lia].
Qed.

(** An exact mantissa that is fine enough needs no alignment. *)
Lemma binary_round_fine (M : positive) (E : Z) :
  E <= fexp (Zpos (digits2_pos M) + E) ->
  binary_round prec emax false M E
  = binary_round_aux prec emax false (Zpos M) E loc_Exact.
Proof.
  intros H. unfold binary_round, shl_align.
  destruct (SpecFloat.fexp prec emax (Zpos (digits2_pos M) + E) - E)
    eqn:Ek; try reflexivity.
  lia.
Qed.

End RoundBound.

(** [1 / s] for a sum [s >= 1]: zero or a positive number with an
    exponent that is not positive. *)
Lemma div_one (s : spec_float) :
  F32.nonneg s = true \/ s = S754_infinity false ->
  SFleb F32.one s = true ->
  div32 F32.one s = S754_zero false \/
  exists m e, div32 F32.one s = S754_finite false m e /\ e <= 0.
Proof.
  intros [Hs| ->] Hle; [|now left].
  destruct s as [[|]|[|]| |[|] ms es]; try discriminate.
  cbn [F32.nonneg] in Hs. apply SFleb_key in Hle as (_ & _ & Hle).
  cbn [fkey F32.one lex_lt] in Hle.
  pose proof (bounded_inv _ _ Hs) as (R & D2 & N2 & Lo2 & Hi2).
  set (d2 := Zpos (digits2_pos ms)) in *.
  assert (Hes : -23 <= es) by lia.
  assert (Hms : 8388608 <= Zpos ms).
  { destruct (Z.eq_dec es (-23)) as [->|]; [lia|].
    rewrite N2 in Lo2 by lia. exact Lo2. }
  assert (Hd2 : d2 = 24).
  { destruct (Z.eq_dec es (-149)); [lia|]. apply N2. lia. }
  unfold F32.one. cbn [SFdiv xorb]. unfold SFdiv_core_binary.
  change (Zdigits2 (Zpos 8388608)) with 24.
  change (Zdigits2 (Zpos ms)) with d2. rewrite Hd2, fexp32.
  set (e' := Z.min (Z.max (24 + -23 - (24 + es) - 24) (-149)) (-23 - es)).
  assert (He' : e' <= -24 /\ -149 <= e' /\ e' <= -23 - es)
    by (unfold e'; lia).
  set (sh := -23 - es - e').
  set (m' := match sh with
             | 0 => Zpos 8388608
             | Zpos _ => Z.shiftl (Zpos 8388608) sh
             | Zneg _ => 0
             end).
  assert (Hsh : 0 <= sh) by (unfold sh; lia).
  assert (Hm' : m' = 2 ^ (23 + sh)).
  { rewrite Z.pow_add_r by lia. change (2 ^ 23) with 8388608.
    unfold m'. destruct sh as [|p|p] eqn:Esh;
      [reflexivity|now rewrite Z.shiftl_mul_pow2 by lia|lia]. }
  clearbody m'.
  pose proof (pow2_pos (23 + sh) ltac:(lia)) as Hm0.
  pose proof (Z_div_mod m' (Zpos ms) ltac:(lia)) as Hdiv.
  destruct (Z.div_eucl m' (Zpos ms)) as [q r].
  destruct Hdiv as [Edm Hr].
  assert (Hq0 : 0 <= q) by nia.
  assert (Hq : q <= 2 ^ (- e')).
  { pose proof (pow2_pos (- e') ltac:(lia)) as HB.
    destruct (Z_le_gt_dec es 0) as [Hneg|Hpos].
    - pose proof (pow2_pos (- es) ltac:(lia)) as HA.
      assert (2 ^ (- es) <= Zpos ms).
      { assert (2 ^ (- es) <= 2 ^ 23)
          by (apply Z.pow_le_mono_r; lia).
        change (2 ^ 23) with 8388608 in *. lia. }
      assert (Em : m' = 2 ^ (- e') * 2 ^ (- es)).
      { rewrite Hm', <- Z.pow_add_r by lia. f_equal. unfold sh. lia. }
      assert (q * Zpos ms <= m') by nia.
      assert (q * 2 ^ (- es) <= 2 ^ (- e') * 2 ^ (- es)) by nia.
      nia.
    - assert (2 ^ (23 + sh) <= 2 ^ (- e'))
        by (apply Z.pow_le_mono_r; unfold sh; lia).
      assert (q * 1 <= q * Zpos ms) by nia.
      nia. }
  assert (Hdq : Zdigits2 q <= - e' + 1).
  { apply Zdigits2_bound; [|lia]. rewrite pow2_succ by lia.
    pose proof (pow2_pos (- e') ltac:(lia)). lia. }
  destruct (bra_bound F32.prec F32.emax prec32_pos q e'
              (new_location (Zpos ms) r) 0 Hq0)
    as [->|(m & e & -> & He)].
  - rewrite fexp32. lia.
  - unfold F32.emax, F32.prec. lia.
  - now left.
  - right. eauto.
Qed.

Lemma br_positive_or_zero (M : positive) (E : Z) :
  positive_or_zero (br M E).
Proof.
  pose proof (binary_round_shape F32.prec F32.emax prec32_pos M E) as H.
  destruct (br M E); cbn; tauto.
Qed.

Lemma positive_or_zero_eq (x y : spec_float) :
  positive_or_zero x -> positive_or_zero y -> fkey x = fkey y -> x = y.
Proof.
  destruct x as [sx|sx| |sx mx ex], y as [sy|sy| |sy my ey]; cbn;
    try contradiction; intros -> ->; cbn; try discriminate;
    try reflexivity.
  intros [= -> ->]. reflexivity.
Qed.

Lemma Zdigits2_ge (n k : Z) : 0 <= k -> 2 ^ k <= n -> k + 1 <= Zdigits2 n.
Proof.
  intros Hk Hn. pose proof (pow2_pos k Hk).
  pose proof (Zdigits2_lt n ltac:(lia)).
  pose proof (Zdigits2_nonneg n).
  assert (k < Zdigits2 n) by (apply (Z.pow_lt_mono_r_iff 2); lia).
  lia.
Qed.

(** The product of a number of the format and a number with an exponent
    that is not positive is fine enough to be rounded as it is. *)
Lemma mul_fine (m mi : positive) (e ei : Z) :
  bounded F32.prec F32.emax m e = true -> ei <= 0 ->
  binary_round_aux F32.prec F32.emax false (Zpos (m * mi)) (e + ei)
    loc_Exact
  = br (m * mi) (e + ei).
Proof.
  intros B Hei. symmetry. apply binary_round_fine. rewrite fexp32.
  pose proof (bounded_inv _ _ B) as (R & D & N & Lo & _).
  destruct (Z.eq_dec e (-149)) as [->|Hne]; [lia|].
  rewrite N in Lo by lia.
  assert (24 <= Zpos (digits2_pos (m * mi))).
  { change (Zpos (digits2_pos (m * mi))) with (Zdigits2 (Zpos (m * mi))).
    replace 24 with (23 + 1) by lia. apply Zdigits2_ge; [lia|].
    rewrite Pos2Z.inj_mul. change (24 - 1) with 23 in Lo. nia. }
  lia.
Qed.

Lemma mul_shape (e inv : spec_float) :
  F32.nonneg e = true ->
  (inv = S754_zero false \/
   exists mi ei, inv = S754_finite false mi ei /\ ei <= 0) ->
  positive_or_zero (mul32 e inv).
Proof.
  intros He [->|(mi & ei & -> & Hei)];
    destruct e as [[|]|[|]| |[|] m x]; try discriminate;
    cbn [F32.nonneg] in He; cbn [SFmul xorb]; try reflexivity.
  rewrite mul_fine by assumption. apply br_positive_or_zero.
Qed.

(** Multiplying by the reciprocal of the sum keeps the order. *)
Lemma mul_mono (e1 e2 inv : spec_float) :
  F32.nonneg e1 = true -> F32.nonneg e2 = true -> SFleb e1 e2 = true ->
  (inv = S754_zero false \/
   exists mi ei, inv = S754_finite false mi ei /\ ei <= 0) ->
  SFleb (mul32 e1 inv) (mul32 e2 inv) = true.
Proof.
  intros H1 H2 Hle [->|(mi & ei & -> & Hei)].
  - destruct e1 as [[|]|[|]| |[|] m1 x1]; try discriminate;
      destruct e2 as [[|]|[|]| |[|] m2 x2]; try discriminate;
      reflexivity.
  - destruct e1 as [[|]|[|]| |[|] m1 x1]; try discriminate;
      destruct e2 as [[|]|[|]| |[|] m2 x2]; try discriminate;
      cbn [F32.nonneg] in H1, H2; cbn [SFmul xorb]; try reflexivity.
    + rewrite mul_fine by assumption.
      pose proof (br_positive_or_zero (m2 * mi) (x2 + ei)) as P.
      apply SFleb_key. split; [discriminate|].
      destruct (br (m2 * mi) (x2 + ei)) as [s|s| |s m e]; cbn in P;
        try contradiction; subst s; (split; [discriminate|]); cbn; lia.
    + rewrite !mul_fine by assumption.
      apply binary_round_mono; [reflexivity|].
      apply SFleb_key in Hle as (_ & _ & Hle). cbn [fkey lex_lt] in Hle.
      pose proof (canonical_lt m2 m1 x2 x1 H2 H1) as Hc.
      pose proof (bounded_inv _ _ H1) as (R1 & _).
      pose proof (bounded_inv _ _ H2) as (R2 & _).
      apply (dle_scale (-149 + ei)); try lia.
      replace (x1 + ei - (-149 + ei)) with (x1 + 149) by lia.
      replace (x2 + ei - (-149 + ei)) with (x2 + 149) by lia.
      rewrite !Pos2Z.inj_mul.
      assert (Zpos m1 * 2 ^ (x1 + 149) <= Zpos m2 * 2 ^ (x2 + 149)) by lia.
      nia.
Qed.

(** ** Softmax on float32 *)

(** The maximum of a row is one of its entries, and none exceeds it. *)
Lemma max_of_spec (l : list spec_float) :
  forall x,
    In (F32.max_of x l) (x :: l) /\
    F32.ltb (F32.max_of x l) x = false /\
    forall y, In y l -> F32.ltb (F32.max_of x l) y = false.
Proof.
  unfold F32.max_of.
  induction l as [|z l IH]; intros x; cbn [fold_left].
  - split; [now left|]. split; [|intros y []].
    destruct (F32.ltb x x) eqn:E; [|reflexivity].
    now rewrite (f32_ltb_asym _ _ E) in E.
  - set (a := if F32.ltb x z then z else x).
    destruct (IH a) as (Hin & Ha & Hall).
    assert (Hax : F32.ltb a x = false).
    { unfold a. destruct (F32.ltb x z) eqn:E; [now apply f32_ltb_asym|].
      destruct (F32.ltb x x) eqn:E'; [|reflexivity].
      now rewrite (f32_ltb_asym _ _ E') in E'. }
    assert (Haz : F32.ltb a z = false).
    { unfold a. destruct (F32.ltb x z) eqn:E; [|assumption].
      destruct (F32.ltb z z) eqn:E'; [|reflexivity].
      now rewrite (f32_ltb_asym _ _ E') in E'. }
    assert (Hle : forall y, F32.ltb a y = false ->
                            F32.ltb (fold_left
                              (fun a y => if F32.ltb a y then y else a) l a) y
                            = false).
    { intros y Hy.
      destruct (F32.ltb (fold_left _ l a) y) eqn:E; [|reflexivity].
      destruct (f32_ltb_split _ _ a E) as [H|H]; congruence. }
    split.
    + destruct Hin as [Hin|Hin]; [|now right; right].
      unfold a in Hin. destruct (F32.ltb x z).
      * right. left. exact Hin.
      * left. exact Hin.
    + split; [now apply Hle|].
      intros y [<-|Hy]; [now apply Hle|now apply Hall].
Qed.

(** A sum of numbers that are not negative is at least each of them. *)
Lemma sum_ge (es : list spec_float) :
  Forall (fun e => F32.nonneg e = true) es ->
  forall acc,
    F32.nonneg acc = true \/ acc = S754_infinity false ->
    let s := fold_left F32.add es acc in
    (F32.nonneg s = true \/ s = S754_infinity false) /\
    SFleb acc s = true /\
    forall e, In e es -> SFleb e s = true.
Proof.
  induction 1 as [|e es He Hes IH]; intros acc Hacc; cbn [fold_left].
  - split; [assumption|]. split; [|intros e []].
    apply SFleb_refl. destruct Hacc as [H| ->]; [|discriminate].
    destruct acc; try discriminate H; discriminate.
  - destruct (add_nonneg acc e Hacc He) as (Hs & Ha & Hb).
    destruct (IH (F32.add acc e) Hs) as (Hs' & Hle & Hall).
    split; [assumption|]. split; [eapply SFleb_trans; eassumption|].
    intros e' [<-|Hin]; [eapply SFleb_trans; eassumption|now apply Hall].
Qed.

Section SoftmaxFacts.

Variable exp32 : spec_float -> spec_float.
Hypothesis exp32_zero : forall s, exp32 (S754_zero s) = F32.one.
Hypothesis exp32_valid :
  forall x, F32.nonpos x = true -> F32.nonneg (exp32 x) = true.
Hypothesis exp32_mono :
  forall x y, F32.nonpos x = true -> F32.nonpos y = true ->
              SFleb x y = true -> SFleb (exp32 x) (exp32 y) = true.

(** Softmax is one function applied to each entry, and that function
    does not decrease. *)
Lemma softmax_map (logits : list spec_float) :
  Forall (fun x => F32.finite x = true) logits ->
  exists f,
    F32.softmax exp32 logits = map f logits /\
    (forall x, In x logits -> positive_or_zero (f x)) /\
    (forall x y, In x logits -> In y logits ->
       F32.ltb y x = false -> F32.ltb (f y) (f x) = false).
Proof.
  intros Hfin. destruct logits as [|x0 rest].
  - exists (fun x => x). split; [reflexivity|].
    split; [intros ? []|intros ? ? []].
  - unfold F32.softmax. set (logits := x0 :: rest) in *.
    destruct (max_of_spec rest x0) as (Hin & Hx0 & Hrest).
    set (m := F32.max_of x0 rest) in *.
    assert (Hmax : forall y, In y logits -> F32.ltb m y = false)
      by (intros y [<-|Hy]; [assumption|now apply Hrest]).
    rewrite Forall_forall in Hfin.
    assert (Fm : F32.finite m = true) by now apply Hfin.
    assert (Hu : forall y, In y logits -> F32.ulps y <= F32.ulps m).
    { intros y Hy. pose proof (f32_ltb_ulps m y Fm (Hfin y Hy)) as H.
      specialize (Hmax y Hy). destruct (Z_le_gt_dec (F32.ulps y) (F32.ulps m));
        [assumption|]. assert (F32.ltb m y = true) by (apply H; lia).
      congruence. }
    set (g := fun y => exp32 (F32.sub y m)).
    assert (Hg : forall y, In y logits -> F32.nonneg (g y) = true).
    { intros y Hy. apply exp32_valid.
      now apply (sub_mono y y m); auto; try lia. }
    assert (Hgm : forall y1 y2, In y1 logits -> In y2 logits ->
              F32.ulps y1 <= F32.ulps y2 -> SFleb (g y1) (g y2) = true).
    { intros y1 y2 H1 H2 Hle.
      destruct (sub_mono y1 y2 m) as (N1 & N2 & L); auto.
      now apply exp32_mono. }
    assert (Hone : g m = F32.one).
    { unfold g, F32.sub. destruct (sub_spec m m Fm Fm ltac:(lia))
        as [[_ [s ->]]|(D & E & _ & HE & HD)]; [apply exp32_zero|].
      pose proof (pow2_pos (E + 149) ltac:(lia)). nia. }
    set (es := map g logits).
    assert (Hes : Forall (fun e => F32.nonneg e = true) es).
    { apply Forall_forall. intros e He. apply in_map_iff in He.
      destruct He as (y & <- & Hy). now apply Hg. }
    destruct (sum_ge es Hes F32.zero (or_introl eq_refl))
      as (Hs & _ & Hall).
    set (s := fold_left F32.add es F32.zero) in *.
    assert (Hs1 : SFleb F32.one s = true).
    { apply Hall. rewrite <- Hone. unfold es. now apply in_map. }
    pose proof (div_one s Hs Hs1) as Hinv.
    set (inv := F32.div F32.one s) in *.
    exists (fun y => F32.mul (g y) inv).
    split; [unfold es; now rewrite map_map|]. split.
    + intros y Hy. apply mul_shape; [now apply Hg|assumption].
    + intros y1 y2 H1 H2 Hlt. apply SFleb_ltb.
      assert (Hle : F32.ulps y1 <= F32.ulps y2).
      { pose proof (f32_ltb_ulps y2 y1 (Hfin y2 H2) (Hfin y1 H1)) as H.
        destruct (Z_le_gt_dec (F32.ulps y1) (F32.ulps y2)); [assumption|].
        assert (F32.ltb y2 y1 = true) by (apply H; lia). congruence. }
      apply mul_mono; [now apply Hg|now apply Hg| |assumption].
      now apply Hgm.
Qed.

End SoftmaxFacts.

Lemma f32_ltb_irrefl (a : spec_float) : F32.ltb a a = false.
Proof.
  destruct (F32.ltb a a) eqn:E; [|reflexivity].
  now rewrite (f32_ltb_asym _ _ E) in E.
Qed.

Lemma f32_ltb_false_eq (a b : spec_float) :
  positive_or_zero a -> positive_or_zero b ->
  F32.ltb a b = false -> F32.ltb b a = false -> a = b.
Proof.
  intros Pa Pb H1 H2. apply positive_or_zero_eq; try assumption.
  assert (N1 : ~ lex_lt (fkey a) (fkey b))
    by (intros F; apply f32_ltb_key in F; congruence).
  assert (N2 : ~ lex_lt (fkey b) (fkey a))
    by (intros F; apply f32_ltb_key in F; congruence).
  destruct (fkey a) as [[a1 a2] a3], (fkey b) as [[b1 b2] b3].
  cbn in *. repeat f_equal; lia.
Qed.

Section SoftmaxArgmax.

Variable exp32 : spec_float -> spec_float.
Hypothesis exp32_zero : forall s, exp32 (S754_zero s) = F32.one.
Hypothesis exp32_valid :
  forall x, F32.nonpos x = true -> F32.nonneg (exp32 x) = true.
Hypothesis exp32_mono :
  forall x y, F32.nonpos x = true -> F32.nonpos y = true ->
              SFleb x y = true -> SFleb (exp32 x) (exp32 y) = true.

(** C6, as amended.  On every row of finite [float32] logits, for an
    exponential that does not decrease: the argmax of the logits, [k], has a
    softmax probability [p] that no entry of the row exceeds; the argmax of
    the probabilities, [k'], is the first index with that probability, so
    [k' <= k], and [k' = k] exactly when every probability before [k] is
    smaller; softmax does not decrease: of two logits the one that is not
    smaller gets a probability that is not smaller. *)
Theorem argmax_softmax_float32 (logits : list spec_float) :
  logits <> [] -> Forall (fun x => F32.finite x = true) logits ->
  let prob := F32.softmax exp32 logits in
  exists k k' p,
    argmax F32.ltb logits = Ok k /\
    argmax F32.ltb prob = Ok k' /\
    0 <= k' <= k /\
    nth_error prob (Z.to_nat k) = Some p /\
    nth_error prob (Z.to_nat k') = Some p /\
    (forall q, In q prob -> F32.ltb p q = false) /\
    (forall j q, (j < Z.to_nat k')%nat -> nth_error prob j = Some q ->
                 F32.ltb q p = true) /\
    (k' = k <->
     forall j q, (j < Z.to_nat k)%nat -> nth_error prob j = Some q ->
                 F32.ltb q p = true) /\
    (forall i j x y px py,
        nth_error logits i = Some x -> nth_error logits j = Some y ->
        nth_error prob i = Some px -> nth_error prob j = Some py ->
        F32.ltb y x = false -> F32.ltb py px = false).
Proof.
  intros Hne Hfin prob.
  destruct (softmax_map exp32 exp32_zero exp32_valid exp32_mono logits Hfin)
    as (f & Ef & Hshape & Hmono).
  unfold prob. rewrite Ef. clear prob Ef.
  destruct (argmax_range _ F32.ltb logits Hne) as (k & Ek & Hk).
  assert (Hne' : map f logits <> [])
    by (destruct logits; [congruence|discriminate]).
  destruct (argmax_range _ F32.ltb (map f logits) Hne') as (k' & Ek' & Hk').
  destruct (argmax_first_max _ F32.ltb f32_ltb_asym f32_ltb_split logits k Ek)
    as (xk & Nk & Mk & _).
  destruct (argmax_first_max _ F32.ltb f32_ltb_asym f32_ltb_split _ k' Ek')
    as (p' & Nk' & Mk' & Fk').
  rewrite nth_error_map in Nk'.
  destruct (nth_error logits (Z.to_nat k')) as [xk'|] eqn:Nx';
    [|discriminate]. injection Nk' as <-.
  pose proof (nth_error_In _ _ Nk) as Ik.
  pose proof (nth_error_In _ _ Nx') as Ik'.
  assert (Mp : forall q, In q (map f logits) -> F32.ltb (f xk) q = false).
  { intros q Hq. apply in_map_iff in Hq as (y & <- & Hy).
    apply Hmono; [assumption|assumption|]. now apply Mk. }
  assert (Epk : f xk' = f xk).
  { apply f32_ltb_false_eq; try (now apply Hshape).
    - apply Mk'. now apply in_map.
    - apply Mp. now apply in_map. }
  assert (Hkk : k' <= k).
  { destruct (Z_le_gt_dec k' k) as [|Hgt]; [assumption|exfalso].
    assert (Hlt : (Z.to_nat k < Z.to_nat k')%nat) by lia.
    specialize (Fk' (Z.to_nat k) (f xk) Hlt).
    rewrite nth_error_map, Nk in Fk'. specialize (Fk' eq_refl).
    rewrite Epk, f32_ltb_irrefl in Fk'. discriminate. }
  exists k, k', (f xk).
  split; [assumption|]. split; [assumption|]. split; [lia|].
  split; [now rewrite nth_error_map, Nk|].
  split; [rewrite nth_error_map, Nx'; cbn; now rewrite Epk|].
  split; [exact Mp|]. split; [|split].
  - intros j q Hj Hq. rewrite <- Epk. now apply (Fk' j).
  - split.
    + intros -> j q Hj Hq. rewrite <- Epk. now apply (Fk' j).
    + intros Hall.
      destruct (Z.eq_dec k' k) as [|Hd]; [assumption|exfalso].
      assert (Hlt : (Z.to_nat k' < Z.to_nat k)%nat) by lia.
      specialize (Hall (Z.to_nat k') (f xk) Hlt).
      rewrite nth_error_map, Nx' in Hall. cbn in Hall.
      rewrite Epk in Hall. specialize (Hall eq_refl).
      rewrite f32_ltb_irrefl in Hall. discriminate.
  - intros i j x y px py Hx Hy Hpx Hpy Hlt.
    rewrite nth_error_map, Hx in Hpx. rewrite nth_error_map, Hy in Hpy.
    injection Hpx as <-. injection Hpy as <-.
    apply Hmono; [eapply nth_error_In|eapply nth_error_In|]; eassumption.
Qed.

End SoftmaxArgmax.

(** ** The exponential to run the softmax with *)

Lemma exp_fix_range (u : Z) : u <= 0 -> 0 <= F32.exp_fix u <= 2 ^ 192.
Proof.
  intros Hu. unfold F32.exp_fix.
  set (P := 2 ^ 192). assert (HP : 0 < P) by reflexivity.
  assert (H0 : 0 <= Z.max 0 (P + u * 2 ^ 3) <= P) by lia.
  revert H0. generalize (Z.max 0 (P + u * 2 ^ 3)). clearbody P.
  generalize 40%nat. intros n.
  induction n as [|n IH]; intros y Hy; [exact Hy|].
  rewrite Nat.iter_succ_r. apply IH. split.
  - apply Z.div_pos; nia.
  - apply Z.div_le_upper_bound; nia.
Qed.

Lemma exp_fix_mono (u v : Z) :
  u <= v -> v <= 0 -> F32.exp_fix u <= F32.exp_fix v.
Proof.
  intros Huv Hv. unfold F32.exp_fix.
  set (P := 2 ^ 192). assert (HP : 0 < P) by reflexivity.
  assert (H0 : 0 <= Z.max 0 (P + u * 2 ^ 3)
               <= Z.max 0 (P + v * 2 ^ 3)) by lia.
  revert H0. generalize (Z.max 0 (P + v * 2 ^ 3)).
  generalize (Z.max 0 (P + u * 2 ^ 3)). clearbody P.
  generalize 40%nat. intros n.
  induction n as [|n IH]; intros y z Hyz; [cbn; lia|].
  rewrite !Nat.iter_succ_r. apply IH. split.
  - apply Z.div_pos; nia.
  - apply Z.div_le_mono; nia.
Qed.

Lemma round_fix_mono (V1 V2 : Z) :
  0 <= V1 <= V2 -> SFleb (F32.round_fix V1) (F32.round_fix V2) = true.
Proof.
  intros [H1 H2]. unfold F32.round_fix.
  destruct V1 as [|M1|M1]; [|  |lia]; destruct V2 as [|M2|M2]; try lia;
    cbn [binary_normalize]; try reflexivity.
  - pose proof (br_positive_or_zero M2 (-192)) as P.
    apply SFleb_key. split; [discriminate|].
    destruct (binary_round _ _ _ _ _) as [s|s| |s m e]; cbn in P;
      try contradiction; subst s; (split; [discriminate|]); cbn; lia.
  - apply binary_round_mono; [reflexivity|].
    apply (dle_scale (-192)); try lia.
Qed.

Lemma round_fix_one : F32.round_fix (2 ^ 192) = F32.one.
Proof. vm_compute. reflexivity. Qed.

Lemma round_fix_nonneg (V : Z) :
  0 <= V <= 2 ^ 192 -> F32.nonneg (F32.round_fix V) = true.
Proof.
  intros HV. pose proof (round_fix_mono V (2 ^ 192) HV) as Hle.
  rewrite round_fix_one in Hle. unfold F32.round_fix in *.
  destruct V as [|M|M]; [reflexivity| |lia]. cbn [binary_normalize] in *.
  pose proof (binary_round_shape F32.prec F32.emax prec32_pos M (-192)) as H.
  destruct (binary_round _ _ _ _ _) as [s|s| |s m e]; try contradiction.
  - now destruct H as [-> _].
  - subst s. discriminate.
  - destruct H as [-> H]. exact H.
Qed.

Lemma f32_exp_zero (s : bool) : F32.exp (S754_zero s) = F32.one.
Proof. vm_compute. reflexivity. Qed.

Lemma nonpos_ulps (x : spec_float) :
  F32.nonpos x = true -> x <> S754_infinity true ->
  F32.finite x = true /\ F32.ulps x <= 0.
Proof.
  destruct x as [s|[|]| |[|] m e]; try discriminate; try congruence;
    cbn [F32.nonpos F32.finite F32.ulps cond_Zopp]; intros H _.
  - split; [reflexivity|lia].
  - split; [assumption|].
    pose proof (bounded_inv _ _ H) as (R & _).
    pose proof (pow2_pos (e + 149) ltac:(lia)). nia.
Qed.

Lemma f32_exp_finite (x : spec_float) :
  F32.finite x = true -> F32.ulps x <= 0 ->
  F32.exp x = F32.round_fix (F32.exp_fix (F32.ulps x)).
Proof.
  intros F Hu. unfold F32.exp.
  assert (H156 : 0 < 2 ^ 156) by reflexivity.
  destruct x as [s|s| |s m e]; try discriminate;
    match goal with
    | |- context [?a <=? ?b] => destruct (Z.leb_spec a b) as [H|H]
    end; try reflexivity; exfalso; lia.
Qed.

(** On zero or less [F32.exp] gives zero or a positive number of the
    format. *)
Lemma f32_exp_valid (x : spec_float) :
  F32.nonpos x = true -> F32.nonneg (F32.exp x) = true.
Proof.
  intros H.
  assert (Hx : x = S754_infinity true \/ x <> S754_infinity true).
  { destruct x as [s|[|]| |s m e]; try (right; discriminate). now left. }
  destruct Hx as [->|Hx]; [reflexivity|].
  destruct (nonpos_ulps x H Hx) as [F Hu].
  rewrite f32_exp_finite by assumption.
  apply round_fix_nonneg, exp_fix_range. assumption.
Qed.

(** [F32.exp] does not decrease on the differences that softmax gives
    it. *)
Lemma f32_exp_mono (x y : spec_float) :
  F32.nonpos x = true -> F32.nonpos y = true ->
  SFleb x y = true -> SFleb (F32.exp x) (F32.exp y) = true.
Proof.
  intros Hx Hy Hle.
  assert (Dx : x = S754_infinity true \/ x <> S754_infinity true).
  { destruct x as [s|[|]| |s m e]; try (right; discriminate). now left. }
  destruct Dx as [->|Nx].
  - pose proof (f32_exp_valid y Hy) as V. cbn [F32.exp].
    destruct (F32.exp y) as [[|]|[|]| |[|] m e]; try discriminate; reflexivity.
  - assert (Ny : y <> S754_infinity true).
    { intros ->. destruct x as [s|[|]| |[|] m e]; try discriminate.
      congruence. }
    destruct (nonpos_ulps x Hx Nx) as [Fx Ux].
    destruct (nonpos_ulps y Hy Ny) as [Fy Uy].
    rewrite !f32_exp_finite by assumption.
    assert (Hu : F32.ulps x <= F32.ulps y).
    { apply SFleb_ltb in Hle.
      pose proof (f32_ltb_ulps y x Fy Fx) as H.
      destruct (Z_le_gt_dec (F32.ulps x) (F32.ulps y)); [assumption|].
      assert (F32.ltb y x = true) by (apply H; lia). congruence. }
    apply round_fix_mono. pose proof (exp_fix_range (F32.ulps x) Ux).
    pose proof (exp_fix_mono _ _ Hu Uy). lia.
Qed.

(** The exponential on some arguments: 0, -0.5, -1, -8 and -100. *)
Example f32_exp_values :
  F32.exp F32.zero = F32.one /\
  F32.exp (S754_finite true 8388608 (-24)) = S754_finite false 10175896 (-24) /\
  F32.exp (S754_finite true 8388608 (-23)) = S754_finite false 12343986 (-25) /\
  F32.exp (S754_finite true 8388608 (-20)) = S754_finite false 11526408 (-35) /\
  F32.exp (S754_finite true 13107200 (-17)) = S754_finite false 27 (-149).
Proof. vm_compute. repeat split. Qed.

(** The exponential of a number just below zero is nearer to 1 than to
    the number of the format before 1, which is [1 - 2^-24]. *)
Lemma exp_near_one (x : R) :
  (- / 2 ^ 25 < x < 0)%R -> (1 - / 2 ^ 25 < exp x < 1)%R.
Proof.
  intros [Hlo Hhi]. split.
  - pose proof (exp_ineq1_le x). lra.
  - rewrite <- exp_0. now apply exp_increasing.
Qed.

(** C6, as stated, on seven logits, the second [1e-8] and the others 0:
    the exponential of [-1e-8] is nearer to 1 than to any other [float32],
    so all seven probabilities are the [float32] of 1/7; the argmax of the
    logits is 1, the argmax of their softmax is 0, and [sentence_predict]
    names another emotion on the probabilities than on the logits. *)
Lemma argmax_softmax_counterexample :
  let logits := Sample32.logits in
  let prob := F32.softmax F32.exp logits in
  Forall (fun x => F32.finite x = true) logits /\
  F32.ltb F32.zero Sample32.small = true /\
  (1 - / 2 ^ 25 < exp (- (11258999 / 2 ^ 50)) < 1)%R /\
  F32.exp (F32.sub F32.zero Sample32.small) = F32.one /\
  prob = repeat Sample32.seventh 7 /\
  argmax F32.ltb logits = Ok 1 /\
  argmax F32.ltb prob = Ok 0 /\
  sentence_predict spec_float F32.ltb (fun _ => logits) [] 0
  = Ok (EmoStr [51473; 47549]%N, 1) /\
  sentence_predict spec_float F32.ltb (fun _ => prob) [] 0
  = Ok (EmoStr [49836; 54548]%N, 0).
Proof.
  cbv zeta. split; [repeat constructor|]. split; [reflexivity|].
  split; [apply exp_near_one; lra|].
  vm_compute. repeat split.
Qed.

Lemma argmax_softmax_float32_witness :
  let prob := F32.softmax F32.exp Sample32.logits in
  exists k k' p,
    argmax F32.ltb Sample32.logits = Ok k /\
    argmax F32.ltb prob = Ok k' /\
    0 <= k' <= k /\
    nth_error prob (Z.to_nat k) = Some p /\
    nth_error prob (Z.to_nat k') = Some p /\
    (forall q, In q prob -> F32.ltb p q = false) /\
    (forall j q, (j < Z.to_nat k')%nat -> nth_error prob j = Some q ->
                 F32.ltb q p = true) /\
    (k' = k <->
     forall j q, (j < Z.to_nat k)%nat -> nth_error prob j = Some q ->
                 F32.ltb q p = true) /\
    (forall i j x y px py,
        nth_error Sample32.logits i = Some x ->
        nth_error Sample32.logits j = Some y ->
        nth_error prob i = Some px -> nth_error prob j = Some py ->
        F32.ltb y x = false -> F32.ltb py px = false).
Proof.
  apply (argmax_softmax_float32 F32.exp f32_exp_zero f32_exp_valid f32_exp_mono
           Sample32.logits).
  - discriminate.
  - repeat constructor.
Defined.

(** The softmax of the row 1, 2, -1: about 0.2595, 0.7054 and 0.0351;
    here the two argmaxes agree. *)
Example softmax_sample :
  let logits :=
    [F32.one; S754_finite false 8388608 (-22);
     S754_finite true 8388608 (-23)] in
  F32.softmax F32.exp logits
  = [S754_finite false 8707257 (-25); S754_finite false 11834389 (-24);
     S754_finite false 9427192 (-28)] /\
  argmax F32.ltb logits = Ok 1 /\
  argmax F32.ltb (F32.softmax F32.exp logits) = Ok 1.
Proof. vm_compute. repeat split. Qed.
